(** * A bounded, politeness-aware crawler: model and properties

    Shallow embedding of [scraper/utils.py], of [scraper/crawler.py] and of
    the naming of stored files in [scraper/storage.py].

    Representation of data.
    - A Python [str] is the Rocq [string] of its UTF-8 bytes; ASCII text is
      therefore represented by itself.  Every delimiter the program looks for
      is ASCII, so searching, splitting and slicing at delimiters act on the
      bytes exactly as they act on the code points.
    - [str.lower] changes the letters A to Z of ASCII text; that is
      [Str.lower].  It stands for [str.lower] where the program looks for
      an ASCII literal in the lower-cased text (the scheme, the tracking
      names, the content types): no other character is lower-cased to
      text in which these literals occur.  Where two lower-cased texts
      are compared ([is_allowed_domain], the agent names of a robots
      document), the lower-casing of text that is not ASCII is the field
      [unicode_lower] of the class [Externals].
    - Python [int] is [Z].
    - The whitespace that [collapse_whitespace] looks for is not all ASCII:
      its characters are recognised by their UTF-8 encodings.
    - An exception is an explicit [Raise] outcome.

    The functions of [urllib.parse] and [urllib.robotparser] follow the
    CPython 3.11 sources.  Two checks that [urlsplit] delegates to other
    libraries (the [ipaddress] validation of a bracketed host and the
    [unicodedata] NFKC test of a non-ASCII network location) are fields of
    the class [Externals], as is the lower-casing of text that is not
    ASCII. *)

From Stdlib Require Import Ascii String NArith ZArith Lia.
From stdpp Require Import base strings list gmap.

Open Scope string_scope.

(** ** Outcomes of Python calls *)

Inductive exn : Type :=
  | ValueError
  | TransportError
  | TimeoutException
  | CancelledError.

(** [except Exception] catches every class except those deriving directly
    from [BaseException]; [asyncio.CancelledError] is one of the latter. *)
Definition is_Exception (e : exn) : bool :=
  match e with
  | CancelledError => false
  | _ => true
  end.

Inductive outcome (A : Type) : Type :=
  | Return (a : A)
  | Raise (e : exn).
Arguments Return {A} a.
Arguments Raise {A} e.

Global Instance outcome_ret : MRet outcome := fun A a => Return a.
Global Instance outcome_bind : MBind outcome := fun A B k m =>
  match m with
  | Return a => k a
  | Raise e => Raise e
  end.
Global Instance outcome_fmap : FMap outcome := fun A B f m =>
  match m with
  | Return a => Return (f a)
  | Raise e => Raise e
  end.

(** ** Python string primitives *)

Module Str.

Definition eqb_ascii (a b : ascii) : bool := Ascii.eqb a b.

Fixpoint chars (s : string) : list ascii :=
  match s with
  | EmptyString => []
  | String a r => a :: chars r
  end.

Fixpoint of_chars (l : list ascii) : string :=
  match l with
  | [] => EmptyString
  | a :: r => String a (of_chars r)
  end.

(** [not s] *)
Definition is_empty (s : string) : bool :=
  match s with
  | EmptyString => true
  | _ => false
  end.

(** [c in s] for a one-character [c] *)
Fixpoint mem (c : ascii) (s : string) : bool :=
  match s with
  | EmptyString => false
  | String a r => eqb_ascii a c || mem c r
  end.

Fixpoint all (p : ascii -> bool) (s : string) : bool :=
  match s with
  | EmptyString => true
  | String a r => p a && all p r
  end.

(** [s[:n]] and [s[n:]] *)
Fixpoint take (n : nat) (s : string) : string :=
  match n, s with
  | S n', String a r => String a (take n' r)
  | _, _ => EmptyString
  end.

Fixpoint drop (n : nat) (s : string) : string :=
  match n, s with
  | S n', String _ r => drop n' r
  | _, _ => s
  end.

(** [i = s.find(c)] together with [s[:i]] and [s[i+1:]]; [None] when
    [find] returns -1. *)
Fixpoint cut (c : ascii) (s : string) : option (string * string) :=
  match s with
  | EmptyString => None
  | String a r =>
      if eqb_ascii a c then Some (EmptyString, r)
      else match cut c r with
           | Some (h, t) => Some (String a h, t)
           | None => None
           end
  end.

(** [s.split(c)] *)
Fixpoint split (c : ascii) (s : string) : list string :=
  match s with
  | EmptyString => [EmptyString]
  | String a r =>
      if eqb_ascii a c then EmptyString :: split c r
      else match split c r with
           | h :: t => String a h :: t
           | [] => [String a EmptyString]
           end
  end.

(** [sep.join(l)] *)
Fixpoint join (sep : string) (l : list string) : string :=
  match l with
  | [] => EmptyString
  | [x] => x
  | x :: r => x +:+ sep +:+ join sep r
  end.

(** The longest prefix free of characters satisfying [p], and the rest. *)
Fixpoint break (p : ascii -> bool) (s : string) : string * string :=
  match s with
  | EmptyString => (EmptyString, EmptyString)
  | String a r =>
      if p a then (EmptyString, s)
      else let '(h, t) := break p r in (String a h, t)
  end.

(** [s.lstrip(chars)] with the character set given as a predicate *)
Fixpoint lstrip (p : ascii -> bool) (s : string) : string :=
  match s with
  | EmptyString => EmptyString
  | String a r => if p a then lstrip p r else s
  end.

Definition rev (s : string) : string := of_chars (List.rev (chars s)).

Definition rstrip (p : ascii -> bool) (s : string) : string :=
  rev (lstrip p (rev s)).

Definition strip (p : ascii -> bool) (s : string) : string :=
  rstrip p (lstrip p s).

(** [s.replace(c, "")] for every character satisfying [p] *)
Fixpoint remove (p : ascii -> bool) (s : string) : string :=
  match s with
  | EmptyString => EmptyString
  | String a r => if p a then remove p r else String a (remove p r)
  end.

(** [s.replace(a, b)] for one-character [a] and [b] *)
Fixpoint replace (a b : ascii) (s : string) : string :=
  match s with
  | EmptyString => EmptyString
  | String c r => String (if eqb_ascii c a then b else c) (replace a b r)
  end.

Fixpoint startswith (pre s : string) : bool :=
  match pre, s with
  | EmptyString, _ => true
  | String a p', String b s' => eqb_ascii a b && startswith p' s'
  | String _ _, EmptyString => false
  end.

Definition endswith (suf s : string) : bool :=
  startswith (rev suf) (rev s).

(** [sub in s] *)
Fixpoint contains (sub s : string) : bool :=
  startswith sub s ||
  match s with
  | EmptyString => false
  | String _ r => contains sub r
  end.

Definition code (a : ascii) : N := N_of_ascii a.

Definition between (lo hi : N) (a : ascii) : bool :=
  ((lo <=? code a) && (code a <=? hi))%N.

Definition is_ascii_char (a : ascii) : bool := (code a <? 128)%N.
Definition is_upper (a : ascii) : bool := between 65 90 a.
Definition is_lower (a : ascii) : bool := between 97 122 a.
Definition is_alpha (a : ascii) : bool := is_upper a || is_lower a.
Definition is_digit (a : ascii) : bool := between 48 57 a.

(** [s.isascii()] *)
Definition isascii (s : string) : bool := all is_ascii_char s.

Definition lower_char (a : ascii) : ascii :=
  if is_upper a then ascii_of_N (code a + 32) else a.

Fixpoint lower (s : string) : string :=
  match s with
  | EmptyString => EmptyString
  | String a r => String (lower_char a) (lower r)
  end.

(** [x in l] for a list or set of strings *)
Definition inb (x : string) (l : list string) : bool :=
  existsb (String.eqb x) l.

End Str.

(** ** What the program delegates to the Unicode and address libraries *)

Class Externals : Type := {
  (** [ipaddress.ip_address(h)] accepts [h] and yields an IPv6 address *)
  ip_address_is_v6 : string -> bool;
  (** [_checknetloc] rejects the non-ASCII network location: its NFKC form
      (computed after removing [@:#?]) differs from it and contains one of
      the characters [/?#@:] *)
  nfkc_unsafe : string -> bool;
  (** [s.lower()] for a text [s] that is not ASCII: the lower-casing of
      the Unicode character database, which depends on the neighbouring
      characters (the final sigma) and can change the length of the text *)
  unicode_lower : string -> string;
}.

(** [s.lower()] where the program compares the lower-cased text with
    another text that it has lower-cased.  In ASCII text the letters A to
    Z change; any other text is lower-cased by the Unicode tables. *)
Definition str_lower `{!Externals} (s : string) : string :=
  if Str.isascii s then Str.lower s else unicode_lower s.

(** ** [urllib.parse] *)

Module Urllib.

Definition uses_relative : list string :=
  [""; "ftp"; "http"; "gopher"; "nntp"; "imap"; "wais"; "file"; "https";
   "shttp"; "mms"; "prospero"; "rtsp"; "rtspu"; "sftp"; "svn"; "svn+ssh";
   "ws"; "wss"].

Definition uses_netloc : list string :=
  [""; "ftp"; "http"; "gopher"; "nntp"; "telnet"; "imap"; "wais"; "file";
   "mms"; "https"; "shttp"; "snews"; "prospero"; "rtsp"; "rtspu"; "rsync";
   "svn"; "svn+ssh"; "sftp"; "nfs"; "git"; "git+ssh"; "ws"; "wss"].

Definition uses_params : list string :=
  [""; "ftp"; "hdl"; "prospero"; "http"; "imap"; "https"; "shttp"; "rtsp";
   "rtspu"; "sip"; "sips"; "mms"; "sftp"; "tel"].

Definition scheme_char (a : ascii) : bool :=
  Str.is_alpha a || Str.is_digit a || Str.mem a "+-.".

(** [_WHATWG_C0_CONTROL_OR_SPACE]: code points 0 to 32 *)
Definition c0_control_or_space (a : ascii) : bool := (Str.code a <=? 32)%N.

(** [_UNSAFE_URL_BYTES_TO_REMOVE]: tab, carriage return, line feed *)
Definition unsafe_url_byte (a : ascii) : bool :=
  ((Str.code a =? 9) || (Str.code a =? 13) || (Str.code a =? 10))%N.

Record SplitResult : Type := mkSplit {
  s_scheme : string;
  s_netloc : string;
  s_path : string;
  s_query : string;
  s_fragment : string;
}.

Record ParseResult : Type := mkParse {
  scheme : string;
  netloc : string;
  path : string;
  params : string;
  query : string;
  fragment : string;
}.

(** [_splitnetloc(url, 2)] applied to [url[2:]]: the network location ends
    at the first of [/], [?], [#]. *)
Definition netloc_delim (a : ascii) : bool := Str.mem a "/?#".

Definition splitnetloc (url : string) : string * string :=
  Str.break netloc_delim url.

(** [s.rpartition(c)[2]] *)
Definition after_last (c : ascii) (s : string) : string :=
  match Str.cut c (Str.rev s) with
  | Some (h, _) => Str.rev h
  | None => s
  end.

(** [s.rpartition(c)]: the text before and after the last [c] *)
Definition rcut (c : ascii) (s : string) : option (string * string) :=
  match Str.cut c (Str.rev s) with
  | Some (h, t) => Some (Str.rev t, Str.rev h)
  | None => None
  end.

Definition is_hexdig (a : ascii) : bool :=
  Str.is_digit a || Str.between 65 70 a || Str.between 97 102 a.

Section WithExternals.
Context `{!Externals}.

Definition checknetloc (nl : string) : outcome unit :=
  if Str.is_empty nl || Str.isascii nl then Return ()
  else if nfkc_unsafe nl then Raise ValueError
  else Return ().

(** The IPvFuture pattern [\Av[a-fA-F0-9]+\..+\Z] on a host that starts
    with [v]. *)
Definition ipvfuture (h : string) : bool :=
  match h with
  | String _ r =>
      let '(hex, rest) := Str.break (fun a => negb (is_hexdig a)) r in
      negb (Str.is_empty hex) &&
      match rest with
      | String "." tl =>
          negb (Str.is_empty tl) &&
          Str.all (fun a => negb (Str.code a =? 10)%N) tl
      | _ => false
      end
  | EmptyString => false
  end.

Definition check_bracketed_host (hostname : string) : outcome unit :=
  if Str.startswith "v" hostname then
    if ipvfuture hostname then Return () else Raise ValueError
  else
    if ip_address_is_v6 hostname then Return () else Raise ValueError.

Definition check_bracketed_netloc (nl : string) : outcome unit :=
  let hostname_and_port := after_last "@" nl in
  match Str.cut "[" hostname_and_port with
  | Some (before_bracket, bracketed) =>
      if negb (Str.is_empty before_bracket) then Raise ValueError
      else
        let '(hostname, port) :=
          match Str.cut "]" bracketed with
          | Some (h, p) => (h, p)
          | None => (bracketed, EmptyString)
          end in
        if negb (Str.is_empty port) && negb (Str.startswith ":" port)
        then Raise ValueError
        else check_bracketed_host hostname
  | None =>
      let hostname :=
        match Str.cut ":" hostname_and_port with
        | Some (h, _) => h
        | None => hostname_and_port
        end in
      check_bracketed_host hostname
  end.

(** The bracket tests that [urlsplit] applies to a network location *)
Definition bracket_check (nl : string) : outcome unit :=
  let lb := Str.mem "[" nl in
  let rb := Str.mem "]" nl in
  if (lb && negb rb) || (rb && negb lb) then Raise ValueError
  else if lb && rb then check_bracketed_netloc nl
  else Return ().

(** The scheme, when the text before the first colon is one *)
Definition split_scheme (url scheme : string) : string * string :=
  match Str.cut ":" url with
  | Some (String c _ as pre, rest) =>
      if Str.is_ascii_char c && Str.is_alpha c && Str.all scheme_char pre
      then (Str.lower pre, rest)
      else (scheme, url)
  | _ => (scheme, url)
  end.

(** The network location, when the text starts with two slashes *)
Definition split_netloc (url : string) : outcome (string * string) :=
  if Str.startswith "//" url then
    let '(nl, rest) := splitnetloc (Str.drop 2 url) in
    _ ← bracket_check nl; Return (nl, rest)
  else Return (EmptyString, url).

(** [url, tail = url.split(c, 1)] when [c in url] *)
Definition split_tail (c : ascii) (url : string) : string * string :=
  match Str.cut c url with
  | Some (u, t) => (u, t)
  | None => (url, EmptyString)
  end.

Definition urlsplit (url scheme : string) : outcome SplitResult :=
  let url := Str.lstrip c0_control_or_space url in
  let scheme := Str.strip c0_control_or_space scheme in
  let url := Str.remove unsafe_url_byte url in
  let scheme := Str.remove unsafe_url_byte scheme in
  let '(scheme, url) := split_scheme url scheme in
  '(nl, url) ← split_netloc url;
  let '(url, frag) := split_tail "#" url in
  let '(url, qry) := split_tail "?" url in
  _ ← checknetloc nl;
  Return (mkSplit scheme nl url qry frag).

Definition splitparams (url : string) : string * string :=
  if Str.mem "/" url then
    match rcut "/" url with
    | Some (dir, last) =>
        match Str.cut ";" last with
        | Some (h, t) => (dir +:+ "/" +:+ h, t)
        | None => (url, EmptyString)
        end
    | None => (url, EmptyString)
    end
  else
    match Str.cut ";" url with
    | Some (h, t) => (h, t)
    | None => (Str.take (String.length url - 1) url, url)
    end.

Definition urlparse (url scheme : string) : outcome ParseResult :=
  r ← urlsplit url scheme;
  let '(p, prm) :=
    if Str.inb (s_scheme r) uses_params && Str.mem ";" (s_path r)
    then splitparams (s_path r)
    else (s_path r, EmptyString) in
  Return (mkParse (s_scheme r) (s_netloc r) p prm (s_query r)
                  (s_fragment r)).

End WithExternals.

Definition urlunsplit (r : SplitResult) : string :=
  let url := s_path r in
  let url :=
    if negb (Str.is_empty (s_netloc r)) ||
       (negb (Str.is_empty (s_scheme r)) &&
        Str.inb (s_scheme r) uses_netloc &&
        negb (Str.startswith "//" url))
    then
      let url :=
        if negb (Str.is_empty url) && negb (Str.startswith "/" url)
        then "/" +:+ url else url in
      "//" +:+ s_netloc r +:+ url
    else url in
  let url :=
    if negb (Str.is_empty (s_scheme r))
    then s_scheme r +:+ ":" +:+ url else url in
  let url :=
    if negb (Str.is_empty (s_query r))
    then url +:+ "?" +:+ s_query r else url in
  if negb (Str.is_empty (s_fragment r))
  then url +:+ "#" +:+ s_fragment r else url.

Definition urlunparse (r : ParseResult) : string :=
  let url :=
    if negb (Str.is_empty (params r))
    then path r +:+ ";" +:+ params r else path r in
  urlunsplit (mkSplit (scheme r) (netloc r) url (query r) (fragment r)).

(** [urljoin]: removal of dot segments *)
Definition resolve_step (resolved : list string) (seg : string)
  : list string :=
  if String.eqb seg ".." then removelast resolved
  else if String.eqb seg "." then resolved
  else (resolved ++ [seg])%list.

(** [segments[1:-1] = filter(None, segments[1:-1])] *)
Definition squeeze_inner (segments : list string) : list string :=
  match segments with
  | [] => []
  | [x] => [x]
  | x :: rest =>
      (x :: filter (fun s => negb (Str.is_empty s)) (removelast rest)
         ++ [List.last rest EmptyString])%list
  end.

Definition join_paths (bpath pth : string) : string :=
  let base_parts := Str.split "/" bpath in
  let base_parts :=
    if negb (Str.is_empty (List.last base_parts EmptyString))
    then removelast base_parts else base_parts in
  let segments :=
    if Str.startswith "/" pth then Str.split "/" pth
    else squeeze_inner (base_parts ++ Str.split "/" pth)%list in
  let resolved := fold_left resolve_step segments [] in
  let lastseg := List.last segments EmptyString in
  let resolved :=
    if String.eqb lastseg "." || String.eqb lastseg ".."
    then (resolved ++ [EmptyString])%list else resolved in
  let joined := Str.join "/" resolved in
  if Str.is_empty joined then "/" else joined.

Section WithExternals.
Context `{!Externals}.

Definition urljoin (base url : string) : outcome string :=
  if Str.is_empty base then Return url
  else if Str.is_empty url then Return base
  else
    b ← urlparse base EmptyString;
    u ← urlparse url (scheme b);
    if negb (String.eqb (scheme u) (scheme b)) ||
       negb (Str.inb (scheme u) uses_relative)
    then Return url
    else if Str.inb (scheme u) uses_netloc &&
            negb (Str.is_empty (netloc u))
    then Return (urlunparse u)
    else
      let nl :=
        if Str.inb (scheme u) uses_netloc then netloc b else netloc u in
      if Str.is_empty (path u) && Str.is_empty (params u) then
        let qry :=
          if Str.is_empty (query u) then query b else query u in
        Return (urlunparse
                  (mkParse (scheme u) nl (path b) (params b) qry
                           (fragment u)))
      else
        Return (urlunparse
                  (mkParse (scheme u) nl (join_paths (path b) (path u))
                           (params u) (query u) (fragment u))).

End WithExternals.

(** *** Percent-encoding *)

Definition hexval (a : ascii) : N :=
  if Str.is_digit a then (Str.code a - 48)%N
  else if Str.between 65 70 a then (Str.code a - 55)%N
  else (Str.code a - 87)%N.

Definition hexdigit (n : N) : ascii :=
  if (n <? 10)%N then ascii_of_N (n + 48) else ascii_of_N (n + 55).

(** One item of [string.split(b'%')[1:]] in [unquote_to_bytes] *)
Definition unquote_item (item : string) : string :=
  match item with
  | String h1 (String h2 rest) =>
      if is_hexdig h1 && is_hexdig h2
      then String (ascii_of_N (16 * hexval h1 + hexval h2)%N) rest
      else "%" +:+ item
  | _ => "%" +:+ item
  end.

Definition unquote_to_bytes (s : string) : string :=
  match Str.split "%" s with
  | [] => EmptyString
  | first :: items => String.concat EmptyString (first :: map unquote_item items)
  end.

(** [bytes.decode('utf-8', 'replace')], re-encoded: every maximal
    ill-formed subpart becomes U+FFFD. *)
Definition fffd : string :=
  String (ascii_of_N 239) (String (ascii_of_N 191)
    (String (ascii_of_N 189) EmptyString)).

Inductive seqlen : Type := Two | Three | Four.

(** For a lead byte: the admissible range of the second byte and the
    length of the sequence. *)
Definition lead_info (b : ascii) : option (N * N * seqlen) :=
  if Str.between 194 223 b then Some (128%N, 191%N, Two)
  else if Str.between 224 224 b then Some (160%N, 191%N, Three)
  else if Str.between 225 236 b then Some (128%N, 191%N, Three)
  else if Str.between 237 237 b then Some (128%N, 159%N, Three)
  else if Str.between 238 239 b then Some (128%N, 191%N, Three)
  else if Str.between 240 240 b then Some (144%N, 191%N, Four)
  else if Str.between 241 243 b then Some (128%N, 191%N, Four)
  else if Str.between 244 244 b then Some (128%N, 143%N, Four)
  else None.

Definition is_cont (b : ascii) : bool := Str.between 128 191 b.

Fixpoint decode_replace (s : string) : string :=
  match s with
  | EmptyString => EmptyString
  | String b r =>
      if Str.is_ascii_char b then String b (decode_replace r)
      else
        match lead_info b with
        | None => fffd +:+ decode_replace r
        | Some (lo, hi, len) =>
            match r with
            | EmptyString => fffd
            | String b2 r2 =>
                if negb (Str.between lo hi b2) then fffd +:+ decode_replace r
                else
                  match len with
                  | Two => String b (String b2 (decode_replace r2))
                  | _ =>
                      match r2 with
                      | EmptyString => fffd
                      | String b3 r3 =>
                          if negb (is_cont b3)
                          then fffd +:+ decode_replace r2
                          else
                            match len with
                            | Four =>
                                match r3 with
                                | EmptyString => fffd
                                | String b4 r4 =>
                                    if negb (is_cont b4)
                                    then fffd +:+ decode_replace r3
                                    else String b (String b2 (String b3
                                           (String b4 (decode_replace r4))))
                                end
                            | _ => String b (String b2 (String b3
                                     (decode_replace r3)))
                            end
                      end
                  end
            end
        end
  end.

(** [_asciire.split(string)]: maximal runs of ASCII and of non-ASCII
    characters, tagged with [true] for the ASCII ones. *)
Fixpoint ascii_runs (s : string) : list (bool * string) :=
  match s with
  | EmptyString => []
  | String a r =>
      let t := Str.is_ascii_char a in
      match ascii_runs r with
      | (t', run) :: rest =>
          if Bool.eqb t t' then (t, String a run) :: rest
          else (t, String a EmptyString) :: (t', run) :: rest
      | [] => [(t, String a EmptyString)]
      end
  end.

Definition unquote (s : string) : string :=
  if negb (Str.mem "%" s) then s
  else
    String.concat EmptyString
      (map (fun r : bool * string =>
              if r.1 then decode_replace (unquote_to_bytes r.2) else r.2)
           (ascii_runs s)).

Definition unquote_plus (s : string) : string :=
  unquote (Str.replace "+" " " s).

(** [_ALWAYS_SAFE] *)
Definition always_safe (a : ascii) : bool :=
  Str.is_alpha a || Str.is_digit a || Str.mem a "_.-~".

(** [_Quoter.__missing__] *)
Definition quoter (safe : string) (b : ascii) : string :=
  if always_safe b || (Str.is_ascii_char b && Str.mem b safe)
  then String b EmptyString
  else String "%" (String (hexdigit (Str.code b / 16)%N)
                     (String (hexdigit (Str.code b mod 16)%N) EmptyString)).

Definition quote_from_bytes (bs safe : string) : string :=
  String.concat EmptyString (map (quoter safe) (Str.chars bs)).

Definition quote (s safe : string) : string :=
  if Str.is_empty s then s else quote_from_bytes s safe.

Definition quote_plus (s : string) : string :=
  if negb (Str.mem " " s) then quote s EmptyString
  else Str.replace " " "+" (quote s " ").

(** [urlencode] of a list of pairs of [str] *)
Definition urlencode (qry : list (string * string)) : string :=
  Str.join "&"
    (map (fun kv : string * string =>
            quote_plus kv.1 +:+ "=" +:+ quote_plus kv.2) qry).

(** [parse_qsl(qs, keep_blank_values=True)] *)
Definition parse_field (name_value : string) : option (string * string) :=
  if Str.is_empty name_value then None
  else
    let '(n, v) :=
      match Str.cut "=" name_value with
      | Some (n, v) => (n, v)
      | None => (name_value, EmptyString)
      end in
    Some (unquote (Str.replace "+" " " n), unquote (Str.replace "+" " " v)).

Definition parse_qsl (qs : string) : list (string * string) :=
  let query_args := if Str.is_empty qs then [] else Str.split "&" qs in
  omap parse_field query_args.

End Urllib.

(** ** [scraper/utils.py] *)

Module Utils.
Import Urllib.

Definition TRACKING_PARAMS : list string :=
  ["utm_source"; "utm_medium"; "utm_campaign"; "utm_term"; "utm_content";
   "gclid"; "fbclid"; "mc_eid"].

(** Matching one pattern character under [re.I]: the two ASCII cases and,
    for [i] and [s], the letters U+0130, U+0131 and U+017F that the
    regular-expression engine folds onto them.  The result is the text
    left after the matched character. *)
Definition match_ci (c : ascii) (s : string) : option string :=
  match s with
  | EmptyString => None
  | String a r =>
      if Str.eqb_ascii (Str.lower_char a) c then Some r
      else
        match r with
        | String a2 r2 =>
            if Str.eqb_ascii c "i" && (Str.code a =? 196)%N &&
               ((Str.code a2 =? 176)%N || (Str.code a2 =? 177)%N)
            then Some r2
            else if Str.eqb_ascii c "s" && (Str.code a =? 197)%N &&
                    (Str.code a2 =? 191)%N
            then Some r2
            else None
        | EmptyString => None
        end
  end.

(** [re.match(pat, s, re.I)] for a literal lower-case pattern *)
Fixpoint match_prefix_ci (pat s : string) : bool :=
  match pat with
  | EmptyString => true
  | String c pat' =>
      match match_ci c s with
      | Some r => match_prefix_ci pat' r
      | None => false
      end
  end.

(** [re.match(r"^(javascript:|mailto:|tel:)", href, re.I)] *)
Definition unfetchable_scheme (href : string) : bool :=
  match_prefix_ci "javascript:" href ||
  match_prefix_ci "mailto:" href ||
  match_prefix_ci "tel:" href.

Section WithExternals.
Context `{!Externals}.

Definition strip_fragment_and_tracking (url : string) : outcome string :=
  parsed ← urlparse url EmptyString;
  let parsed :=
    mkParse (scheme parsed) (netloc parsed) (path parsed) (params parsed)
            (query parsed) EmptyString in
  let query_pairs :=
    filter (fun kv : string * string =>
              negb (Str.inb (Str.lower kv.1) TRACKING_PARAMS))
           (parse_qsl (query parsed)) in
  let parsed :=
    mkParse (scheme parsed) (netloc parsed) (path parsed) (params parsed)
            (urlencode query_pairs) (fragment parsed) in
  Return (urlunparse parsed).

Definition normalize_url (base_url href : string)
  : outcome (option string) :=
  if Str.is_empty href then Return None
  else if unfetchable_scheme href then Return None
  else
    absolute ← urljoin base_url href;
    stripped ← strip_fragment_and_tracking absolute;
    Return (Some stripped).

(** The loop over [allowed_domains] *)
Fixpoint domain_matches (nl : string) (allowed_domains : list string)
  : bool :=
  match allowed_domains with
  | [] => false
  | domain :: rest =>
      let d := Str.lstrip (Str.eqb_ascii ".") (str_lower domain) in
      if String.eqb nl d || Str.endswith ("." +:+ d) nl then true
      else domain_matches nl rest
  end.

Definition is_allowed_domain (url : string) (allowed_domains : list string)
  : outcome bool :=
  match allowed_domains with
  | [] => Return true
  | _ =>
      parsed ← urlparse url EmptyString;
      Return (domain_matches (str_lower (netloc parsed)) allowed_domains)
  end.

End WithExternals.

(** The characters that [sanitize_filename] keeps: [A-Za-z0-9._-] *)
Definition filename_char (c : ascii) : bool :=
  Str.is_alpha c || Str.is_digit c || Str.eqb_ascii c "." ||
  Str.eqb_ascii c "_" || Str.eqb_ascii c "-".

(** [re.sub(r"[^A-Za-z0-9._-]+", "_", name)]: every maximal run of other
    characters becomes one underscore.  [in_run] tells whether the
    character before [name] belongs to such a run.  A character outside
    ASCII is a sequence of bytes none of which is kept, so the runs of
    bytes are the runs of characters. *)
Fixpoint sub_unsafe_runs (in_run : bool) (name : string) : string :=
  match name with
  | EmptyString => EmptyString
  | String c r =>
      if filename_char c then String c (sub_unsafe_runs false r)
      else if in_run then sub_unsafe_runs true r
      else String "_" (sub_unsafe_runs true r)
  end.

(** [s[:n]] for an integer [n] of either sign *)
Definition slice_to (n : Z) (s : string) : string :=
  if (n <? 0)%Z then Str.take (Z.to_nat (Z.of_nat (String.length s) + n)) s
  else Str.take (Z.to_nat n) s.

Definition sanitize_filename (name : string) (max_length : Z) : string :=
  let name := sub_unsafe_runs false name in
  let name := slice_to max_length name in
  if Str.is_empty name then "file" else name.

(** The characters that end a file name in a header: the double quote and
    the semicolon *)
Definition ends_filename (c : ascii) : bool :=
  Str.eqb_ascii c "034" || Str.eqb_ascii c ";".

(** One attempt, at the start of [s], of the pattern that
    [guess_filename_for_url] searches for: the word [filename], an optional
    star, an equals sign, an optional double quote, then group 1, the
    longest non-empty run of characters other than the double quote and the
    semicolon.  The result is group 1.  Neither optional item can be given
    up to make a later item match, so the attempt is decided from left to
    right. *)
Definition match_filename (s : string) : option string :=
  if Str.startswith "filename" s then
    let s := Str.drop 8 s in
    let s := if Str.startswith "*" s then Str.drop 1 s else s in
    if Str.startswith "=" s then
      let s := Str.drop 1 s in
      let s := if Str.startswith (String "034" "") s then Str.drop 1 s else s in
      let name := (Str.break ends_filename s).1 in
      if Str.is_empty name then None else Some name
    else None
  else None.

(** [re.search] with that pattern: group 1 of the leftmost match *)
Fixpoint search_filename (s : string) : option string :=
  match match_filename s with
  | Some name => Some name
  | None =>
      match s with
      | EmptyString => None
      | String _ r => search_filename r
      end
  end.

(** [os.path.basename] *)
Definition basename (p : string) : string := after_last "/" p.

Section FileNames.
Context `{!Externals}.

Definition guess_filename_for_url (url : string)
  (content_disposition : option string) : outcome string :=
  let filename :=
    match content_disposition with
    | Some cd => if Str.is_empty cd then None else search_filename cd
    | None => None
    end in
  match filename with
  | Some f =>
      if negb (Str.is_empty f) then Return (sanitize_filename f 140)
      else
        parsed ← urlparse url EmptyString;
        let b := basename (path parsed) in
        Return (sanitize_filename
                  (if Str.is_empty b then "index.html" else b) 140)
  | None =>
      parsed ← urlparse url EmptyString;
      let b := basename (path parsed) in
      Return (sanitize_filename
                (if Str.is_empty b then "index.html" else b) 140)
  end.

End FileNames.

(** ** [collapse_whitespace] *)

(** The number of bytes of the whitespace character that [s] starts with,
    0 when it starts with none.  The whitespace of [\s] in a [str] pattern
    is that of [str.strip]: U+0009 to U+000D, U+001C to U+0020, U+0085,
    U+00A0, U+1680, U+2000 to U+200A, U+2028, U+2029, U+202F, U+205F and
    U+3000. *)
Definition space_width (s : string) : nat :=
  match s with
  | EmptyString => 0
  | String a r =>
      if Str.between 9 13 a || Str.between 28 32 a then 1
      else
        match r with
        | EmptyString => 0
        | String b r' =>
            if (Str.code a =? 194)%N
               && ((Str.code b =? 133) || (Str.code b =? 160))%N then 2
            else
              match r' with
              | EmptyString => 0
              | String c _ =>
                  if (Str.code a =? 225)%N && (Str.code b =? 154)%N
                     && (Str.code c =? 128)%N then 3
                  else if (Str.code a =? 226)%N && (Str.code b =? 128)%N
                          && (Str.between 128 138 c
                              || (Str.code c =? 168)%N
                              || (Str.code c =? 169)%N
                              || (Str.code c =? 175)%N) then 3
                  else if (Str.code a =? 226)%N && (Str.code b =? 129)%N
                          && (Str.code c =? 159)%N then 3
                  else if (Str.code a =? 227)%N && (Str.code b =? 128)%N
                          && (Str.code c =? 128)%N then 3
                  else 0
              end
        end
  end.

(** [re.sub(r"\s+", " ", text)], read from the left: [skip] counts the
    bytes still to pass of the whitespace character being read, [in_run]
    tells whether the run of whitespace being read has been replaced. *)
Fixpoint sub_spaces (skip : nat) (in_run : bool) (text : string) : string :=
  match text with
  | EmptyString => EmptyString
  | String a r =>
      match skip with
      | S k => sub_spaces k in_run r
      | O =>
          match space_width text with
          | O => String a (sub_spaces 0 false r)
          | S k =>
              if in_run then sub_spaces k true r
              else String " " (sub_spaces k true r)
          end
      end
  end.

(** [s.lstrip()] *)
Fixpoint lstrip_spaces (skip : nat) (s : string) : string :=
  match s with
  | EmptyString => EmptyString
  | String _ r =>
      match skip with
      | S k => lstrip_spaces k r
      | O =>
          match space_width s with
          | O => s
          | S k => lstrip_spaces k r
          end
      end
  end.

(** [s.isspace()], also true of the empty string *)
Fixpoint only_spaces (skip : nat) (s : string) : bool :=
  match s with
  | EmptyString => true
  | String _ r =>
      match skip with
      | S k => only_spaces k r
      | O =>
          match space_width s with
          | O => false
          | S k => only_spaces k r
          end
      end
  end.

(** [s.rstrip()] *)
Fixpoint rstrip_spaces (s : string) : string :=
  match s with
  | EmptyString => EmptyString
  | String a r =>
      if only_spaces 0 s then EmptyString else String a (rstrip_spaces r)
  end.

Definition collapse_whitespace (text : string) : string :=
  rstrip_spaces (lstrip_spaces 0 (sub_spaces 0 false text)).

End Utils.

(** ** [scraper/storage.py] *)

Module Storage.
Import Utils.

(** [StorageManager.save_binary]: the name of the file written under
    [images_dir]; [sha] is [compute_sha1(content)]. *)
Definition binary_filename (sha : string) (suggested_filename : option string)
  : string :=
  match suggested_filename with
  | Some f => if Str.is_empty f then sha else sanitize_filename f 140
  | None => sha
  end.

End Storage.

(** ** [urllib.robotparser] *)

Module Robotparser.
Import Urllib.

Record RuleLine : Type := mkRuleLine {
  rl_path : string;
  rl_allowance : bool;
}.

Record Entry : Type := mkEntry {
  useragents : list string;
  rulelines : list RuleLine;
}.

(** [last_checked] records whether the time stamp is non-zero. *)
Record RobotFileParser : Type := mkParser {
  entries : list Entry;
  default_entry : option Entry;
  disallow_all : bool;
  allow_all : bool;
  last_checked : bool;
}.

(** [RobotFileParser()] *)
Definition new_parser : RobotFileParser :=
  mkParser [] None false false false.

Definition set_disallow_all (v : bool) (rp : RobotFileParser)
  : RobotFileParser :=
  mkParser (entries rp) (default_entry rp) v (allow_all rp)
           (last_checked rp).

(** [RuleLine.applies_to] *)
Definition rule_applies_to (r : RuleLine) (filename : string) : bool :=
  String.eqb (rl_path r) "*" || Str.startswith (rl_path r) filename.

(** [Entry.applies_to] *)
Definition entry_applies_to `{!Externals} (e : Entry) (useragent : string)
  : bool :=
  let ua := str_lower (hd EmptyString (Str.split "/" useragent)) in
  (fix loop (agents : list string) : bool :=
     match agents with
     | [] => false
     | agent :: rest =>
         if String.eqb agent "*" then true
         else if Str.contains (str_lower agent) ua then true
         else loop rest
     end) (useragents e).

(** [Entry.allowance] *)
Definition entry_allowance (e : Entry) (filename : string) : bool :=
  (fix loop (lines : list RuleLine) : bool :=
     match lines with
     | [] => true
     | line :: rest =>
         if rule_applies_to line filename then rl_allowance line
         else loop rest
     end) (rulelines e).

Section WithExternals.
Context `{!Externals}.

(** [RobotFileParser.can_fetch] *)
Definition can_fetch (rp : RobotFileParser) (useragent url : string)
  : outcome bool :=
  if disallow_all rp then Return false
  else if allow_all rp then Return true
  else if negb (last_checked rp) then Return false
  else
    parsed_url ← urlparse (unquote url) EmptyString;
    let url :=
      urlunparse (mkParse EmptyString EmptyString (path parsed_url)
                    (params parsed_url) (query parsed_url)
                    (fragment parsed_url)) in
    let url := quote url "/" in
    let url := if Str.is_empty url then "/" else url in
    match List.find (fun e => entry_applies_to e useragent) (entries rp)
    with
    | Some e => Return (entry_allowance e url)
    | None =>
        match default_entry rp with
        | Some e => Return (entry_allowance e url)
        | None => Return true
        end
    end.

End WithExternals.

End Robotparser.

(** ** [scraper/crawler.py] *)

Module Crawler.
Import Urllib Utils Robotparser.

Record CrawlTask : Type := mkTask {
  url : string;
  depth : Z;
}.

(** What the program reads from an [httpx.Response]. *)
Record Response : Type := mkResponse {
  status_code : Z;
  content_type : option string;
  text : string;
  content_disposition : option string;
}.

(** The record appended to [data.jsonl].  The fields computed by the
    extraction collaborators for metadata, text, structured data and
    images are not represented. *)
Record PageRecord : Type := mkRecord {
  rec_url : string;
  rec_html_path : string;
  rec_links : list string;
  rec_pagination_next_links : list string;
}.

(** The arguments of [AsyncCrawler.__init__] that the crawl reads. *)
Record Config : Type := mkConfig {
  start_urls : list string;
  allowed_domains : list string;
  max_pages : Z;
  max_depth : Z;
  max_concurrency : Z;
  user_agent : string;
  robots : bool;
  render : string;
  per_host_limit : Z;
  delay_ms : Z;
}.

(** Functions of [extractors.py], [utils.py] and [robotparser] that rest
    on HTML parsing or regular expressions and are kept abstract. *)
Record Collaborators : Type := mkCollaborators {
  extract_links : string -> string -> outcome (list string);
  extract_pagination_next_links : string -> string -> outcome (list string);
  should_render_heuristic : string -> bool;
  (** the [entries] and [default_entry] that [RobotFileParser.parse]
      builds from the text of a robots document *)
  robots_entries : string -> list Entry * option Entry;
}.

(** Observable actions, recorded in issue order. *)
Inductive event : Type :=
  | Put (t : CrawlTask)
  | Get (u : string)
  | RobotsGet (u : string)
  | Render (u : string).

(** The mutable fields of [AsyncCrawler], the record log of the storage
    manager, and the history of actions. *)
Record State : Type := mkState {
  visited : gset string;
  enqueued : gset string;
  queue : list CrawlTask;
  pages_processed : Z;
  robots_parsers : gmap string RobotFileParser;
  global_permits : Z;
  host_permits : gmap string Z;
  records : list PageRecord;
  trace : list event;
}.

Definition set_visited (v : gset string) (s : State) : State :=
  mkState v (enqueued s) (queue s) (pages_processed s) (robots_parsers s)
          (global_permits s) (host_permits s) (records s) (trace s).
Definition set_enqueued (v : gset string) (s : State) : State :=
  mkState (visited s) v (queue s) (pages_processed s) (robots_parsers s)
          (global_permits s) (host_permits s) (records s) (trace s).
Definition set_queue (v : list CrawlTask) (s : State) : State :=
  mkState (visited s) (enqueued s) v (pages_processed s) (robots_parsers s)
          (global_permits s) (host_permits s) (records s) (trace s).
Definition set_pages_processed (v : Z) (s : State) : State :=
  mkState (visited s) (enqueued s) (queue s) v (robots_parsers s)
          (global_permits s) (host_permits s) (records s) (trace s).
Definition set_robots_parsers (v : gmap string RobotFileParser) (s : State)
  : State :=
  mkState (visited s) (enqueued s) (queue s) (pages_processed s) v
          (global_permits s) (host_permits s) (records s) (trace s).
Definition set_global_permits (v : Z) (s : State) : State :=
  mkState (visited s) (enqueued s) (queue s) (pages_processed s)
          (robots_parsers s) v (host_permits s) (records s) (trace s).
Definition set_host_permits (v : gmap string Z) (s : State) : State :=
  mkState (visited s) (enqueued s) (queue s) (pages_processed s)
          (robots_parsers s) (global_permits s) v (records s) (trace s).
Definition set_records (v : list PageRecord) (s : State) : State :=
  mkState (visited s) (enqueued s) (queue s) (pages_processed s)
          (robots_parsers s) (global_permits s) (host_permits s) v (trace s).
Definition log (e : event) (s : State) : State :=
  mkState (visited s) (enqueued s) (queue s) (pages_processed s)
          (robots_parsers s) (global_permits s) (host_permits s) (records s)
          (trace s ++ [e]).

(** [await self.queue.put(task)]: the queue is unbounded, so [put] never
    suspends. *)
Definition queue_put (t : CrawlTask) (s : State) : State :=
  log (Put t) (set_queue (queue s ++ [t]) s).

(** [AsyncCrawler.__init__] *)
Definition init_state (cfg : Config) : State :=
  mkState ∅ ∅ [] 0 ∅ (max_concurrency cfg) ∅ [] [].

(** [_fetch_http], given the outcome of [await self.client.get(url)] *)
Definition html_content_type (ct : string) : bool :=
  Str.contains "text/html" ct || Str.startswith "application/xhtml" ct.

Definition fetch_http (got : outcome Response)
  : outcome (option (string * option string)) :=
  match got with
  | Return r =>
      let ct := Str.lower (default EmptyString (content_type r)) in
      if (status_code r =? 200)%Z && html_content_type ct
      then Return (Some (text r, content_disposition r))
      else Return None
  | Raise e => if is_Exception e then Return None else Raise e
  end.

(** The points at which a worker is suspended. *)
Inductive phase : Type :=
  | Idle
  | AwaitRobots (t : CrawlTask) (base : string)
  | AwaitGlobal (t : CrawlTask)
  | AwaitHost (t : CrawlTask) (host : string)
  | AwaitIO (t : CrawlTask) (host : string)
  | Exited
  | Crashed (e : exn).

(** What the environment delivers when a suspended worker resumes. *)
Record Input : Type := mkInput {
  in_robots : outcome Response;
  in_http : outcome Response;
  in_render : outcome string;
  (** the locator returned by [save_html], or the first exception raised
      while the record's other fields are extracted and the document and
      images are saved *)
  in_saved : outcome string;
  in_appended : outcome unit;
}.

Section Operations.
Context `{!Externals} (C : Collaborators) (cfg : Config).

(** *** [_process_page]: the loop over [links + next_links]

    No statement of the loop body suspends, so one call of the loop is
    atomic.  The result tells whether the loop ended or raised. *)
Fixpoint enqueue_links (page_url : string) (hrefs : list string)
  (s : State) : State * outcome unit :=
  match hrefs with
  | [] => (s, Return ())
  | href :: rest =>
      match normalize_url page_url href with
      | Raise e => (s, Raise e)
      | Return None => enqueue_links page_url rest s
      | Return (Some norm) =>
          if Str.is_empty norm then enqueue_links page_url rest s
          else if bool_decide (norm ∈ enqueued s) ||
                  bool_decide (norm ∈ visited s)
          then enqueue_links page_url rest s
          else
            match is_allowed_domain norm (allowed_domains cfg) with
            | Raise e => (s, Raise e)
            | Return false => enqueue_links page_url rest s
            | Return true =>
                let s := queue_put (mkTask norm 1) s in
                let s := set_enqueued (enqueued s ∪ {[ norm ]}) s in
                enqueue_links page_url rest s
            end
      end
  end.

(** [_process_page], given what the storage manager answers *)
Definition process_page (page_url html : string) (inp : Input)
  (s : State) : State * outcome unit :=
  match extract_links C html page_url with
  | Raise e => (s, Raise e)
  | Return links =>
      match extract_pagination_next_links C html page_url with
      | Raise e => (s, Raise e)
      | Return next_links =>
          match in_saved inp with
          | Raise e => (s, Raise e)
          | Return html_path =>
              match in_appended inp with
              | Raise e => (s, Raise e)
              | Return _ =>
                  let record :=
                    mkRecord page_url html_path links next_links in
                  let s := set_records (records s ++ [record]) s in
                  enqueue_links page_url (links ++ next_links) s
              end
          end
      end
  end.

(** *** [_handle_task], cut at its suspension points *)

(** The two [release] calls of the [finally] block.  A semaphore is
    modelled by its counter; a worker waiting in [acquire] is a worker in
    the phase [AwaitGlobal] or [AwaitHost], which takes a permit in a step
    of its own once the counter is positive.  [asyncio.Semaphore.release]
    hands the permit to the first waiting worker at once and leaves the
    counter as it was; the model returns it to the counter.  The two agree
    when no worker waits for the semaphore; while one waits, the counter
    of the model is at least that of the program. *)
Definition release (host : string) (s : State) : State :=
  let s :=
    set_host_permits
      (<[host := (default 0%Z (host_permits s !! host) + 1)%Z]>
         (host_permits s)) s in
  set_global_permits (global_permits s + 1)%Z s.

(** From [await host_sem.acquire()] to the request of the page *)
Definition acquire_host (t : CrawlTask) (host : string) (s : State)
  : State * phase :=
  let value := default 0%Z (host_permits s !! host) in
  if (0 <? value)%Z then
    let s := set_host_permits (<[host := (value - 1)%Z]> (host_permits s)) s in
    (log (Get (url t)) s, AwaitIO t host)
  else (s, AwaitHost t host).

(** [_host_semaphore] *)
Definition host_semaphore (u : string) (s : State)
  : outcome (State * string) :=
  parsed ← urlparse u EmptyString;
  let host := netloc parsed in
  match host_permits s !! host with
  | Some _ => Return (s, host)
  | None =>
      Return (set_host_permits
                (<[host := per_host_limit cfg]> (host_permits s)) s, host)
  end.

(** From [await self._global_semaphore.acquire()] on *)
Definition acquire_global (t : CrawlTask) (s : State) : State * phase :=
  if (0 <? global_permits s)%Z then
    let s := set_global_permits (global_permits s - 1)%Z s in
    match host_semaphore (url t) s with
    | Raise e => (s, Crashed e)
    | Return (s, host) => acquire_host t host s
    end
  else (s, AwaitGlobal t).

(** After [_robots_allows] has answered [True] *)
Definition admitted (t : CrawlTask) (s : State) : State * phase :=
  let s := set_visited (visited s ∪ {[ url t ]}) s in
  acquire_global t s.

(** The last line of [_robots_allows] and the test of its result *)
Definition robots_verdict (t : CrawlTask) (rp : RobotFileParser)
  (s : State) : State * phase :=
  match can_fetch rp (user_agent cfg) (url t) with
  | Raise e => (s, Crashed e)
  | Return false => (s, Idle)
  | Return true => admitted t s
  end.

(** [rp.parse(r.text.splitlines())] *)
Definition parse (rp : RobotFileParser) (txt : string) : RobotFileParser :=
  let '(es, dflt) := robots_entries C txt in
  mkParser es dflt (disallow_all rp) (allow_all rp) true.

(** [_robots_allows] up to [await self.client.get(robots_url)] *)
Definition robots_allows (t : CrawlTask) (s : State) : State * phase :=
  if negb (robots cfg) then admitted t s
  else
    match urlparse (url t) EmptyString with
    | Raise e => (s, Crashed e)
    | Return parsed =>
        let base := scheme parsed +:+ "://" +:+ netloc parsed in
        match robots_parsers s !! base with
        | Some rp => robots_verdict t rp s
        | None =>
            (log (RobotsGet (base +:+ "/robots.txt")) s,
             AwaitRobots t base)
        end
    end.

(** The parser that [_robots_allows] caches, given the outcome of the
    request for the robots document; [None] when the exception is not
    caught. *)
Definition fetched_parser (got : outcome Response)
  : outcome RobotFileParser :=
  let rp := new_parser in
  match got with
  | Return r =>
      if (status_code r =? 200)%Z then Return (parse rp (text r))
      else Return (set_disallow_all false rp)
  | Raise e =>
      if is_Exception e then Return (set_disallow_all false rp)
      else Raise e
  end.

(** [_robots_allows] from the answer of the request on *)
Definition robots_reply (t : CrawlTask) (base : string)
  (got : outcome Response) (s : State) : State * phase :=
  match fetched_parser got with
  | Raise e => (s, Crashed e)
  | Return rp =>
      let s := set_robots_parsers (<[base := rp]> (robots_parsers s)) s in
      robots_verdict t rp s
  end.

(** [_handle_task] up to its first suspension *)
Definition handle_task (t : CrawlTask) (s : State) : State * phase :=
  if (max_pages cfg <=? pages_processed s)%Z then (s, Idle)
  else if bool_decide (url t ∈ visited s) then (s, Idle)
  else if (max_depth cfg <? depth t)%Z then (s, Idle)
  else
    match is_allowed_domain (url t) (allowed_domains cfg) with
    | Raise e => (s, Crashed e)
    | Return false => (s, Idle)
    | Return true => robots_allows t s
    end.

(** [not html] for an optional document *)
Definition no_html (html : option string) : bool :=
  match html with
  | Some h => Str.is_empty h
  | None => true
  end.

(** The render decision of [_handle_task] *)
Definition needs_render (html : option string) : bool :=
  if String.eqb (render cfg) "always" then true
  else if String.eqb (render cfg) "auto" then
    no_html html || should_render_heuristic C (default EmptyString html)
  else false.

(** [self.playwright is not None] *)
Definition has_playwright : bool := negb (String.eqb (render cfg) "never").

(** The rendering pass: a rendered document replaces the fetched one;
    an [Exception] of the renderer is swallowed. *)
Definition render_pass (t : CrawlTask) (inp : Input)
  (html : option string) (s : State) : State * outcome (option string) :=
  if needs_render html && has_playwright then
    (log (Render (url t)) s,
     match in_render inp with
     | Return rendered =>
         Return (if Str.is_empty rendered then html else Some rendered)
     | Raise e => if is_Exception e then Return html else Raise e
     end)
  else (s, Return html).

(** The body of the [try] of [_handle_task]: fetch, render decision,
    page processing, counter.  The content disposition only reaches the
    image downloads and is dropped. *)
Definition fetch_and_process (t : CrawlTask) (inp : Input) (s : State)
  : State * outcome unit :=
  match fetch_http (in_http inp) with
  | Raise e => (s, Raise e)
  | Return http_result =>
      let html := fst <$> http_result in
      match render_pass t inp html s with
      | (s, Raise e) => (s, Raise e)
      | (s, Return html) =>
          if no_html html then (s, Return ())
          else
            match process_page (url t) (default EmptyString html) inp s
            with
            | (s, Raise e) => (s, Raise e)
            | (s, Return _) =>
                (set_pages_processed (pages_processed s + 1)%Z s,
                 Return ())
            end
      end
  end.

(** The [try ... finally] of [_handle_task], from the answer of the
    page request on *)
Definition finish_io (t : CrawlTask) (host : string) (inp : Input)
  (s : State) : State * phase :=
  let '(s, r) := fetch_and_process t inp s in
  let s := release host s in
  match r with
  | Return _ => (s, Idle)
  | Raise e => (s, Crashed e)
  end.

(** *** [run]: seeding and the worker loop *)

Fixpoint run_seeds (urls : list string) (s : State) : State :=
  match urls with
  | [] => s
  | u :: rest =>
      let s := set_enqueued (enqueued s ∪ {[ u ]}) s in
      let s := queue_put (mkTask u 0) s in
      run_seeds rest s
  end.

Definition num_workers : nat :=
  Z.to_nat (Z.max 2 (Z.min 32 (max_concurrency cfg))).

(** One scheduling step of a worker: it runs from the point where it is
    suspended to its next suspension. *)
Definition worker_step (p : phase) (inp : Input) (s : State)
  : State * phase :=
  match p with
  | Idle =>
      if (pages_processed s <? max_pages cfg)%Z then
        match queue s with
        | t :: rest => handle_task t (set_queue rest s)
        | [] => (s, Idle)
        end
      else (s, Exited)
  | AwaitRobots t base => robots_reply t base (in_robots inp) s
  | AwaitGlobal t => acquire_global t s
  | AwaitHost t host => acquire_host t host s
  | AwaitIO t host => finish_io t host inp s
  | Exited => (s, Exited)
  | Crashed e => (s, Crashed e)
  end.

Definition System : Type := State * list phase.

Definition initial : System :=
  (run_seeds (start_urls cfg) (init_state cfg), replicate num_workers Idle).

Inductive step : System -> System -> Prop :=
  | step_worker (i : nat) (inp : Input) (s s' : State)
      (ws : list phase) (p p' : phase) :
      ws !! i = Some p ->
      worker_step p inp s = (s', p') ->
      step (s, ws) (s', <[i := p']> ws).

Definition reachable (sys : System) : Prop := rtc step initial sys.

End Operations.

(** *** [_download_image] *)

(** What [_download_image] reads from the answer to the request of an
    image *)
Record ImageResponse : Type := mkImage {
  img_status_code : Z;
  img_content : string;
  img_content_disposition : option string;
}.

(** [a or b] for two optional texts *)
Definition or_else (a b : option string) : option string :=
  match a with
  | Some x => if Str.is_empty x then b else a
  | None => b
  end.

(** [_download_image], given the outcome of the request and the outcome
    of [save_binary] *)
Definition download_image `{!Externals} (url : string)
  (content_disposition : option string) (got : outcome ImageResponse)
  (saved : outcome string) : outcome (option string) :=
  match got with
  | Return r =>
      if (img_status_code r =? 200)%Z && negb (Str.is_empty (img_content r))
      then
        match guess_filename_for_url url
                (or_else (img_content_disposition r) content_disposition)
        with
        | Return _ =>
            match saved with
            | Return saved_path => Return (Some saved_path)
            | Raise e => if is_Exception e then Return None else Raise e
            end
        | Raise e => if is_Exception e then Return None else Raise e
        end
      else Return None
  | Raise e => if is_Exception e then Return None else Raise e
  end.

End Crawler.

(** ** Definitions used to state the properties *)

Module Props.
Import Urllib Utils Robotparser Crawler.

(** An instance of [Externals] for evaluating the functions on concrete
    addresses.  The addresses and allowlists below are ASCII and their
    network locations have no brackets: no field is consulted for them. *)
Definition plain_externals : Externals :=
  {| ip_address_is_v6 := fun _ => false; nfkc_unsafe := fun _ => false;
     unicode_lower := fun s => s |}.

(** Collaborators of a site whose pages carry no links and whose robots
    documents carry no rules. *)
Definition bare_collaborators : Collaborators :=
  mkCollaborators (fun _ _ => Return []) (fun _ _ => Return [])
                  (fun _ => false) (fun _ => ([], None)).

(** The host of a network location as the specification's glossary uses
    the word (an origin is scheme + host + port): the text after the
    user information and before the port. *)
Definition host_of_netloc (nl : string) : string :=
  let hostinfo := after_last "@" nl in
  match Str.cut ":" hostinfo with
  | Some (h, _) => h
  | None => hostinfo
  end.

(** An allowlisted domain as [is_allowed_domain] reads it *)
Definition listed `{!Externals} (domain : string) : string :=
  Str.lstrip (Str.eqb_ascii ".") (str_lower domain).

(** The claim's words: the host equals an allowlisted domain or is a
    subdomain of one. *)
Definition host_allowed `{!Externals} (host : string)
  (allowed_domains : list string) : Prop :=
  ∃ domain, domain ∈ allowed_domains ∧
    (host = listed domain ∨ Str.endswith ("." +:+ listed domain) host = true).

(** The claim's words: an HTML content type.  The media type of a
    [Content-Type] value is the text before its parameters, without the
    blanks that end it, in lower case; an HTML document is served as
    [text/html] or as [application/xhtml+xml]. *)
Definition is_blank (c : ascii) : bool :=
  Str.eqb_ascii c " " || Str.eqb_ascii c "009".

Definition media_type (ct : string) : string :=
  let head :=
    match Str.cut ";" ct with
    | Some (h, _) => h
    | None => ct
    end in
  Str.lower (Str.rstrip is_blank head).

Definition html_media_type (ct : string) : bool :=
  String.eqb (media_type ct) "text/html" ||
  String.eqb (media_type ct) "application/xhtml+xml".

(** An answer with status 200 whose content type is not one of HTML and
    mentions [text/html] in a parameter *)
Definition json_profile : Response :=
  mkResponse 200 (Some "application/json; profile=text/html") "{}" None.

(** Tasks put on the queue, in order *)
Definition puts (tr : list event) : list CrawlTask :=
  omap (fun e => match e with Put t => Some t | _ => None end) tr.

(** Page requests issued, in order *)
Definition gets (tr : list event) : list string :=
  omap (fun e => match e with Get u => Some u | _ => None end) tr.

(** Workers that are inside [_handle_task] *)
Definition in_flight (p : phase) : bool :=
  match p with
  | AwaitRobots _ _ | AwaitGlobal _ | AwaitHost _ _ | AwaitIO _ _ => true
  | Idle | Exited | Crashed _ => false
  end.

Definition count_in_flight (ws : list phase) : Z :=
  Z.of_nat (length (filter (fun p => in_flight p = true) ws)).

(** An answer of the network: status 200, HTML content type *)
Definition html_page (body : string) : Response :=
  mkResponse 200 (Some "text/html; charset=utf-8") body None.

Definition not_found : Response :=
  mkResponse 404 (Some "text/html") "" None.

(** What the environment delivers in the example runs: every request is
    answered by an HTML page, storage succeeds. *)
Definition all_fine : Input :=
  mkInput (Return not_found) (Return (html_page "<html>page</html>"))
          (Return "") (Return "pages/x.html") (Return ()).

(** [s'] differs from [s] by actions other than [Put], and has the same
    set of enqueued addresses. *)
Definition quiet (s s' : State) : Prop :=
  enqueued s' = enqueued s ∧
  ∃ evs, trace s' = (trace s ++ evs)%list ∧ puts evs = [].

(** [s'] extends [s] by tasks of depth 1 for pairwise distinct addresses
    that were not enqueued in [s] and are enqueued in [s']. *)
Definition discovers (s s' : State) : Prop :=
  enqueued s ⊆ enqueued s' ∧
  ∃ evs, trace s' = (trace s ++ evs)%list ∧
         Forall (λ t, depth t = 1%Z) (puts evs) ∧
         NoDup (map url (puts evs)) ∧
         ∀ t, t ∈ puts evs → (url t ∉ enqueued s) ∧ (url t ∈ enqueued s').

(** The counter together with the workers inside [_handle_task] stays
    below the budget plus the number of workers. *)
Definition within_budget (cfg : Config) (sys : System) : Prop :=
  length sys.2 = num_workers cfg ∧
  (pages_processed sys.1 + count_in_flight sys.2
   ≤ Z.max 0 (max_pages cfg + Z.of_nat (num_workers cfg) - 1))%Z.

(** Running a schedule: worker [i] resumes with input [inp], for each
    pair [(i, inp)] in turn. *)
Definition exec_step `{!Externals} (C : Collaborators) (cfg : Config)
  (sys : System) (x : nat * Input) : System :=
  match sys.2 !! x.1 with
  | Some p =>
      let '(s', p') := worker_step C cfg p x.2 sys.1 in
      (s', <[x.1 := p']> sys.2)
  | None => sys
  end.

Definition exec `{!Externals} (C : Collaborators) (cfg : Config)
  (schedule : list (nat * Input)) : System :=
  fold_left (exec_step C cfg) schedule (initial cfg).

(** Two seeds on one host, a budget of one page, robots checks off. *)
Definition racing_config : Config :=
  mkConfig ["http://x.com/a"; "http://x.com/b"] [] 1 5 8 "SiteScraper/1.0"
           false "never" 4 0.

(** Workers 0 and 1 each take a seed and request it; then both answers
    arrive. *)
Definition racing_schedule : list (nat * Input) :=
  [(0, all_fine); (1, all_fine); (0, all_fine); (1, all_fine)].

(** The same seed given twice. *)
Definition twice_seeded : Config :=
  mkConfig ["http://x.com/"; "http://x.com/"] [] 200 5 8 "SiteScraper/1.0"
           true "never" 4 0.

(** One seed, robots checks on. *)
Definition polite_config : Config :=
  mkConfig ["http://x.com/public"] [] 200 5 8 "SiteScraper/1.0"
           true "never" 4 0.

Definition clean_char (c : ascii) : bool := negb (unsafe_url_byte c).

Definition clean (s : string) : Prop := Str.all clean_char s = true.

(** The text is empty or starts with a slash. *)
Definition rooted (s : string) : Prop := s = "" ∨ Str.startswith "/" s = true.

(** [path;params] as [urlunparse] writes them *)
Definition with_params (p a : string) : string :=
  if negb (Str.is_empty a) then p +:+ ";" +:+ a else p.

(** The characters that [quote_plus] writes *)
Definition quoted_char (c : ascii) : bool :=
  always_safe c || Str.eqb_ascii c "%" || Str.eqb_ascii c "+".

(** The result of decoding is fixed by the decoder. *)
Definition well_formed (x : string) : Prop := decode_replace x = x.

(** One field of an encoded query *)
Definition encode_pair (kv : string * string) : string :=
  quote_plus kv.1 +:+ "=" +:+ quote_plus kv.2.

(** The characters of an encoded query *)
Definition query_char (c : ascii) : bool :=
  quoted_char c || Str.eqb_ascii c "=" || Str.eqb_ascii c "&".

(** An address written from a scheme, a network location, a path and a
    query, as [urlunsplit] writes it *)
Definition address (s n pth q : string) : string :=
  s +:+ String ":" ("//" +:+ n +:+ pth +:+
                     (if Str.is_empty q then "" else String "?" q)).

(** The query that [strip_fragment_and_tracking] writes *)
Definition stripped_query (q : string) : string :=
  urlencode
    (filter (λ kv : string * string,
               negb (Str.inb (Str.lower kv.1) TRACKING_PARAMS))
            (parse_qsl q)).

(** Requests for robots documents, in order *)
Definition robots_gets (tr : list event) : list string :=
  omap (fun e => match e with RobotsGet u => Some u | _ => None end) tr.

(** Pages handed to the renderer, in order *)
Definition renders (tr : list event) : list string :=
  omap (fun e => match e with Render u => Some u | _ => None end) tr.

(** Workers that hold a permit of the global semaphore *)
Definition holds_global (p : phase) : bool :=
  match p with
  | AwaitHost _ _ | AwaitIO _ _ => true
  | _ => false
  end.

(** Workers that hold a permit of the semaphore of [host] *)
Definition holds_host (host : string) (p : phase) : bool :=
  match p with
  | AwaitIO _ h => String.eqb h host
  | _ => false
  end.

Definition count_phases (f : phase -> bool) (ws : list phase) : Z :=
  Z.of_nat (length (filter (fun p => f p = true) ws)).


(** Workers that wait for a permit of the semaphore of [host] *)
Definition waits_host (host : string) (p : phase) : bool :=
  match p with
  | AwaitHost _ h => String.eqb h host
  | _ => false
  end.

(** The task a worker is handling *)
Definition task_of (p : phase) : option CrawlTask :=
  match p with
  | AwaitRobots t _ | AwaitGlobal t | AwaitHost t _ | AwaitIO t _ => Some t
  | Idle | Exited | Crashed _ => None
  end.

(** The task of a worker that has passed the politeness gate and has not
    yet requested the page *)
Definition waiting_task (p : phase) : option CrawlTask :=
  match p with
  | AwaitGlobal t | AwaitHost t _ => Some t
  | _ => None
  end.

(** The address of the robots document that [_robots_allows] requests for
    a URL *)
Definition robots_url `{!Externals} (u : string) : outcome string :=
  parsed ← urlparse u EmptyString;
  let base := scheme parsed +:+ "://" +:+ netloc parsed in
  Return (base +:+ "/robots.txt").

(** What handling an answered page request may change, written for the
    page [u]: events other than requests are logged, [u] is the only page
    rendered, the tasks put are appended to the queue, records of [u] are
    appended, and the counter grows by at most the number of those
    records.  The visited set, the
    robots cache and the semaphores are left alone. *)
Definition page_effect (u : string) (s s' : State) : Prop :=
  visited s' = visited s ∧ robots_parsers s' = robots_parsers s ∧
  global_permits s' = global_permits s ∧ host_permits s' = host_permits s ∧
  ∃ evs recs,
    trace s' = (trace s ++ evs)%list ∧
    gets evs = [] ∧ robots_gets evs = [] ∧
    (∀ x, x ∈ renders evs → x = u) ∧
    queue s' = (queue s ++ puts evs)%list ∧
    records s' = (records s ++ recs)%list ∧
    Forall (λ r, rec_url r = u) recs ∧
    (pages_processed s ≤ pages_processed s'
     ≤ pages_processed s + Z.of_nat (length recs))%Z.

(** The permits of the semaphore of [host] that are taken; none when the
    semaphore has not been created. *)
Definition taken (cfg : Config) (host : string) (s : State) : Z :=
  match host_permits s !! host with
  | Some v => (per_host_limit cfg - v)%Z
  | None => 0%Z
  end.

(** The task of a worker that has marked its page visited *)
Definition admitted_task (p : phase) : option CrawlTask :=
  match p with
  | AwaitGlobal t | AwaitHost t _ | AwaitIO t _ => Some t
  | _ => None
  end.

(** Workers with a page request in flight *)
Definition requesting (p : phase) : bool :=
  match p with
  | AwaitIO _ _ => true
  | _ => false
  end.

(** A task that was put on the queue, is within the depth limit and
    passes the domain list *)
Definition legitimate `{!Externals} (cfg : Config) (s : State)
  (t : CrawlTask) : Prop :=
  t ∈ puts (trace s) ∧ (depth t ≤ max_depth cfg)%Z ∧
  is_allowed_domain (url t) (allowed_domains cfg) = Return true.

(** The queue and the workers hold tasks that were put; a worker past the
    gate has marked its page visited; every requested page is visited and
    is the page of a legitimate task; what was put is enqueued. *)
Definition tasks_coherent `{!Externals} (cfg : Config) (sys : System)
  : Prop :=
  (∀ t, t ∈ queue sys.1 → t ∈ puts (trace sys.1)) ∧
  (∀ p t, p ∈ sys.2 → task_of p = Some t → legitimate cfg sys.1 t) ∧
  (∀ p t, p ∈ sys.2 → admitted_task p = Some t → url t ∈ visited sys.1) ∧
  (∀ u, u ∈ gets (trace sys.1) →
        u ∈ visited sys.1 ∧ ∃ t, url t = u ∧ legitimate cfg sys.1 t) ∧
  (∀ t, t ∈ puts (trace sys.1) → url t ∈ enqueued sys.1) ∧
  visited sys.1 ⊆ enqueued sys.1.

(** Records, renderings and the counter follow the requests: a worker
    with a request in flight has its page among the requests, every record
    and every rendering is of a requested page, the counter is at most the
    number of records, and records and requests in flight together are at
    most the requests issued. *)
Definition records_coherent (sys : System) : Prop :=
  (∀ p t h, p ∈ sys.2 → p = AwaitIO t h → url t ∈ gets (trace sys.1)) ∧
  (∀ r, r ∈ records sys.1 → rec_url r ∈ gets (trace sys.1)) ∧
  (∀ u, u ∈ renders (trace sys.1) → u ∈ gets (trace sys.1)) ∧
  (0 ≤ pages_processed sys.1 ≤ Z.of_nat (length (records sys.1)))%Z ∧
  (Z.of_nat (length (records sys.1)) + count_phases requesting sys.2
   ≤ Z.of_nat (length (gets (trace sys.1))))%Z.

(** The pages of the workers that are past the gate and wait for a
    permit *)
Definition pending (ws : list phase) : list string :=
  omap (λ p, url <$> waiting_task p) ws.

(** [p] is at the request of a robots document. *)
Definition awaits_robots (p : phase) : bool :=
  match p with
  | AwaitRobots _ _ => true
  | _ => false
  end.

(** A robots document answered with status 200 *)
Definition robots_found (body : string) : Response :=
  mkResponse 200 (Some "text/plain") body None.

(** Every request is answered; the robots document is found and empty. *)
Definition robots_fine : Input :=
  mkInput (Return (robots_found "")) (Return (html_page "<html>page</html>"))
          (Return "") (Return "pages/x.html") (Return ()).

(** The robots document a worker is waiting for *)
Definition robots_doc (p : phase) : option string :=
  match p with
  | AwaitRobots _ base => Some (base +:+ "/robots.txt")
  | _ => None
  end.

(** The robots document of the page of [t] has been requested. *)
Definition asked `{!Externals} (s : State) (t : CrawlTask) : Prop :=
  ∃ r, robots_url (url t) = Return r ∧ r ∈ robots_gets (trace s).

(** In a trace, every page request comes after a request for the robots
    document of the page. *)
Definition robots_first `{!Externals} (tr : list event) : Prop :=
  ∀ pre u post, tr = (pre ++ Get u :: post)%list →
    ∃ r, robots_url u = Return r ∧ r ∈ robots_gets pre.

(** The robots document is not retrieved: the request is answered with a
    status other than 200 or raises an [Exception]. *)
Definition robots_unreachable (inp : Input) : Prop :=
  (∀ r, in_robots inp = Return r → status_code r ≠ 200%Z) ∧
  (∀ e, in_robots inp = Raise e → is_Exception e = true).

(** One seed whose address does not parse, one that does; one permit. *)
Definition leaking_config : Config :=
  mkConfig ["http://[x"; "http://x.com/"] [] 200 5 1 "SiteScraper/1.0"
           false "never" 4 0.

(** Pages with three links, the second of which cannot be parsed *)
Definition broken_collaborators : Collaborators :=
  mkCollaborators (fun _ _ => Return ["/first"; "http://[broken"; "/third"])
                  (fun _ _ => Return []) (fun _ => false)
                  (fun _ => ([], None)).

(** One seed, robots checks off. *)
Definition single_config : Config :=
  mkConfig ["http://x.com/a"] [] 200 5 8 "SiteScraper/1.0" false "never" 4 0.

(** Pages that link to a page of their own site and to a page of another
    site *)
Definition linking_collaborators : Collaborators :=
  mkCollaborators (fun _ _ => Return ["/next"; "http://other.org/x"])
                  (fun _ _ => Return []) (fun _ => false)
                  (fun _ => ([], None)).

(** The seed is taken and requested, then its answer is handled. *)
Definition one_page_schedule : list (nat * Input) :=
  [(0%nat, all_fine); (0%nat, all_fine)].

(** The configuration of [single_config] with an allowlist *)
Definition fenced_config : Config :=
  mkConfig ["http://x.com/a"] ["x.com"] 200 5 8 "SiteScraper/1.0" false
           "never" 4 0.

(** Every whitespace character of [s] is one space, and the next character
    is no whitespace. *)
Fixpoint single_spaced (s : string) : bool :=
  match s with
  | EmptyString => true
  | String a r =>
      match space_width s with
      | O => single_spaced r
      | S _ => Ascii.eqb a " " && (space_width r =? 0)%nat && single_spaced r
      end
  end.

(** The texts that [collapse_whitespace] leaves as they are. *)
Definition collapsed (s : string) : bool :=
  single_spaced s && negb (Str.startswith " " s) && negb (Str.endswith " " s).

End Props.

(** * Properties *)

Import Urllib Utils Storage Robotparser Crawler Props.
Open Scope list_scope.

(** ** The fetch step *)

(** [except Exception] lets a cancellation through. *)
Example fetch_http_cancelled :
  fetch_http (Raise CancelledError) = Raise CancelledError.
Proof. reflexivity. Qed.

Example fetch_http_not_found :
  fetch_http (Return not_found) = Return None.
Proof. reflexivity. Qed.

Example fetch_http_page :
  fetch_http (Return (html_page "<html>page</html>"))
  = Return (Some ("<html>page</html>", None)).
Proof. reflexivity. Qed.

(** ** The domain allowlist *)

Lemma domain_matches_spec {E : Externals} (nl : string)
  (allowed : list string) :
  domain_matches nl allowed = true ↔ host_allowed nl allowed.
Proof.
  unfold host_allowed. induction allowed as [|d rest IH]; simpl.
  - split; [discriminate|]. intros (d & Hd & _). inversion Hd.
  - fold (listed d).
    destruct (String.eqb_spec nl (listed d)) as [Heq|Hne]; simpl.
    + split; [|done]. intros _. exists d. split; [left|]. auto.
    + destruct (Str.endswith ("." +:+ listed d) nl) eqn:Hend.
      * split; [|done]. intros _. exists d. split; [left|]. auto.
      * rewrite IH. split.
        -- intros (d' & Hd' & Hm). exists d'. split; [right|]; done.
        -- intros (d' & Hd' & Hm).
           apply elem_of_cons in Hd' as [->|Hd'].
           ++ destruct Hm; congruence.
           ++ exists d'. done.
Qed.

(** C8, as the code has it.  With a non-empty allowlist, a URL that parses
    is accepted exactly when its lower-cased network location (the whole
    authority: user information, host and port) equals an allowlisted
    domain, or ends with a dot followed by one; the domain is lower-cased
    and loses its leading dots.  A URL that [urlparse] rejects is neither
    accepted nor rejected: the exception of the parser is raised.  The two
    example calls give [True] and [False]; letter case and a leading dot
    make no difference. *)
Theorem is_allowed_domain_by_netloc {E : Externals} :
  (∀ url allowed p,
     allowed ≠ [] → urlparse url EmptyString = Return p →
     ∃ b, is_allowed_domain url allowed = Return b ∧
          (b = true ↔ host_allowed (str_lower (netloc p)) allowed)) ∧
  (∀ url allowed e,
     allowed ≠ [] → urlparse url EmptyString = Raise e →
     is_allowed_domain url allowed = Raise e) ∧
  is_allowed_domain "http://sub.example.com/p" ["example.com"] = Return true ∧
  is_allowed_domain "http://evil.com/p" ["example.com"] = Return false ∧
  is_allowed_domain "http://SUB.Example.COM/p" [".EXAMPLE.com"]
  = Return true.
Proof.
  split; [|split; [|repeat split; vm_compute; reflexivity]].
  - intros url allowed p Hne Hp.
    destruct allowed as [|d rest]; [done|].
    unfold is_allowed_domain. rewrite Hp. cbn [mbind outcome_bind].
    eexists. split; [reflexivity|]. apply domain_matches_spec.
  - intros url allowed e Hne Hp.
    destruct allowed as [|d rest]; [done|].
    unfold is_allowed_domain. rewrite Hp. reflexivity.
Qed.

Lemma is_allowed_domain_by_netloc_witness :
  (∃ b, @is_allowed_domain plain_externals "http://example.com:8080/p"
          ["example.com"] = Return b ∧
        (b = true ↔
         @host_allowed plain_externals "example.com:8080" ["example.com"])) ∧
  @is_allowed_domain plain_externals "http://[x" ["example.com"]
  = Raise ValueError.
Proof.
  destruct (@is_allowed_domain_by_netloc plain_externals) as (H & Hraise & _).
  split.
  - apply (H "http://example.com:8080/p" ["example.com"]
             (mkParse "http" "example.com:8080" "/p" "" "" "")).
    + discriminate.
    + vm_compute. reflexivity.
  - apply (Hraise "http://[x" ["example.com"] ValueError).
    + discriminate.
    + vm_compute. reflexivity.
Defined.

(** The host of [http://example.com:8080/p] is the allowlisted domain
    [example.com], and the URL is rejected: the port is part of what the
    code compares. *)
Lemma listed_host_with_port_rejected :
  (p ← @urlparse plain_externals "http://example.com:8080/p" EmptyString;
   Return (host_of_netloc (netloc p))) = Return "example.com" ∧
  @host_allowed plain_externals "example.com" ["example.com"] ∧
  @is_allowed_domain plain_externals "http://example.com:8080/p"
    ["example.com"] = Return false.
Proof.
  split; [vm_compute; reflexivity|]. split; [|vm_compute; reflexivity].
  exists "example.com". split; [constructor|].
  left. vm_compute. reflexivity.
Qed.

(** ** URL normalization *)

(** C6. The reference [/b?utm_source=x#frag] is resolved against
    [http://x.com/a]; the fragment and the tracking parameter are removed. *)
Theorem normalize_url_example {E : Externals} :
  urljoin "http://x.com/a" "/b?utm_source=x#frag"
  = Return "http://x.com/b?utm_source=x#frag" ∧
  normalize_url "http://x.com/a" "/b?utm_source=x#frag"
  = Return (Some "http://x.com/b").
Proof. split; vm_compute; reflexivity. Qed.

(** ** The politeness gate *)

(** C1, evaluated.  When the robots document is answered with a status
    other than 200, or the request raises an [Exception], the parser that
    [_robots_allows] caches has [disallow_all = False], [allow_all = False]
    and a zero time stamp; [can_fetch] then answers [False] for every
    address, and the task at hand is dropped without being marked visited
    or requested. *)
Theorem unreachable_robots_blocks {E : Externals} (C : Collaborators)
  (got : outcome Response) :
  (∀ r, got = Return r → status_code r ≠ 200%Z) →
  (∀ e, got = Raise e → is_Exception e = true) →
  ∃ rp, fetched_parser C got = Return rp ∧
        (∀ useragent u, can_fetch rp useragent u = Return false) ∧
        ∀ cfg t base s,
          ∃ s', robots_reply C cfg t base got s = (s', Idle) ∧
                robots_parsers s' = <[base := rp]> (robots_parsers s) ∧
                visited s' = visited s ∧ trace s' = trace s.
Proof.
  intros Hs He. exists (set_disallow_all false new_parser).
  assert (fetched_parser C got = Return (set_disallow_all false new_parser))
    as Hrp.
  { destruct got as [r|e]; simpl.
    - destruct (Z.eqb_spec (status_code r) 200) as [H200|_]; [|reflexivity].
      exfalso. exact (Hs r eq_refl H200).
    - rewrite (He e eq_refl). reflexivity. }
  split; [exact Hrp|]. split; [reflexivity|].
  intros cfg t base s. unfold robots_reply. rewrite Hrp.
  eexists. split; [reflexivity|]. auto.
Qed.

Lemma unreachable_robots_blocks_witness :
  ∃ rp, fetched_parser bare_collaborators (Return not_found) = Return rp ∧
        (∀ useragent u,
           @can_fetch plain_externals rp useragent u = Return false) ∧
        ∀ cfg t base s,
          ∃ s', @robots_reply plain_externals bare_collaborators cfg t base
                  (Return not_found) s = (s', Idle) ∧
                robots_parsers s' = <[base := rp]> (robots_parsers s) ∧
                visited s' = visited s ∧ trace s' = trace s.
Proof.
  apply (@unreachable_robots_blocks plain_externals bare_collaborators
           (Return not_found)).
  - intros r [= <-]. simpl. lia.
  - intros e [=].
Defined.

(** Had the failure branches set [allow_all], the gate would be open. *)
Example allow_all_opens_the_gate {E : Externals} (useragent u : string) :
  can_fetch (mkParser [] None false true false) useragent u = Return true.
Proof. reflexivity. Qed.

(** ** Handling one task *)

(** C4. A task deeper than [max_depth] is discarded by [_handle_task]: the
    crawler state is unchanged (nothing is marked visited, requested,
    recorded or counted) and the worker is back at its loop. *)
Theorem too_deep_task_is_discarded {E : Externals} (cfg : Config)
  (t : CrawlTask) (s : State) :
  (max_depth cfg < depth t)%Z →
  handle_task cfg t s = (s, Idle).
Proof.
  intros Hd. unfold handle_task.
  destruct (max_pages cfg <=? pages_processed s)%Z; [reflexivity|].
  destruct (bool_decide (url t ∈ visited s)); [reflexivity|].
  apply Z.ltb_lt in Hd. rewrite Hd. reflexivity.
Qed.

Lemma too_deep_task_is_discarded_witness :
  @handle_task plain_externals racing_config
    (mkTask "http://x.com/deep" 6) (init_state racing_config)
  = (init_state racing_config, Idle).
Proof.
  apply (@too_deep_task_is_discarded plain_externals racing_config).
  simpl. lia.
Defined.

(** ** Puts on the queue *)

Ltac split_cases :=
  repeat match goal with
         | H : context [match ?x with _ => _ end] |- _ =>
             destruct x eqn:?; simpl in H
         | H : (_, _) = (_, _) |- _ => inversion H; subst; clear H
         end.

Ltac quiet_now :=
  split; [reflexivity|]; simpl; rewrite <- ?app_assoc;
  first [ eexists; split; [reflexivity|reflexivity]
        | exists []; rewrite app_nil_r; split; reflexivity ].

Lemma puts_app (a b : list event) : puts (a ++ b) = puts a ++ puts b.
Proof. unfold puts. apply omap_app. Qed.

Lemma quiet_refl (s : State) : quiet s s.
Proof. split; [reflexivity|]. exists []. rewrite app_nil_r. auto. Qed.

Lemma quiet_trans (s1 s2 s3 : State) : quiet s1 s2 → quiet s2 s3 → quiet s1 s3.
Proof.
  intros [He1 (e1 & Ht1 & Hp1)] [He2 (e2 & Ht2 & Hp2)]. split; [congruence|].
  exists (e1 ++ e2). rewrite Ht2, Ht1, <- app_assoc, puts_app, Hp1, Hp2. auto.
Qed.

Lemma quiet_discovers (s s' : State) : quiet s s' → discovers s s'.
Proof.
  intros [He (evs & Ht & Hp)]. split; [rewrite He; reflexivity|].
  exists evs. rewrite Hp. split; [exact Ht|]. split; [constructor|].
  split; [constructor|]. intros t Ht'. inversion Ht'.
Qed.

Lemma discovers_refl (s : State) : discovers s s.
Proof. apply quiet_discovers, quiet_refl. Qed.

Lemma discovers_trans (s1 s2 s3 : State) :
  discovers s1 s2 → discovers s2 s3 → discovers s1 s3.
Proof.
  intros [He1 (e1 & Ht1 & Hd1 & Hn1 & Hf1)] [He2 (e2 & Ht2 & Hd2 & Hn2 & Hf2)].
  split; [etrans; eassumption|].
  exists (e1 ++ e2). rewrite Ht2, Ht1, <- app_assoc, puts_app.
  split; [reflexivity|]. split; [apply Forall_app; auto|]. split.
  - rewrite map_app. apply NoDup_app. split; [exact Hn1|]. split; [|exact Hn2].
    intros u Hu1 Hu2.
    apply list_elem_of_fmap in Hu1 as (t1 & -> & Ht1').
    apply list_elem_of_fmap in Hu2 as (t2 & Heq & Ht2').
    destruct (Hf1 t1 Ht1') as [_ Hin]. destruct (Hf2 t2 Ht2') as [Hnot _].
    rewrite <- Heq in Hnot. contradiction.
  - intros t Ht. apply elem_of_app in Ht as [Ht|Ht].
    + destruct (Hf1 t Ht) as [Hout Hin]. split; [assumption|].
      apply He2, Hin.
    + destruct (Hf2 t Ht) as [Hout Hin]. split; [|assumption].
      intros Hold. apply Hout, He1, Hold.
Qed.

Section Discovery.
Context {E : Externals} (C : Collaborators) (cfg : Config).

Lemma enqueue_links_discovers (page_url : string) (hrefs : list string)
  (s s' : State) (r : outcome unit) :
  enqueue_links cfg page_url hrefs s = (s', r) → discovers s s'.
Proof.
  revert s. induction hrefs as [|href rest IH]; intros s; simpl.
  - intros [= <- _]. apply discovers_refl.
  - destruct (normalize_url page_url href) as [[norm|]|e];
      [|apply IH|intros [= <- _]; apply discovers_refl].
    destruct (Str.is_empty norm); [apply IH|].
    destruct (bool_decide (norm ∈ enqueued s)) eqn:Henq; [apply IH|].
    destruct (bool_decide (norm ∈ visited s)); [apply IH|]. simpl.
    destruct (is_allowed_domain norm (allowed_domains cfg)) as [[]|e];
      [|apply IH|intros [= <- _]; apply discovers_refl].
    intros H. apply IH in H.
    eapply discovers_trans; [|exact H].
    apply bool_decide_eq_false in Henq.
    split; [simpl; set_solver|].
    exists [Put (mkTask norm 1)]. simpl.
    split; [reflexivity|]. split; [repeat constructor|].
    split; [repeat constructor; set_solver|].
    intros t Ht. apply list_elem_of_singleton in Ht as ->. simpl.
    split; [assumption|set_solver].
Qed.

Lemma process_page_discovers (page_url html : string) (inp : Input)
  (s s' : State) (r : outcome unit) :
  process_page C cfg page_url html inp s = (s', r) → discovers s s'.
Proof.
  unfold process_page.
  destruct (extract_links C html page_url) as [links|e];
    [|intros [= <- _]; apply discovers_refl].
  destruct (extract_pagination_next_links C html page_url) as [next|e];
    [|intros [= <- _]; apply discovers_refl].
  destruct (in_saved inp) as [html_path|e];
    [|intros [= <- _]; apply discovers_refl].
  destruct (in_appended inp) as [[]|e];
    [|intros [= <- _]; apply discovers_refl].
  intros H. apply enqueue_links_discovers in H.
  eapply discovers_trans; [|exact H]. apply quiet_discovers. quiet_now.
Qed.

Lemma render_pass_quiet (t : CrawlTask) (inp : Input) (html : option string)
  (s s' : State) (r : outcome (option string)) :
  render_pass C cfg t inp html s = (s', r) → quiet s s'.
Proof.
  unfold render_pass.
  destruct (needs_render C cfg html && has_playwright cfg);
    intros [= <- _]; quiet_now.
Qed.

Lemma fetch_and_process_discovers (t : CrawlTask) (inp : Input)
  (s s' : State) (r : outcome unit) :
  fetch_and_process C cfg t inp s = (s', r) → discovers s s'.
Proof.
  unfold fetch_and_process.
  destruct (fetch_http (in_http inp)) as [http_result|e];
    [|intros [= <- _]; apply discovers_refl].
  destruct (render_pass C cfg t inp (fst <$> http_result) s)
    as [s1 [html|e]] eqn:Hr; apply render_pass_quiet, quiet_discovers in Hr;
    [|intros [= <- _]; exact Hr].
  destruct (no_html html); [intros [= <- _]; exact Hr|].
  destruct (process_page C cfg (url t) (default "" html) inp s1)
    as [s2 [[]|e]] eqn:Hp; apply process_page_discovers in Hp;
    intros [= <- _].
  - eapply discovers_trans; [exact Hr|].
    eapply discovers_trans; [exact Hp|]. apply quiet_discovers. quiet_now.
  - eapply discovers_trans; eassumption.
Qed.

Lemma release_quiet (host : string) (s : State) : quiet s (release host s).
Proof. quiet_now. Qed.

Lemma finish_io_discovers (t : CrawlTask) (host : string) (inp : Input)
  (s s' : State) (p' : phase) :
  finish_io C cfg t host inp s = (s', p') → discovers s s'.
Proof.
  unfold finish_io.
  destruct (fetch_and_process C cfg t inp s) as [s1 r] eqn:Hf.
  apply fetch_and_process_discovers in Hf.
  intros H.
  assert (s' = release host s1) as -> by (destruct r; inversion H; auto).
  eapply discovers_trans; [exact Hf|]. apply quiet_discovers, release_quiet.
Qed.

Lemma acquire_host_quiet (t : CrawlTask) (host : string) (s s' : State)
  (p' : phase) :
  acquire_host t host s = (s', p') → quiet s s'.
Proof.
  unfold acquire_host.
  destruct (0 <? default 0 (host_permits s !! host))%Z;
    intros [= <- _]; quiet_now.
Qed.

Lemma acquire_global_quiet (t : CrawlTask) (s s' : State) (p' : phase) :
  acquire_global cfg t s = (s', p') → quiet s s'.
Proof.
  unfold acquire_global, host_semaphore.
  destruct (0 <? global_permits s)%Z; [|intros [= <- _]; quiet_now].
  destruct (urlparse (url t) "") as [parsed|e]; simpl;
    [|intros [= <- _]; quiet_now].
  destruct (host_permits _ !! netloc parsed); simpl; intros H;
    apply acquire_host_quiet in H;
    (eapply quiet_trans; [|exact H]); quiet_now.
Qed.

Lemma admitted_quiet (t : CrawlTask) (s s' : State) (p' : phase) :
  admitted cfg t s = (s', p') → quiet s s'.
Proof.
  unfold admitted. intros H. apply acquire_global_quiet in H.
  eapply quiet_trans; [|exact H]. quiet_now.
Qed.

Lemma robots_verdict_quiet (t : CrawlTask) (rp : RobotFileParser)
  (s s' : State) (p' : phase) :
  robots_verdict cfg t rp s = (s', p') → quiet s s'.
Proof.
  unfold robots_verdict.
  destruct (can_fetch rp (user_agent cfg) (url t)) as [[]|e];
    try (intros [= <- _]; quiet_now).
  apply admitted_quiet.
Qed.

Lemma robots_allows_quiet (t : CrawlTask) (s s' : State) (p' : phase) :
  robots_allows cfg t s = (s', p') → quiet s s'.
Proof.
  unfold robots_allows.
  destruct (robots cfg); simpl; [|apply admitted_quiet].
  destruct (urlparse (url t) "") as [parsed|e];
    [|intros [= <- _]; quiet_now].
  destruct (robots_parsers s !! _) as [rp|].
  - apply robots_verdict_quiet.
  - intros [= <- _]. quiet_now.
Qed.

Lemma robots_reply_quiet (t : CrawlTask) (base : string)
  (got : outcome Response) (s s' : State) (p' : phase) :
  robots_reply C cfg t base got s = (s', p') → quiet s s'.
Proof.
  unfold robots_reply.
  destruct (fetched_parser C got) as [rp|e]; [|intros [= <- _]; quiet_now].
  intros H. apply robots_verdict_quiet in H.
  eapply quiet_trans; [|exact H]. quiet_now.
Qed.

Lemma handle_task_quiet (t : CrawlTask) (s s' : State) (p' : phase) :
  handle_task cfg t s = (s', p') → quiet s s'.
Proof.
  unfold handle_task.
  destruct (max_pages cfg <=? pages_processed s)%Z;
    [intros [= <- _]; quiet_now|].
  destruct (bool_decide (url t ∈ visited s));
    [intros [= <- _]; quiet_now|].
  destruct (max_depth cfg <? depth t)%Z; [intros [= <- _]; quiet_now|].
  destruct (is_allowed_domain (url t) (allowed_domains cfg)) as [[]|e];
    try (intros [= <- _]; quiet_now).
  apply robots_allows_quiet.
Qed.

Lemma worker_step_discovers (p p' : phase) (inp : Input) (s s' : State) :
  worker_step C cfg p inp s = (s', p') → discovers s s'.
Proof.
  destruct p as [|t base|t|t host|t host| |e]; simpl.
  - destruct (pages_processed s <? max_pages cfg)%Z;
      [|intros [= <- _]; apply discovers_refl].
    destruct (queue s) as [|t rest]; [intros [= <- _]; apply discovers_refl|].
    intros H. apply handle_task_quiet in H. apply quiet_discovers.
    eapply quiet_trans; [|exact H]. quiet_now.
  - intros H. apply robots_reply_quiet in H. apply quiet_discovers, H.
  - intros H. apply acquire_global_quiet in H. apply quiet_discovers, H.
  - intros H. apply acquire_host_quiet in H. apply quiet_discovers, H.
  - apply finish_io_discovers.
  - intros [= <- _]. apply discovers_refl.
  - intros [= <- _]. apply discovers_refl.
Qed.

Lemma run_seeds_trace (urls : list string) (s : State) :
  trace (run_seeds urls s)
  = trace s ++ map (λ u, Put (mkTask u 0)) urls.
Proof.
  revert s. induction urls as [|u rest IH]; intros s; simpl.
  - rewrite app_nil_r. reflexivity.
  - rewrite IH. simpl. rewrite <- app_assoc. reflexivity.
Qed.

Lemma run_seeds_enqueued (urls : list string) (s : State) (u : string) :
  u ∈ enqueued (run_seeds urls s) ↔ u ∈ enqueued s ∨ u ∈ urls.
Proof.
  revert s. induction urls as [|v rest IH]; intros s; simpl.
  - split; [auto|]. intros [H|H]; [exact H|inversion H].
  - rewrite IH. simpl. rewrite elem_of_union, elem_of_singleton, elem_of_cons.
    tauto.
Qed.

Lemma puts_seeds (urls : list string) :
  puts (map (λ u, Put (mkTask u 0)) urls) = map (λ u, mkTask u 0) urls.
Proof. induction urls as [|u rest IH]; simpl; [|rewrite IH]; reflexivity. Qed.

(** Induction over the reachable states *)
Lemma reachable_ind (P : System → Prop) :
  P (initial cfg) →
  (∀ sys sys', reachable C cfg sys → P sys → step C cfg sys sys' → P sys') →
  ∀ sys, reachable C cfg sys → P sys.
Proof.
  intros Hinit Hstep sys Hr. unfold reachable in *.
  apply rtc_nsteps in Hr as [n Hn].
  revert sys Hn. induction n as [|n IH]; intros sys Hn.
  - inversion Hn; subst. exact Hinit.
  - apply nsteps_inv_r in Hn as (mid & Hmid & Hs).
    eapply Hstep; [|apply IH|]; [eapply rtc_nsteps; eauto|..]; eassumption.
Qed.

(** The page processor keeps the queue free of duplicates: when the seeds
    are pairwise distinct, no address is put on the queue twice, and
    every address put is in the enqueued set. *)
Lemma distinct_seeds_enqueued_once (sys : System) :
  NoDup (start_urls cfg) →
  reachable C cfg sys →
  NoDup (map url (puts (trace sys.1))) ∧
  ∀ t, t ∈ puts (trace sys.1) → url t ∈ enqueued sys.1.
Proof.
  intros Hnd. revert sys. apply reachable_ind.
  - simpl. rewrite run_seeds_trace. simpl. rewrite puts_seeds. split.
    + rewrite map_map. simpl. rewrite map_id. exact Hnd.
    + intros t Ht. apply list_elem_of_fmap in Ht as (u & -> & Hu). simpl.
      apply run_seeds_enqueued. right. exact Hu.
  - intros sys sys' _ [Hn Hin] Hs.
    destruct Hs as [i inp s s' ws p p' Hi Hw]. simpl in *.
    apply worker_step_discovers in Hw as [Hsub (evs & Ht & _ & Hnd' & Hf)].
    rewrite Ht, puts_app, map_app. split.
    + apply NoDup_app. split; [exact Hn|]. split; [|exact Hnd'].
      intros u Hu1 Hu2.
      apply list_elem_of_fmap in Hu1 as (t1 & -> & Ht1).
      apply list_elem_of_fmap in Hu2 as (t2 & Heq & Ht2).
      destruct (Hf t2 Ht2) as [Hout _]. apply Hout. rewrite <- Heq.
      apply Hin, Ht1.
    + intros t Ht'. apply elem_of_app in Ht' as [Ht'|Ht'].
      * apply Hsub, Hin, Ht'.
      * apply (Hf t Ht').
Qed.
End Discovery.

(** C2, evaluated.  [run] puts every element of [start_urls] on the queue
    without testing the enqueued set: a seed given twice is put twice. *)
Theorem duplicate_seed_is_put_twice :
  puts (trace (initial twice_seeded).1)
  = [mkTask "http://x.com/" 0; mkTask "http://x.com/" 0].
Proof. reflexivity. Qed.

(** ** The page budget *)

Section Budget.
Context {E : Externals} (C : Collaborators) (cfg : Config).

Lemma enqueue_links_pages (page_url : string) (hrefs : list string)
  (s s' : State) (r : outcome unit) :
  enqueue_links cfg page_url hrefs s = (s', r) →
  pages_processed s' = pages_processed s.
Proof.
  revert s. induction hrefs as [|href rest IH]; intros s; simpl.
  - intros [= <- _]. reflexivity.
  - intros H. split_cases; try reflexivity;
      try (apply IH in H; exact H).
Qed.

Lemma process_page_pages (page_url html : string) (inp : Input)
  (s s' : State) (r : outcome unit) :
  process_page C cfg page_url html inp s = (s', r) →
  pages_processed s' = pages_processed s.
Proof.
  unfold process_page. intros H. split_cases; try reflexivity.
  apply enqueue_links_pages in H. exact H.
Qed.

Lemma render_pass_pages (t : CrawlTask) (inp : Input) (html : option string)
  (s s' : State) (r : outcome (option string)) :
  render_pass C cfg t inp html s = (s', r) →
  pages_processed s' = pages_processed s.
Proof.
  unfold render_pass.
  destruct (needs_render C cfg html && has_playwright cfg);
    intros [= <- _]; reflexivity.
Qed.

Lemma fetch_and_process_pages (t : CrawlTask) (inp : Input)
  (s s' : State) (r : outcome unit) :
  fetch_and_process C cfg t inp s = (s', r) →
  pages_processed s' = pages_processed s ∨
  pages_processed s' = (pages_processed s + 1)%Z.
Proof.
  unfold fetch_and_process.
  destruct (fetch_http (in_http inp)) as [http_result|e];
    [|intros [= <- _]; auto].
  destruct (render_pass C cfg t inp (fst <$> http_result) s)
    as [s1 [html|e]] eqn:Hr; apply render_pass_pages in Hr;
    [|intros [= <- _]; auto].
  destruct (no_html html); [intros [= <- _]; auto|].
  destruct (process_page C cfg (url t) (default "" html) inp s1)
    as [s2 [[]|e]] eqn:Hp; apply process_page_pages in Hp;
    intros [= <- _]; simpl; [right|left]; congruence.
Qed.

Lemma finish_io_pages (t : CrawlTask) (host : string) (inp : Input)
  (s s' : State) (p' : phase) :
  finish_io C cfg t host inp s = (s', p') →
  in_flight p' = false ∧
  (pages_processed s' = pages_processed s ∨
   pages_processed s' = (pages_processed s + 1)%Z).
Proof.
  unfold finish_io. intros H.
  destruct (fetch_and_process C cfg t inp s) as [s1 r] eqn:Hf.
  apply fetch_and_process_pages in Hf.
  destruct r; inversion H; subst; simpl; auto.
Qed.

Lemma acquire_host_pages (t : CrawlTask) (host : string) (s s' : State)
  (p' : phase) :
  acquire_host t host s = (s', p') →
  in_flight p' = true ∧ pages_processed s' = pages_processed s.
Proof. unfold acquire_host. intros H. split_cases; auto. Qed.

Lemma acquire_global_pages (t : CrawlTask) (s s' : State) (p' : phase) :
  acquire_global cfg t s = (s', p') →
  pages_processed s' = pages_processed s.
Proof.
  unfold acquire_global, host_semaphore. intros H.
  destruct (0 <? global_permits s)%Z; [|inversion H; subst; auto].
  destruct (urlparse (url t) "") as [parsed|e]; simpl in H;
    [|inversion H; subst; auto].
  destruct (host_permits _ !! netloc parsed); simpl in H;
    apply acquire_host_pages in H as [_ H]; simpl in H; auto.
Qed.

Lemma admitted_pages (t : CrawlTask) (s s' : State) (p' : phase) :
  admitted cfg t s = (s', p') → pages_processed s' = pages_processed s.
Proof. unfold admitted. intros H. apply acquire_global_pages in H. exact H. Qed.

Lemma robots_verdict_pages (t : CrawlTask) (rp : RobotFileParser)
  (s s' : State) (p' : phase) :
  robots_verdict cfg t rp s = (s', p') →
  pages_processed s' = pages_processed s.
Proof.
  unfold robots_verdict. intros H.
  destruct (can_fetch rp (user_agent cfg) (url t)) as [[]|e];
    try (inversion H; subst; reflexivity).
  apply admitted_pages in H. exact H.
Qed.

Lemma robots_allows_pages (t : CrawlTask) (s s' : State) (p' : phase) :
  robots_allows cfg t s = (s', p') →
  pages_processed s' = pages_processed s.
Proof.
  unfold robots_allows. intros H.
  destruct (robots cfg); simpl in H; [|apply admitted_pages in H; exact H].
  destruct (urlparse (url t) "") as [parsed|e];
    [|inversion H; subst; reflexivity].
  destruct (robots_parsers s !! _) as [rp|].
  - apply robots_verdict_pages in H. exact H.
  - inversion H; subst; reflexivity.
Qed.

Lemma robots_reply_pages (t : CrawlTask) (base : string)
  (got : outcome Response) (s s' : State) (p' : phase) :
  robots_reply C cfg t base got s = (s', p') →
  pages_processed s' = pages_processed s.
Proof.
  unfold robots_reply. intros H.
  destruct (fetched_parser C got) as [rp|e];
    [|inversion H; subst; reflexivity].
  apply robots_verdict_pages in H. exact H.
Qed.

Lemma handle_task_pages (t : CrawlTask) (s s' : State) (p' : phase) :
  handle_task cfg t s = (s', p') →
  pages_processed s' = pages_processed s.
Proof.
  unfold handle_task. intros H.
  destruct (max_pages cfg <=? pages_processed s)%Z;
    [inversion H; subst; reflexivity|].
  destruct (bool_decide (url t ∈ visited s));
    [inversion H; subst; reflexivity|].
  destruct (max_depth cfg <? depth t)%Z;
    [inversion H; subst; reflexivity|].
  destruct (is_allowed_domain (url t) (allowed_domains cfg)) as [[]|e];
    try (inversion H; subst; reflexivity).
  apply robots_allows_pages in H. exact H.
Qed.

(** A step either lets a worker enter [_handle_task] while the budget is
    not exhausted, or does not increase the sum of the counter and the
    worker's being in flight. *)
Lemma worker_step_budget (p p' : phase) (inp : Input) (s s' : State) :
  worker_step C cfg p inp s = (s', p') →
  (in_flight p = false ∧ in_flight p' = true ∧
   pages_processed s' = pages_processed s ∧
   (pages_processed s < max_pages cfg)%Z) ∨
  (Z.b2z (in_flight p') + pages_processed s'
   ≤ Z.b2z (in_flight p) + pages_processed s)%Z.
Proof.
  destruct p as [|t base|t|t host|t host| |e]; simpl; intros H.
  - destruct (Z.ltb_spec (pages_processed s) (max_pages cfg)) as [Hlt|Hge].
    + destruct (queue s) as [|t rest]; [inversion H; subst; right; simpl; lia|].
      apply handle_task_pages in H. simpl in H.
      destruct (in_flight p') eqn:Hp'; [left; auto|right; simpl; lia].
    + inversion H; subst. right. simpl. lia.
  - apply robots_reply_pages in H. right.
    destruct (in_flight p'); simpl; lia.
  - apply acquire_global_pages in H. right.
    destruct (in_flight p'); simpl; lia.
  - apply acquire_host_pages in H as [_ H]. right.
    destruct (in_flight p'); simpl; lia.
  - apply finish_io_pages in H as [-> H]. right. simpl. lia.
  - inversion H; subst. right. simpl. lia.
  - inversion H; subst. right. simpl. lia.
Qed.

Lemma count_in_flight_insert (ws : list phase) (i : nat) (p p' : phase) :
  ws !! i = Some p →
  count_in_flight (<[i := p']> ws)
  = (count_in_flight ws - Z.b2z (in_flight p) + Z.b2z (in_flight p'))%Z.
Proof.
  unfold count_in_flight. revert i.
  induction ws as [|w ws IH]; intros [|i] Hi; simpl in *; try discriminate.
  - inversion Hi; subst. rewrite !filter_cons.
    destruct (in_flight p), (in_flight p'); simpl;
      repeat case_decide; try congruence; simpl; lia.
  - specialize (IH i Hi). rewrite !filter_cons.
    case_decide; simpl; lia.
Qed.

Lemma count_in_flight_bound (ws : list phase) :
  (0 ≤ count_in_flight ws ≤ Z.of_nat (length ws))%Z.
Proof.
  unfold count_in_flight. pose proof (length_filter (λ p, in_flight p = true) ws).
  lia.
Qed.

Lemma count_in_flight_room (ws : list phase) (i : nat) (p : phase) :
  ws !! i = Some p → in_flight p = false →
  (count_in_flight ws + 1 ≤ Z.of_nat (length ws))%Z.
Proof.
  unfold count_in_flight. revert i.
  induction ws as [|w ws IH]; intros [|i] Hi Hp; simpl in *; try discriminate.
  - inversion Hi; subst. rewrite filter_cons.
    case_decide; [congruence|].
    pose proof (length_filter (λ p, in_flight p = true) ws). lia.
  - specialize (IH i Hi Hp). rewrite filter_cons.
    case_decide; simpl; lia.
Qed.

Lemma run_seeds_pages (urls : list string) (s : State) :
  pages_processed (run_seeds urls s) = pages_processed s.
Proof.
  revert s. induction urls as [|u rest IH]; intros s; simpl; [reflexivity|].
  rewrite IH. reflexivity.
Qed.

Lemma within_budget_initial : within_budget cfg (initial cfg).
Proof.
  unfold within_budget, initial. simpl. rewrite length_replicate.
  split; [reflexivity|]. rewrite run_seeds_pages. simpl.
  assert (count_in_flight (replicate (num_workers cfg) Idle) = 0%Z) as ->.
  { unfold count_in_flight. induction (num_workers cfg); simpl; [reflexivity|].
    rewrite filter_cons. case_decide; [discriminate|]. assumption. }
  lia.
Qed.

Lemma within_budget_step (sys sys' : System) :
  within_budget cfg sys → step C cfg sys sys' → within_budget cfg sys'.
Proof.
  intros [Hlen Hb] Hstep. destruct Hstep as [i inp s s' ws p p' Hi Hw].
  simpl in *. split; simpl.
  - rewrite length_insert. exact Hlen.
  - rewrite (count_in_flight_insert ws i p p' Hi).
    pose proof (count_in_flight_bound ws) as Hc.
    apply worker_step_budget in Hw as [(Hp & Hp' & Heq & Hlt)|Hle].
    + pose proof (count_in_flight_room ws i p Hi Hp).
      rewrite Hp, Hp', Heq. simpl. lia.
    + lia.
Qed.

Lemma within_budget_reachable (sys : System) :
  reachable C cfg sys → within_budget cfg sys.
Proof.
  revert sys. apply reachable_ind; [apply within_budget_initial|].
  intros sys sys' _ Hb Hs. eapply within_budget_step; eassumption.
Qed.

(** C3, as the code has it.  In every reachable state the counter is at
    most [max_pages + workers - 1] (and at most 0 when that is negative),
    where [workers = max(2, min(32, max_concurrency))]: a worker tests the
    budget when it enters [_handle_task] and counts the page only after
    its requests have been answered.  A task whose handling begins when
    the counter has reached [max_pages] is discarded with the state
    unchanged. *)
Theorem budget_overshoot_is_bounded (sys : System) :
  reachable C cfg sys →
  (pages_processed sys.1
   ≤ Z.max 0 (max_pages cfg + Z.of_nat (num_workers cfg) - 1))%Z ∧
  (∀ t, (max_pages cfg ≤ pages_processed sys.1)%Z →
        handle_task cfg t sys.1 = (sys.1, Idle)).
Proof.
  intros Hr. apply within_budget_reachable in Hr as [_ Hb]. split.
  - pose proof (count_in_flight_bound sys.2). lia.
  - intros t Hge. unfold handle_task.
    apply Z.leb_le in Hge. rewrite Hge. reflexivity.
Qed.
End Budget.

(** ** Example runs *)

Lemma exec_reachable {E : Externals} (C : Collaborators) (cfg : Config)
  (schedule : list (nat * Input)) :
  reachable C cfg (exec C cfg schedule).
Proof.
  unfold exec, reachable.
  assert (∀ sys, rtc (step C cfg) (initial cfg) sys →
                 rtc (step C cfg) (initial cfg)
                     (fold_left (exec_step C cfg) schedule sys)) as Hgen.
  { induction schedule as [|[i inp] rest IH]; intros sys Hsys; simpl;
      [exact Hsys|].
    apply IH. unfold exec_step. simpl. destruct sys as [s ws]. simpl.
    destruct (ws !! i) as [p|] eqn:Hi; [|exact Hsys].
    destruct (worker_step C cfg p inp s) as [s' p'] eqn:Hw.
    eapply rtc_r; [exact Hsys|]. econstructor; eassumption. }
  apply Hgen. reflexivity.
Qed.

(** Two workers pass the budget test before either has counted its page:
    with a budget of one page, two pages are processed. *)
Lemma racing_workers_exceed_budget :
  @reachable plain_externals bare_collaborators racing_config
    (@exec plain_externals bare_collaborators racing_config racing_schedule) ∧
  max_pages racing_config = 1%Z ∧
  pages_processed
    (@exec plain_externals bare_collaborators racing_config racing_schedule).1
  = 2%Z ∧
  length
    (records
       (@exec plain_externals bare_collaborators racing_config
          racing_schedule).1) = 2%nat.
Proof.
  split; [apply exec_reachable|]. split; [reflexivity|].
  split; vm_compute; reflexivity.
Qed.

(** The bound on the run of the two racing workers: the counter stands at
    2, above the budget of 1, and a third seed would be discarded. *)
Lemma budget_overshoot_is_bounded_witness :
  pages_processed
    (@exec plain_externals bare_collaborators racing_config racing_schedule).1
  = 2%Z ∧
  (pages_processed
     (@exec plain_externals bare_collaborators racing_config racing_schedule).1
   ≤ Z.max 0 (max_pages racing_config
              + Z.of_nat (num_workers racing_config) - 1))%Z ∧
  @handle_task plain_externals racing_config (mkTask "http://x.com/c" 0)
    (@exec plain_externals bare_collaborators racing_config racing_schedule).1
  = ((@exec plain_externals bare_collaborators racing_config
        racing_schedule).1, Idle).
Proof.
  split; [vm_compute; reflexivity|].
  destruct (@budget_overshoot_is_bounded plain_externals bare_collaborators
              racing_config
              (@exec plain_externals bare_collaborators racing_config
                 racing_schedule)
              (exec_reachable bare_collaborators racing_config
                 racing_schedule)) as [Hbound Hfull].
  split; [exact Hbound|]. apply Hfull. vm_compute. discriminate.
Defined.

(** With robots checks on and a robots document answered by 404, the seed
    is dropped: it is neither requested nor marked visited. *)
Example unreachable_robots_stops_the_crawl :
  gets (trace (@exec plain_externals bare_collaborators polite_config
                 [(0%nat, all_fine); (0%nat, all_fine)]).1) = [] ∧
  queue (@exec plain_externals bare_collaborators polite_config
           [(0%nat, all_fine); (0%nat, all_fine)]).1 = [] ∧
  pages_processed
    (@exec plain_externals bare_collaborators polite_config
       [(0%nat, all_fine); (0%nat, all_fine)]).1 = 0%Z.
Proof. repeat split; vm_compute; reflexivity. Qed.

(** ** What one step changes *)

Lemma gets_app (a b : list event) : gets (a ++ b) = gets a ++ gets b.
Proof. unfold gets. apply omap_app. Qed.

Lemma robots_gets_app (a b : list event) :
  robots_gets (a ++ b) = robots_gets a ++ robots_gets b.
Proof. unfold robots_gets. apply omap_app. Qed.

Lemma renders_app (a b : list event) : renders (a ++ b) = renders a ++ renders b.
Proof. unfold renders. apply omap_app. Qed.

Lemma page_effect_refl (u : string) (s : State) : page_effect u s s.
Proof.
  repeat (split; [reflexivity|]). exists [], []. rewrite !app_nil_r.
  repeat (split; [reflexivity|]). split; [intros x Hx; inversion Hx|].
  repeat (split; [reflexivity|]). split; [constructor|]. simpl. lia.
Qed.

Lemma page_effect_trans (u : string) (s1 s2 s3 : State) :
  page_effect u s1 s2 → page_effect u s2 s3 → page_effect u s1 s3.
Proof.
  intros (Hv1 & Hr1 & Hg1 & Hh1 & e1 & r1 & Ht1 & Hge1 & Hro1 & Hre1 & Hq1 & Hrec1 & Hf1 & Hp1)
         (Hv2 & Hr2 & Hg2 & Hh2 & e2 & r2 & Ht2 & Hge2 & Hro2 & Hre2 & Hq2 & Hrec2 & Hf2 & Hp2).
  split; [congruence|]. split; [congruence|]. split; [congruence|].
  split; [congruence|]. exists (e1 ++ e2), (r1 ++ r2).
  rewrite Ht2, Ht1, Hq2, Hq1, Hrec2, Hrec1, <- !app_assoc, gets_app,
    robots_gets_app, renders_app, puts_app, Hge1, Hge2, Hro1, Hro2, length_app.
  repeat (split; [reflexivity|]).
  split; [intros x [Hx|Hx]%elem_of_app; auto|].
  repeat (split; [reflexivity|]). split; [apply Forall_app; auto|]. lia.
Qed.

Section Frame.
Context {E : Externals} (C : Collaborators) (cfg : Config).

Lemma page_effect_put (u : string) (t : CrawlTask) (s : State) :
  page_effect u s (set_enqueued (enqueued (queue_put t s) ∪ {[ url t ]})
                                (queue_put t s)).
Proof.
  repeat (split; [reflexivity|]). exists [Put t], []. simpl.
  rewrite !app_nil_r. repeat (split; [reflexivity|]).
  split; [intros x Hx; inversion Hx|].
  repeat (split; [reflexivity|]). split; [constructor|]. lia.
Qed.

Lemma enqueue_links_effect (page_url : string) (hrefs : list string)
  (s s' : State) (r : outcome unit) :
  enqueue_links cfg page_url hrefs s = (s', r) →
  page_effect page_url s s' ∧ records s' = records s ∧
  pages_processed s' = pages_processed s.
Proof.
  revert s. induction hrefs as [|href rest IH]; intros s; simpl.
  - intros [= <- _]. split; [apply page_effect_refl|]. auto.
  - destruct (normalize_url page_url href) as [[norm|]|e];
      [|apply IH|intros [= <- _]; split; [apply page_effect_refl|]; auto].
    destruct (Str.is_empty norm); [apply IH|].
    destruct (bool_decide (norm ∈ enqueued s) || bool_decide (norm ∈ visited s));
      [apply IH|].
    destruct (is_allowed_domain norm (allowed_domains cfg)) as [[]|e];
      [|apply IH|intros [= <- _]; split; [apply page_effect_refl|]; auto].
    intros H. apply IH in H as (H1 & H2 & H3). simpl in *. split; [|auto].
    eapply page_effect_trans; [|exact H1].
    apply (page_effect_put page_url (mkTask norm 1) s).
Qed.

Lemma process_page_effect (page_url html : string) (inp : Input)
  (s s' : State) (r : outcome unit) :
  process_page C cfg page_url html inp s = (s', r) →
  page_effect page_url s s' ∧
  pages_processed s' = pages_processed s ∧
  (r = Return () → length (records s') = S (length (records s))).
Proof.
  unfold process_page.
  destruct (extract_links C html page_url) as [links|e];
    [|intros [= <- <-]; split; [apply page_effect_refl|]; split; [reflexivity|discriminate]].
  destruct (extract_pagination_next_links C html page_url) as [next|e];
    [|intros [= <- <-]; split; [apply page_effect_refl|]; split; [reflexivity|discriminate]].
  destruct (in_saved inp) as [html_path|e];
    [|intros [= <- <-]; split; [apply page_effect_refl|]; split; [reflexivity|discriminate]].
  destruct (in_appended inp) as [[]|e];
    [|intros [= <- <-]; split; [apply page_effect_refl|]; split; [reflexivity|discriminate]].
  intros H.
  apply enqueue_links_effect in H as (H1 & H2 & H3). simpl in *.
  split; [|split; [exact H3|]].
  - eapply page_effect_trans; [|exact H1].
    repeat (split; [reflexivity|]).
    exists [], [mkRecord page_url html_path links next]. simpl.
    rewrite !app_nil_r.
    repeat (split; [reflexivity|]). split; [intros x Hx; inversion Hx|].
    repeat (split; [reflexivity|]). split; [repeat constructor|]. lia.
  - intros _. rewrite H2, length_app. simpl. lia.
Qed.

Lemma render_pass_effect (t : CrawlTask) (inp : Input) (html : option string)
  (s s' : State) (r : outcome (option string)) :
  render_pass C cfg t inp html s = (s', r) →
  page_effect (url t) s s' ∧ records s' = records s ∧
  pages_processed s' = pages_processed s.
Proof.
  unfold render_pass.
  destruct (needs_render C cfg html && has_playwright cfg);
    intros [= <- _]; (split; [|auto]); [|apply page_effect_refl].
  repeat (split; [reflexivity|]). exists [Render (url t)], []. simpl.
  rewrite !app_nil_r. repeat (split; [reflexivity|]).
  split; [intros x Hx%list_elem_of_singleton; exact Hx|].
  repeat (split; [reflexivity|]). split; [constructor|]. lia.
Qed.

Lemma fetch_and_process_effect (t : CrawlTask) (inp : Input)
  (s s' : State) (r : outcome unit) :
  fetch_and_process C cfg t inp s = (s', r) → page_effect (url t) s s'.
Proof.
  unfold fetch_and_process.
  destruct (fetch_http (in_http inp)) as [http_result|e];
    [|intros [= <- _]; apply page_effect_refl].
  destruct (render_pass C cfg t inp (fst <$> http_result) s)
    as [s1 [html|e]] eqn:Hr; apply render_pass_effect in Hr as (Hr & Hr2 & Hr3);
    [|intros [= <- _]; exact Hr].
  destruct (no_html html); [intros [= <- _]; exact Hr|].
  destruct (process_page C cfg (url t) (default "" html) inp s1)
    as [s2 [[]|e]] eqn:Hp; apply process_page_effect in Hp as (Hp & Hp2 & Hp3);
    intros [= <- _].
  - specialize (Hp3 eq_refl).
    destruct Hr as (Hv1 & Hr1 & Hg1 & Hh1 & e1 & r1 & Ht1 & Hge1 & Hro1 & Hre1 & Hq1 & Hrec1 & Hf1 & Hp1).
    destruct Hp as (Hv2 & Hrr2 & Hg2 & Hh2 & e2 & r2 & Ht2 & Hge2 & Hro2 & Hre2 & Hq2 & Hrec2 & Hf2 & Hpp2).
    unfold page_effect. simpl.
    split; [congruence|]. split; [congruence|]. split; [congruence|].
    split; [congruence|]. exists (e1 ++ e2), (r1 ++ r2).
    rewrite Ht2, Ht1, Hq2, Hq1, Hrec2, Hrec1, <- !app_assoc, gets_app,
      robots_gets_app, renders_app, puts_app, Hge1, Hge2, Hro1, Hro2, length_app.
    repeat (split; [reflexivity|]).
    split; [intros x [Hx|Hx]%elem_of_app; auto|].
    repeat (split; [reflexivity|]). split; [apply Forall_app; auto|].
    rewrite Hrec2, length_app in Hp3. lia.
  - eapply page_effect_trans; eassumption.
Qed.

Lemma finish_io_effect (t : CrawlTask) (host : string) (inp : Input)
  (s s' : State) (p' : phase) :
  finish_io C cfg t host inp s = (s', p') →
  ∃ s1, page_effect (url t) s s1 ∧ s' = release host s1 ∧
        (p' = Idle ∨ ∃ e, p' = Crashed e).
Proof.
  unfold finish_io.
  destruct (fetch_and_process C cfg t inp s) as [s1 r] eqn:Hf.
  apply fetch_and_process_effect in Hf. intros H. exists s1.
  destruct r; inversion H; subst; eauto.
Qed.

End Frame.

(** ** Links that are followed *)

Section Followed.
Context {E : Externals} (C : Collaborators) (cfg : Config).






End Followed.



(** With the allowlist [x.com] the link to the other site is not
    followed. *)
Example allowlist_restricts_the_crawl :
  puts (trace (@exec plain_externals linking_collaborators fenced_config
                 one_page_schedule).1)
  = [mkTask "http://x.com/a" 0; mkTask "http://x.com/next" 1].
Proof. vm_compute. reflexivity. Qed.

(** ** Permits *)

Ltac step_cases H :=
  unfold handle_task, robots_allows, robots_reply,
    robots_verdict, admitted, acquire_global, host_semaphore, acquire_host
    in H;
  unfold mbind, outcome_bind in H; simpl in H;
  repeat match type of H with
         | context [match ?x with _ => _ end] =>
             lazymatch x with
             | context [match _ with _ => _ end] => fail
             | _ => destruct x eqn:?; simpl in H
             end
         end;
  inversion H; subst; clear H; simpl in *.

Ltac arith :=
  repeat match goal with
         | H : (_ <? _)%Z = true |- _ => apply Z.ltb_lt in H
         | H : (_ <? _)%Z = false |- _ => apply Z.ltb_ge in H
         | H : (_ <=? _)%Z = true |- _ => apply Z.leb_le in H
         | H : (_ <=? _)%Z = false |- _ => apply Z.leb_gt in H
         end;
  try lia.

Lemma count_phases_insert (f : phase → bool) (ws : list phase) (i : nat)
  (p p' : phase) :
  ws !! i = Some p →
  count_phases f (<[i := p']> ws)
  = (count_phases f ws - Z.b2z (f p) + Z.b2z (f p'))%Z.
Proof.
  unfold count_phases. revert i.
  induction ws as [|w ws IH]; intros [|i] Hi; simpl in *; try discriminate.
  - inversion Hi; subst. rewrite !filter_cons.
    destruct (f p), (f p'); simpl;
      repeat case_decide; try congruence; simpl; lia.
  - specialize (IH i Hi). rewrite !filter_cons.
    case_decide; simpl; lia.
Qed.

Lemma count_phases_replicate (f : phase → bool) (n : nat) (p : phase) :
  f p = false → count_phases f (replicate n p) = 0%Z.
Proof.
  intros Hp. unfold count_phases. induction n as [|n IH]; simpl; [reflexivity|].
  rewrite filter_cons. case_decide; [congruence|]. exact IH.
Qed.

Lemma count_phases_nonneg (f : phase → bool) (ws : list phase) :
  (0 ≤ count_phases f ws)%Z.
Proof. unfold count_phases. lia. Qed.

Lemma run_seeds_permits (cfg : Config) (urls : list string) (s : State) :
  global_permits (run_seeds urls s) = global_permits s ∧
  host_permits (run_seeds urls s) = host_permits s.
Proof.
  revert s. induction urls as [|u rest IH]; intros s; simpl; [auto|].
  destruct (IH (queue_put (mkTask u 0) (set_enqueued (enqueued s ∪ {[u]}) s)))
    as [-> ->]. auto.
Qed.

Section Permits.
Context {E : Externals} (C : Collaborators) (cfg : Config).

Lemma worker_step_global (p p' : phase) (inp : Input) (s s' : State) :
  worker_step C cfg p inp s = (s', p') →
  ((0 ≤ global_permits s)%Z → (0 ≤ global_permits s')%Z) ∧
  (global_permits s' + Z.b2z (holds_global p')
   ≤ global_permits s + Z.b2z (holds_global p))%Z.
Proof.
  destruct p as [|t base|t|t host|t host| |e]; simpl; intros H.
  - step_cases H; arith.
  - step_cases H; arith.
  - step_cases H; arith.
  - step_cases H; arith.
  - apply finish_io_effect in H
      as (s1 & (_ & _ & Hg & _) & -> & Hp). simpl. rewrite Hg.
    destruct Hp as [->|[e ->]]; simpl; lia.
  - inversion H; subst. simpl. lia.
  - inversion H; subst. simpl. lia.
Qed.

(** The global semaphore is never negative, and at no time do more than
    [max_concurrency] workers hold one of its permits: at most that many
    page requests are in flight. *)
Theorem global_permits_bound (sys : System) :
  (0 ≤ max_concurrency cfg)%Z →
  reachable C cfg sys →
  (0 ≤ global_permits sys.1)%Z ∧
  (global_permits sys.1 + count_phases holds_global sys.2
   ≤ max_concurrency cfg)%Z.
Proof.
  intros Hmax. revert sys. apply reachable_ind.
  - simpl. destruct (run_seeds_permits cfg (start_urls cfg) (init_state cfg))
      as [-> _]. simpl.
    rewrite count_phases_replicate by reflexivity. lia.
  - intros sys sys' _ [H0 Hb] Hs.
    destruct Hs as [i inp s s' ws p p' Hi Hw]. simpl in *.
    apply worker_step_global in Hw as [Hw0 Hw].
    rewrite (count_phases_insert _ ws i p p' Hi). split; [auto|lia].
Qed.

End Permits.

(** ** The ways through [_handle_task] *)

Section Cases.
Context {E : Externals} (C : Collaborators) (cfg : Config).

Lemma acquire_host_cases (t : CrawlTask) (host : string) (s s' : State)
  (p' : phase) :
  acquire_host t host s = (s', p') →
  (s' = s ∧ p' = AwaitHost t host) ∨
  (∃ v, host_permits s !! host = Some v ∧ (0 < v)%Z ∧
        s' = log (Get (url t))
               (set_host_permits (<[host := (v - 1)%Z]> (host_permits s)) s) ∧
        p' = AwaitIO t host).
Proof.
  unfold acquire_host.
  destruct (Z.ltb_spec 0 (default 0%Z (host_permits s !! host))) as [Hv|Hv];
    intros [= <- <-]; [right|left; auto].
  destruct (host_permits s !! host) as [v|]; simpl in *; [|lia]. eauto.
Qed.

Lemma acquire_global_cases (t : CrawlTask) (s s' : State) (p' : phase) :
  acquire_global cfg t s = (s', p') →
  (s' = s ∧ p' = AwaitGlobal t) ∨
  ((0 < global_permits s)%Z ∧
   ((∃ e, urlparse (url t) "" = Raise e ∧
          s' = set_global_permits (global_permits s - 1)%Z s ∧
          p' = Crashed e) ∨
    (∃ parsed s2,
       urlparse (url t) "" = Return parsed ∧
       ((is_Some (host_permits s !! netloc parsed) ∧
         s2 = set_global_permits (global_permits s - 1)%Z s) ∨
        (host_permits s !! netloc parsed = None ∧
         s2 = set_host_permits
                (<[netloc parsed := per_host_limit cfg]> (host_permits s))
                (set_global_permits (global_permits s - 1)%Z s))) ∧
       acquire_host t (netloc parsed) s2 = (s', p')))).
Proof.
  unfold acquire_global, host_semaphore.
  destruct (Z.ltb_spec 0 (global_permits s)) as [Hg|Hg];
    [|intros [= <- <-]; left; auto].
  intros H. right. split; [exact Hg|].
  destruct (urlparse (url t) "") as [parsed|e]; simpl in H.
  - right. exists parsed.
    destruct (host_permits s !! netloc parsed) as [v|] eqn:Hv; simpl in H;
      eexists; (split; [reflexivity|]); (split; [|exact H]);
      [left|right]; eauto.
  - left. inversion H; subst. eauto.
Qed.

(** The tests at the head of [_handle_task] *)
Lemma handle_task_cases (t : CrawlTask) (s s' : State) (p' : phase) :
  handle_task cfg t s = (s', p') →
  (s' = s ∧ (p' = Idle ∨ ∃ e, p' = Crashed e)) ∨
  ((pages_processed s < max_pages cfg)%Z ∧ (url t ∉ visited s) ∧
   (depth t ≤ max_depth cfg)%Z ∧
   is_allowed_domain (url t) (allowed_domains cfg) = Return true ∧
   ((robots cfg = true ∧
     ∃ parsed, urlparse (url t) "" = Return parsed ∧
       robots_parsers s !! (scheme parsed +:+ "://" +:+ netloc parsed) = None ∧
       s' = log (RobotsGet ((scheme parsed +:+ "://" +:+ netloc parsed)
                            +:+ "/robots.txt")) s ∧
       p' = AwaitRobots t (scheme parsed +:+ "://" +:+ netloc parsed)) ∨
    ((robots cfg = false ∨
      ∃ parsed rp, urlparse (url t) "" = Return parsed ∧
        robots_parsers s !! (scheme parsed +:+ "://" +:+ netloc parsed)
        = Some rp ∧
        can_fetch rp (user_agent cfg) (url t) = Return true) ∧
     acquire_global cfg t (set_visited (visited s ∪ {[ url t ]}) s)
     = (s', p')))).
Proof.
  unfold handle_task.
  destruct (Z.leb_spec (max_pages cfg) (pages_processed s)) as [Hp|Hp];
    [intros [= <- <-]; left; auto|].
  destruct (bool_decide (url t ∈ visited s)) eqn:Hv;
    [intros [= <- <-]; left; auto|]. apply bool_decide_eq_false in Hv.
  destruct (Z.ltb_spec (max_depth cfg) (depth t)) as [Hd|Hd];
    [intros [= <- <-]; left; auto|].
  destruct (is_allowed_domain (url t) (allowed_domains cfg)) as [[]|e] eqn:Ha;
    [|intros [= <- <-]; left; auto|intros [= <- <-]; left; eauto].
  unfold robots_allows, robots_verdict, admitted.
  destruct (robots cfg) eqn:Hr; simpl.
  - destruct (urlparse (url t) "") as [parsed|e] eqn:Hu;
      [|intros [= <- <-]; left; eauto].
    destruct (robots_parsers s !! _) as [rp|] eqn:Hc.
    + destruct (can_fetch rp (user_agent cfg) (url t)) as [[]|e] eqn:Hf;
        [|intros [= <- <-]; left; auto|intros [= <- <-]; left; eauto].
      intros H. right. repeat (split; [first [assumption|reflexivity]|]). right.
      split; [|exact H]. right. eauto.
    + intros [= <- <-]. right. repeat (split; [first [assumption|reflexivity]|]). left.
      split; [reflexivity|]. exists parsed. auto.
  - intros H. right. repeat (split; [first [assumption|reflexivity]|]). right. auto.
Qed.

Lemma robots_reply_cases (t : CrawlTask) (base : string)
  (got : outcome Response) (s s' : State) (p' : phase) :
  robots_reply C cfg t base got s = (s', p') →
  (s' = s ∧ ∃ e, p' = Crashed e) ∨
  (∃ rp, fetched_parser C got = Return rp ∧
     ((s' = set_robots_parsers (<[base := rp]> (robots_parsers s)) s ∧
       (p' = Idle ∨ ∃ e, p' = Crashed e)) ∨
      (can_fetch rp (user_agent cfg) (url t) = Return true ∧
       acquire_global cfg t
         (set_visited
            (visited s ∪ {[ url t ]})
            (set_robots_parsers (<[base := rp]> (robots_parsers s)) s))
       = (s', p')))).
Proof.
  unfold robots_reply, robots_verdict, admitted.
  destruct (fetched_parser C got) as [rp|e];
    [|intros [= <- <-]; left; eauto].
  intros H. right. exists rp. split; [reflexivity|].
  destruct (can_fetch rp (user_agent cfg) (url t)) as [[]|e] eqn:Hf.
  - right. split; [reflexivity|]. exact H.
  - left. inversion H; subst. auto.
  - left. inversion H; subst. eauto.
Qed.

(** What a step of an idle worker is *)
Lemma idle_cases (inp : Input) (s s' : State) (p' : phase) :
  worker_step C cfg Idle inp s = (s', p') →
  (s' = s ∧ (p' = Idle ∨ p' = Exited)) ∨
  (∃ t rest, queue s = t :: rest ∧
             handle_task cfg t (set_queue rest s) = (s', p')).
Proof.
  simpl. destruct (pages_processed s <? max_pages cfg)%Z;
    [|intros [= <- <-]; left; auto].
  destruct (queue s) as [|t rest]; [intros [= <- <-]; left; auto|].
  intros H. right. eauto.
Qed.

End Cases.

Section HostPermits.
Context {E : Externals} (C : Collaborators) (cfg : Config).

Lemma holds_host_io (h host : string) (t : CrawlTask) :
  holds_host h (AwaitIO t host) = bool_decide (host = h).
Proof.
  simpl. destruct (String.eqb_spec host h);
    [rewrite bool_decide_eq_true_2|rewrite bool_decide_eq_false_2]; auto.
Qed.

Lemma acquire_host_taken (h : string) (t : CrawlTask) (host : string)
  (s s' : State) (p' : phase) :
  acquire_host t host s = (s', p') →
  taken cfg h s' = (taken cfg h s + Z.b2z (holds_host h p'))%Z ∧
  ((∀ v, host_permits s !! h = Some v → (0 ≤ v)%Z) →
   ∀ v, host_permits s' !! h = Some v → (0 ≤ v)%Z).
Proof.
  intros [[-> ->]|(v & Hv & Hpos & -> & ->)]%acquire_host_cases.
  - simpl. split; [lia|auto].
  - rewrite holds_host_io. unfold taken. simpl.
    destruct (decide (host = h)) as [->|Hne].
    + rewrite lookup_insert_eq, Hv, bool_decide_eq_true_2 by reflexivity.
      simpl. split; [lia|]. intros _ v' [= <-]. lia.
    + rewrite lookup_insert_ne, bool_decide_eq_false_2 by assumption.
      simpl. split; [lia|auto].
Qed.

Lemma acquire_global_taken (h : string) (t : CrawlTask)
  (s s' : State) (p' : phase) :
  (0 ≤ per_host_limit cfg)%Z →
  acquire_global cfg t s = (s', p') →
  taken cfg h s' = (taken cfg h s + Z.b2z (holds_host h p'))%Z ∧
  ((∀ v, host_permits s !! h = Some v → (0 ≤ v)%Z) →
   ∀ v, host_permits s' !! h = Some v → (0 ≤ v)%Z).
Proof.
  intros Hlim
    [[-> ->]|(Hg & [(e & _ & -> & ->)|(parsed & s2 & _ & Hs2 & Ha)])]%acquire_global_cases.
  - simpl. split; [lia|auto].
  - simpl. split; [unfold taken; simpl; lia|auto].
  - apply (acquire_host_taken h) in Ha as [Ht Hn].
    destruct Hs2 as [[_ ->]|[Hnone ->]].
    + split; [exact Ht|exact Hn].
    + assert (taken cfg h
                (set_host_permits
                   (<[netloc parsed:=per_host_limit cfg]> (host_permits s))
                   (set_global_permits (global_permits s - 1) s))
              = taken cfg h s) as Heq.
      { unfold taken. simpl. destruct (decide (netloc parsed = h)) as [<-|Hne].
        - rewrite lookup_insert_eq, Hnone. lia.
        - rewrite lookup_insert_ne by assumption. reflexivity. }
      rewrite Heq in Ht. split; [exact Ht|]. intros Hs. apply Hn. simpl.
      intros v. destruct (decide (netloc parsed = h)) as [<-|Hne].
      * rewrite lookup_insert_eq. intros [= <-]. exact Hlim.
      * rewrite lookup_insert_ne by assumption. apply Hs.
Qed.

Lemma worker_step_taken (h : string) (p p' : phase) (inp : Input)
  (s s' : State) :
  (0 ≤ per_host_limit cfg)%Z →
  (holds_host h p = true → is_Some (host_permits s !! h)) →
  worker_step C cfg p inp s = (s', p') →
  (taken cfg h s' + Z.b2z (holds_host h p)
   = taken cfg h s + Z.b2z (holds_host h p'))%Z ∧
  ((∀ v, host_permits s !! h = Some v → (0 ≤ v)%Z) →
   ∀ v, host_permits s' !! h = Some v → (0 ≤ v)%Z).
Proof.
  intros Hlim Hheld.
  destruct p as [|t base|t|t host|t host| |e]; intros H.
  - apply idle_cases in H as [[-> [-> | ->]]|(t & rest & _ & H)];
      [simpl; split; [lia|auto]..|].
    apply handle_task_cases in H
      as [[-> [-> |[e ->]]]|(_ & _ & _ & _ & [(_ & parsed & _ & _ & -> & ->)|[_ H]])];
      [unfold taken; simpl; split; [lia|auto]..|].
    apply (acquire_global_taken h) in H as [H1 H2]; [|exact Hlim].
    simpl in *. split; [unfold taken in *; simpl in *; lia|exact H2].
  - simpl in H. apply robots_reply_cases in H
      as [[-> [e ->]]|(rp & _ & [[-> [-> |[e ->]]]|[_ H]])];
      [simpl; split; [unfold taken; simpl; lia|auto]..|].
    apply (acquire_global_taken h) in H as [H1 H2]; [|exact Hlim].
    simpl in *. split; [unfold taken in *; simpl in *; lia|exact H2].
  - simpl in H. apply (acquire_global_taken h) in H as [H1 H2]; [|exact Hlim].
    simpl. split; [lia|exact H2].
  - simpl in H. apply (acquire_host_taken h) in H as [H1 H2].
    simpl. split; [lia|exact H2].
  - simpl in H. apply finish_io_effect in H
      as (s1 & (_ & _ & _ & Hh & _) & -> & Hp).
    assert (holds_host h p' = false) as ->
      by (destruct Hp as [->|[e ->]]; reflexivity).
    rewrite holds_host_io in *. unfold taken. simpl. rewrite Hh.
    destruct (decide (host = h)) as [->|Hne].
    + rewrite bool_decide_eq_true_2 in * by reflexivity.
      destruct (Hheld eq_refl) as [v Hv]. rewrite lookup_insert_eq, Hv. simpl.
      split; [lia|]. intros Hs v' [= <-]. specialize (Hs v eq_refl). lia.
    + rewrite bool_decide_eq_false_2 by assumption.
      rewrite lookup_insert_ne by assumption. simpl. split; [lia|auto].
  - inversion H; subst. simpl. split; [lia|auto].
  - inversion H; subst. simpl. split; [lia|auto].
Qed.

Lemma count_phases_pos (f : phase → bool) (ws : list phase) (i : nat)
  (p : phase) :
  ws !! i = Some p → f p = true → (0 < count_phases f ws)%Z.
Proof.
  intros Hi Hp. unfold count_phases.
  assert (p ∈ filter (λ p, f p = true) ws) as Hin.
  { apply list_elem_of_filter. split; [exact Hp|].
    eapply list_elem_of_lookup_2, Hi. }
  destruct (filter (λ p, f p = true) ws); [inversion Hin|]. simpl. lia.
Qed.

(** For every network location, at most [per_host_limit] page requests
    are in flight to it; the value of its semaphore is never negative and,
    with the number of those requests, at most [per_host_limit].  When no
    worker waits for the semaphore the two add up to [per_host_limit]:
    every permit that was taken is held by a request in flight. *)
Theorem host_permits_bound (sys : System) (host : string) :
  (0 ≤ per_host_limit cfg)%Z →
  reachable C cfg sys →
  (count_phases (holds_host host) sys.2 ≤ per_host_limit cfg)%Z ∧
  ∀ v, host_permits sys.1 !! host = Some v →
       (0 ≤ v)%Z ∧
       (v + count_phases (holds_host host) sys.2 ≤ per_host_limit cfg)%Z ∧
       (count_phases (waits_host host) sys.2 = 0%Z →
        (v + count_phases (holds_host host) sys.2 = per_host_limit cfg)%Z).
Proof.
  intros Hlim Hr.
  assert (taken cfg host sys.1 = count_phases (holds_host host) sys.2 ∧
          ∀ v, host_permits sys.1 !! host = Some v → (0 ≤ v)%Z) as [Ht Hn].
  { revert sys Hr. apply reachable_ind.
    - simpl. unfold taken.
      destruct (run_seeds_permits cfg (start_urls cfg) (init_state cfg))
        as [_ ->]. simpl. rewrite lookup_empty.
      rewrite count_phases_replicate by reflexivity. split; [reflexivity|].
      intros v [=].
    - intros sys sys' _ [Ht Hn] Hs.
      destruct Hs as [i inp s s' ws p p' Hi Hw]. simpl in *.
      apply (worker_step_taken host) in Hw as [Hw1 Hw2]; [|exact Hlim|].
      + rewrite (count_phases_insert _ ws i p p' Hi). split; [lia|auto].
      + intros Hp. pose proof (count_phases_pos _ ws i p Hi Hp) as Hpos.
        unfold taken in Ht. destruct (host_permits s !! host); [eauto|lia]. }
  unfold taken in Ht. destruct (host_permits sys.1 !! host) as [v|] eqn:Hv.
  - specialize (Hn v eq_refl). split; [lia|]. intros v' [= <-].
    split; [lia|]. split; [lia|]. intros _. lia.
  - split; [lia|]. intros v' [=].
Qed.

End HostPermits.

(** ** Tasks and requests *)

Section Requests.
Context {E : Externals} (C : Collaborators) (cfg : Config).

Lemma acquire_host_frame (t : CrawlTask) (host : string) (s s' : State)
  (p' : phase) :
  acquire_host t host s = (s', p') →
  visited s' = visited s ∧ enqueued s' = enqueued s ∧ queue s' = queue s ∧
  robots_parsers s' = robots_parsers s ∧ records s' = records s ∧
  pages_processed s' = pages_processed s ∧
  ((trace s' = trace s ∧ p' = AwaitHost t host) ∨
   (trace s' = trace s ++ [Get (url t)] ∧ p' = AwaitIO t host)).
Proof.
  intros [[-> ->]|(v & _ & _ & -> & ->)]%acquire_host_cases; simpl;
    repeat (split; [reflexivity|]); auto.
Qed.

Lemma acquire_global_frame (t : CrawlTask) (s s' : State) (p' : phase) :
  acquire_global cfg t s = (s', p') →
  visited s' = visited s ∧ enqueued s' = enqueued s ∧ queue s' = queue s ∧
  robots_parsers s' = robots_parsers s ∧ records s' = records s ∧
  pages_processed s' = pages_processed s ∧
  ((trace s' = trace s ∧
    (p' = AwaitGlobal t ∨ (∃ h, p' = AwaitHost t h) ∨ ∃ e, p' = Crashed e)) ∨
   (trace s' = trace s ++ [Get (url t)] ∧ ∃ h, p' = AwaitIO t h)).
Proof.
  intros [[-> ->]|(Hg & [(e & _ & -> & ->)|(parsed & s2 & _ & Hs2 & Ha)])]%acquire_global_cases.
  - repeat (split; [reflexivity|]). left. auto.
  - simpl. repeat (split; [reflexivity|]). left. eauto.
  - apply acquire_host_frame in Ha
      as (H1 & H2 & H3 & H4 & H5 & H6 & H7).
    rewrite H1, H2, H3, H4, H5, H6.
    assert (trace s2 = trace s) as Ht
      by (destruct Hs2 as [[_ ->]|[_ ->]]; reflexivity).
    rewrite Ht in H7.
    destruct Hs2 as [[_ ->]|[_ ->]]; simpl; repeat (split; [reflexivity|]);
      (destruct H7 as [[-> ->]|[-> ->]]; [left|right]; eauto).
Qed.

Lemma gets_singleton_inv (u v : string) : u ∈ gets [Get v] → u = v.
Proof. simpl. intros H. apply list_elem_of_singleton in H. exact H. Qed.

(** After the gate: the worker of [t] waits for a permit, requests its
    page, or crashes. *)
Lemma past_gate_tasks (t : CrawlTask) (p p' : phase) (s s0 s' : State) :
  (visited s' = visited s0 ∧ enqueued s' = enqueued s0 ∧
   queue s' = queue s0 ∧
   ((trace s' = trace s0 ∧
     (p' = AwaitGlobal t ∨ (∃ h, p' = AwaitHost t h) ∨ ∃ e, p' = Crashed e)) ∨
    (trace s' = trace s0 ++ [Get (url t)] ∧ ∃ h, p' = AwaitIO t h))) →
  visited s ⊆ visited s0 →
  (∀ u, u ∈ visited s0 → u ∈ visited s ∨ u = url t) →
  enqueued s0 = enqueued s → trace s0 = trace s →
  (∀ x, x ∈ queue s0 → x ∈ queue s) →
  (task_of p = Some t ∨
   (t ∈ queue s ∧ (depth t ≤ max_depth cfg)%Z ∧
    is_allowed_domain (url t) (allowed_domains cfg) = Return true)) →
  (admitted_task p = Some t ∨ url t ∈ visited s0) →
  (visited s ⊆ visited s') ∧ (enqueued s ⊆ enqueued s') ∧
  (∀ u, u ∈ visited s' →
        u ∈ visited s ∨
        ∃ t, (task_of p = Some t ∨ t ∈ queue s) ∧ url t = u) ∧
  (∀ t, task_of p' = Some t →
        task_of p = Some t ∨
        (t ∈ queue s ∧ (depth t ≤ max_depth cfg)%Z ∧
         is_allowed_domain (url t) (allowed_domains cfg) = Return true)) ∧
  (∀ t, admitted_task p' = Some t →
        admitted_task p = Some t ∨ url t ∈ visited s') ∧
  ∃ evs, trace s' = trace s ++ evs ∧
    (∀ t, t ∈ queue s' → t ∈ queue s ∨ t ∈ puts evs) ∧
    (∀ t, t ∈ puts evs → url t ∈ enqueued s') ∧
    (∀ u, u ∈ gets evs → ∃ t, admitted_task p' = Some t ∧ url t = u).
Proof.
  intros (Hv & He & Hq & Hmove) Hsub Hnew Henq Htr Hqueue Htask Hadm.
  rewrite Hv, He, Hq, Henq.
  assert (p' = AwaitGlobal t ∨ (∃ h, p' = AwaitHost t h) ∨
          (∃ h, p' = AwaitIO t h) ∨ ∃ e, p' = Crashed e) as Hp'.
  { destruct Hmove as [[_ [H|[H|H]]]|[_ H]]; auto. }
  assert (∀ t', task_of p' = Some t' → t' = t) as Hsame.
  { intros t'. destruct Hp' as [-> |[[h ->]|[[h ->]|[e ->]]]]; simpl; congruence. }
  assert (∀ t', admitted_task p' = Some t' → t' = t) as Hsame'.
  { intros t'. destruct Hp' as [-> |[[h ->]|[[h ->]|[e ->]]]]; simpl; congruence. }
  split; [exact Hsub|]. split; [reflexivity|]. split.
  { intros u Hu. destruct (Hnew u Hu) as [H| ->]; [left; exact H|].
    right. exists t. split; [|reflexivity]. tauto. }
  split. { intros t' Ht'. rewrite (Hsame t' Ht'). exact Htask. }
  split. { intros t' Ht'. rewrite (Hsame' t' Ht'). exact Hadm. }
  destruct Hmove as [[Ht _]|[Ht [h ->]]]; rewrite Ht, Htr.
  - exists []. rewrite app_nil_r. split; [reflexivity|].
    split; [auto|]. split; intros x Hx; inversion Hx.
  - exists [Get (url t)]. split; [reflexivity|]. split; [auto|].
    split; [intros x Hx; inversion Hx|].
    intros u Hu%gets_singleton_inv. subst u. exists t. auto.
Qed.


Ltac no_task evs :=
  simpl;
  split; [reflexivity|]; split; [reflexivity|];
  split; [intros ? ?; left; assumption|];
  split; [intros ? [=]|]; split; [intros ? [=]|];
  exists evs; rewrite ?app_nil_r;
  split; [reflexivity|];
  split; [intros ? ?; left; first [assumption|right; assumption]|];
  split; intros ? Hx; inversion Hx.

(** What one step does to the tasks, the visited set and the requests *)
Lemma worker_step_tasks (p p' : phase) (inp : Input) (s s' : State) :
  worker_step C cfg p inp s = (s', p') →
  (visited s ⊆ visited s') ∧ (enqueued s ⊆ enqueued s') ∧
  (∀ u, u ∈ visited s' →
        u ∈ visited s ∨
        ∃ t, (task_of p = Some t ∨ t ∈ queue s) ∧ url t = u) ∧
  (∀ t, task_of p' = Some t →
        task_of p = Some t ∨
        (t ∈ queue s ∧ (depth t ≤ max_depth cfg)%Z ∧
         is_allowed_domain (url t) (allowed_domains cfg) = Return true)) ∧
  (∀ t, admitted_task p' = Some t →
        admitted_task p = Some t ∨ url t ∈ visited s') ∧
  ∃ evs, trace s' = trace s ++ evs ∧
    (∀ t, t ∈ queue s' → t ∈ queue s ∨ t ∈ puts evs) ∧
    (∀ t, t ∈ puts evs → url t ∈ enqueued s') ∧
    (∀ u, u ∈ gets evs → ∃ t, admitted_task p' = Some t ∧ url t = u).
Proof.
  destruct p as [|t base|t|t host|t host| |e]; intros H.
  - apply idle_cases in H as [[-> [-> | ->]]|(t & rest & Hq & H)];
      [no_task (@nil event)..|].
    apply handle_task_cases in H
      as [[-> [-> |[e ->]]]|(_ & _ & Hd & Ha & [(_ & parsed & _ & _ & -> & ->)|[_ H]])].
    + rewrite Hq. no_task (@nil event).
    + rewrite Hq. no_task (@nil event).
    + rewrite Hq. simpl.
      split; [reflexivity|]. split; [reflexivity|].
      split; [intros ? ?; left; assumption|].
      split; [intros ? [= <-]; right; split; [left|auto]|].
      split; [intros ? [=]|]. eexists [_]. split; [reflexivity|].
      split; [intros ? ?; left; right; assumption|].
      split; intros ? Hx; inversion Hx.
    + eapply (past_gate_tasks t Idle p' s _ s' ); [|simpl..].
      * apply acquire_global_frame in H as (H1 & H2 & H3 & _ & _ & _ & H7).
        eauto.
      * set_solver.
      * intros u Hu. set_solver.
      * reflexivity.
      * reflexivity.
      * rewrite Hq. intros x Hx. right. exact Hx.
      * right. rewrite Hq. split; [left|auto].
      * right. set_solver.
  - simpl in H. apply robots_reply_cases in H
      as [[-> [e ->]]|(rp & _ & [[-> [-> |[e ->]]]|[_ H]])];
      [no_task (@nil event)..|].
    eapply (past_gate_tasks t (AwaitRobots t base) p' s _ s'); [|simpl..].
    + apply acquire_global_frame in H as (H1 & H2 & H3 & _ & _ & _ & H7).
      eauto.
    + set_solver.
    + intros u Hu. set_solver.
    + reflexivity.
    + reflexivity.
    + auto.
    + left. reflexivity.
    + right. set_solver.
  - simpl in H.
    eapply (past_gate_tasks t (AwaitGlobal t) p' s s s'); [|simpl; auto..].
    apply acquire_global_frame in H as (H1 & H2 & H3 & _ & _ & _ & H7).
    eauto.
  - simpl in H.
    eapply (past_gate_tasks t (AwaitHost t host) p' s s s'); [|simpl; auto..].
    apply acquire_host_frame in H as (H1 & H2 & H3 & _ & _ & _ & H7).
    split; [exact H1|]. split; [exact H2|]. split; [exact H3|].
    destruct H7 as [[-> ->]|[-> ->]]; [left|right]; eauto.
  - simpl in H. pose proof H as Hd.
    apply finish_io_discovers in Hd as [Hsub (evs' & Ht' & _ & _ & Hin)].
    apply finish_io_effect in H
      as (s1 & (Hv & _ & _ & _ & evs & recs & Ht & Hg & _ & _ & Hq & _) & -> & Hp).
    simpl in *. rewrite Ht in Ht'. apply app_inv_head in Ht'. subst evs'.
    rewrite Hv, Hq, Ht.
    split; [reflexivity|]. split; [exact Hsub|].
    split; [intros ? ?; left; assumption|].
    split; [destruct Hp as [-> |[e ->]]; intros ? [=]|].
    split; [destruct Hp as [-> |[e ->]]; intros ? [=]|].
    exists evs. split; [reflexivity|].
    split; [intros x Hx; apply elem_of_app in Hx; exact Hx|].
    split; [intros x Hx; apply (Hin x Hx)|].
    rewrite Hg. intros ? Hx; inversion Hx.
  - inversion H; subst. no_task (@nil event).
  - inversion H; subst. no_task (@nil event).
Qed.

Lemma elem_of_insert_inv {A : Type} (l : list A) (i : nat) (x y : A) :
  x ∈ <[i := y]> l → x = y ∨ x ∈ l.
Proof.
  intros [j Hj]%list_elem_of_lookup_1.
  apply list_lookup_insert_Some in Hj as [(_ & -> & _)|[_ Hj]]; [left; reflexivity|].
  right. eapply list_elem_of_lookup_2, Hj.
Qed.

Lemma legitimate_mono (s s' : State) (evs : list event) (t : CrawlTask) :
  trace s' = trace s ++ evs → legitimate cfg s t → legitimate cfg s' t.
Proof.
  intros Ht (Hp & Hd & Ha). split; [|auto].
  rewrite Ht, puts_app. apply elem_of_app. left. exact Hp.
Qed.

Lemma run_seeds_queue (urls : list string) (s : State) :
  queue (run_seeds urls s) = queue s ++ map (λ u, mkTask u 0) urls.
Proof.
  revert s. induction urls as [|u rest IH]; intros s; simpl.
  - rewrite app_nil_r. reflexivity.
  - rewrite IH. simpl. rewrite <- app_assoc. reflexivity.
Qed.

Lemma run_seeds_visited (urls : list string) (s : State) :
  visited (run_seeds urls s) = visited s.
Proof.
  revert s. induction urls as [|u rest IH]; intros s; simpl; [reflexivity|].
  rewrite IH. reflexivity.
Qed.

Lemma gets_seeds (urls : list string) :
  gets (map (λ u, Put (mkTask u 0)) urls) = [].
Proof. induction urls as [|u rest IH]; simpl; auto. Qed.

Lemma tasks_coherent_initial : tasks_coherent cfg (initial cfg).
Proof.
  unfold tasks_coherent, initial. simpl.
  rewrite run_seeds_queue, run_seeds_trace, run_seeds_visited. simpl.
  rewrite puts_seeds, gets_seeds.
  split; [auto|].
  split; [intros p t [-> _]%elem_of_replicate [=]|].
  split; [intros p t [-> _]%elem_of_replicate [=]|].
  split; [intros u Hu; inversion Hu|].
  split; [|set_solver].
  intros t (u & -> & Hu)%list_elem_of_fmap. simpl.
  apply run_seeds_enqueued. right. exact Hu.
Qed.

Lemma tasks_coherent_step (sys sys' : System) :
  tasks_coherent cfg sys → step C cfg sys sys' → tasks_coherent cfg sys'.
Proof.
  intros (Hq & Htask & Hadm & Hget & Hput & Hvis) Hs.
  destruct Hs as [i inp s s' ws p p' Hi Hw]. unfold tasks_coherent.
  simpl in *.
  apply list_elem_of_lookup_2 in Hi as Hin.
  apply worker_step_tasks in Hw
    as (Hv' & He' & Hnew & Htask' & Hadm' & evs & Ht & Hq' & Hput' & Hget').
  assert (∀ t, t ∈ puts (trace s) → t ∈ puts (trace s')) as Hpm.
  { intros t Hp. rewrite Ht, puts_app. apply elem_of_app. auto. }
  assert (∀ t, t ∈ queue s' → t ∈ puts (trace s')) as Hq1.
  { intros t [Hx|Hx]%Hq'; [apply Hpm, Hq, Hx|].
    rewrite Ht, puts_app. apply elem_of_app. auto. }
  assert (∀ q t, q ∈ <[i:=p']> ws → task_of q = Some t →
                 legitimate cfg s' t) as Htask1.
  { intros q t [-> |Hq2]%elem_of_insert_inv Hq3.
    - destruct (Htask' t Hq3) as [Hold|(Hx & Hd & Ha)].
      + eapply legitimate_mono; [exact Ht|]. eapply Htask; eassumption.
      + split; [apply Hpm, Hq, Hx|auto].
    - eapply legitimate_mono; [exact Ht|]. eapply Htask; eassumption. }
  assert (∀ q t, q ∈ <[i:=p']> ws → admitted_task q = Some t →
                 url t ∈ visited s') as Hadm1.
  { intros q t [-> |Hq2]%elem_of_insert_inv Hq3.
    - destruct (Hadm' t Hq3) as [Hold|Hx]; [|exact Hx].
      apply Hv'. eapply Hadm; eassumption.
    - apply Hv'. eapply Hadm; eassumption. }
  split; [exact Hq1|]. split; [exact Htask1|]. split; [exact Hadm1|].
  assert (p' ∈ <[i:=p']> ws) as Hin'.
  { apply list_elem_of_insert. eapply lookup_lt_Some. eassumption. }
  split; [|split].
  - intros u. rewrite Ht, gets_app. intros [Hu|Hu]%elem_of_app.
    + destruct (Hget u Hu) as [Hu1 (t & Hu2 & Hu3)].
      split; [apply Hv', Hu1|]. exists t. split; [exact Hu2|].
      eapply legitimate_mono; [exact Ht|exact Hu3].
    + destruct (Hget' u Hu) as (t & Hu1 & <-).
      split; [eapply Hadm1; eassumption|]. exists t. split; [reflexivity|].
      eapply Htask1; [exact Hin'|].
      destruct p'; simpl in *; congruence.
  - intros t. rewrite Ht, puts_app. intros [Hx|Hx]%elem_of_app.
    + apply He', Hput, Hx.
    + apply Hput', Hx.
  - intros u Hu. destruct (Hnew u Hu) as [Hold|(t & Htq & <-)].
    + apply He', Hvis, Hold.
    + apply He', Hput. destruct Htq as [Htq|Htq].
      * eapply Htask; eassumption.
      * apply Hq, Htq.
Qed.

Lemma tasks_coherent_reachable (sys : System) :
  reachable C cfg sys → tasks_coherent cfg sys.
Proof.
  revert sys. apply reachable_ind; [apply tasks_coherent_initial|].
  intros sys sys' _ Hc Hs. eapply tasks_coherent_step; eassumption.
Qed.

(** Every page request is for the page of a task that was put on the
    queue, is within the depth limit and passes the domain list; the page
    is marked visited and enqueued. *)
Theorem requests_are_legitimate (sys : System) (u : string) :
  reachable C cfg sys →
  u ∈ gets (trace sys.1) →
  u ∈ visited sys.1 ∧ u ∈ enqueued sys.1 ∧
  is_allowed_domain u (allowed_domains cfg) = Return true ∧
  ∃ t, t ∈ puts (trace sys.1) ∧ url t = u ∧ (depth t ≤ max_depth cfg)%Z.
Proof.
  intros (_ & _ & _ & Hget & _ & Hvis)%tasks_coherent_reachable Hu.
  destruct (Hget u Hu) as [Hv (t & <- & Hp & Hd & Ha)].
  split; [exact Hv|]. split; [apply Hvis, Hv|]. split; [exact Ha|]. eauto.
Qed.

End Requests.

(** ** Depth *)

Section Depth.
Context {E : Externals} (C : Collaborators) (cfg : Config).

Lemma puts_depth (sys : System) :
  reachable C cfg sys →
  ∀ t, t ∈ puts (trace sys.1) → depth t = 0%Z ∨ depth t = 1%Z.
Proof.
  revert sys.
  apply (reachable_ind C cfg
           (λ sys, ∀ t, t ∈ puts (trace sys.1) →
                        depth t = 0%Z ∨ depth t = 1%Z)).
  - simpl. rewrite run_seeds_trace. simpl. rewrite puts_seeds.
    intros t (u & -> & _)%list_elem_of_fmap. left. reflexivity.
  - intros sys sys' _ IH Hs.
    destruct Hs as [i inp s s' ws p p' Hi Hw]. simpl in *.
    apply worker_step_discovers in Hw as [_ (evs & Ht & Hd & _)].
    intros t. rewrite Ht, puts_app. intros [Hx|Hx]%elem_of_app; [auto|].
    right. rewrite Forall_forall in Hd. apply Hd, Hx.
Qed.

(** With a depth limit of at least 1, the depth test of [_handle_task]
    fails for no task that is ever on the queue: every task has depth 0
    or 1, so the limit does not bound the crawl. *)
Theorem depth_limit_never_applies (sys : System) (t : CrawlTask) :
  (1 ≤ max_depth cfg)%Z →
  reachable C cfg sys →
  t ∈ queue sys.1 →
  (0 ≤ depth t ≤ 1)%Z ∧ (max_depth cfg <? depth t)%Z = false.
Proof.
  intros Hmax Hr Hq.
  pose proof (tasks_coherent_reachable C cfg sys Hr) as (Hqueue & _).
  destruct (puts_depth sys Hr t (Hqueue t Hq)) as [Hd|Hd];
    (split; [lia|apply Z.ltb_ge; lia]).
Qed.

End Depth.

(** ** Records *)

Section Records.
Context {E : Externals} (C : Collaborators) (cfg : Config).

Lemma enqueue_links_records (page_url : string) (hrefs : list string)
  (s s' : State) (r : outcome unit) :
  enqueue_links cfg page_url hrefs s = (s', r) → records s' = records s.
Proof. intros (_ & H & _)%enqueue_links_effect. exact H. Qed.

Lemma fetch_and_process_records (t : CrawlTask) (inp : Input)
  (s s' : State) (r : outcome unit) :
  fetch_and_process C cfg t inp s = (s', r) →
  (length (records s') ≤ S (length (records s)))%nat.
Proof.
  unfold fetch_and_process.
  destruct (fetch_http (in_http inp)) as [http_result|e];
    [|intros [= <- _]; lia].
  destruct (render_pass C cfg t inp (fst <$> http_result) s)
    as [s1 [html|e]] eqn:Hr; apply render_pass_effect in Hr as (_ & Hr & _);
    [|intros [= <- _]; rewrite Hr; lia].
  destruct (no_html html); [intros [= <- _]; rewrite Hr; lia|].
  assert (∀ s2 r2, process_page C cfg (url t) (default "" html) inp s1
                   = (s2, r2) →
                   (length (records s2) ≤ S (length (records s1)))%nat) as Hpp.
  { unfold process_page. intros s2 r2 Hp.
    destruct (extract_links C (default "" html) (url t)) as [links|e];
      [|inversion Hp; subst; lia].
    destruct (extract_pagination_next_links C (default "" html) (url t))
      as [next|e]; [|inversion Hp; subst; lia].
    destruct (in_saved inp) as [html_path|e]; [|inversion Hp; subst; lia].
    destruct (in_appended inp) as [[]|e]; [|inversion Hp; subst; lia].
    apply enqueue_links_records in Hp. rewrite Hp. simpl.
    rewrite length_app. simpl. lia. }
  destruct (process_page C cfg (url t) (default "" html) inp s1)
    as [s2 r2] eqn:Hp.
  specialize (Hpp s2 r2 eq_refl).
  destruct r2 as [[]|e]; intros [= <- _]; simpl; rewrite <- Hr; exact Hpp.
Qed.

Lemma worker_step_records (p p' : phase) (inp : Input) (s s' : State) :
  worker_step C cfg p inp s = (s', p') →
  ∃ evs recs,
    trace s' = trace s ++ evs ∧ records s' = records s ++ recs ∧
    (pages_processed s ≤ pages_processed s'
     ≤ pages_processed s + Z.of_nat (length recs))%Z ∧
    (Z.of_nat (length recs) + Z.b2z (requesting p')
     ≤ Z.of_nat (length (gets evs)) + Z.b2z (requesting p))%Z ∧
    (∀ r, r ∈ recs → ∃ t h, p = AwaitIO t h ∧ rec_url r = url t) ∧
    (∀ u, u ∈ renders evs → ∃ t h, p = AwaitIO t h ∧ u = url t) ∧
    (∀ t h, p' = AwaitIO t h → url t ∈ gets evs).
Proof.
  assert (∀ s0 t0 p0,
    (records s' = records s0 ∧ pages_processed s' = pages_processed s0 ∧
     ((trace s' = trace s0 ∧
       (p' = AwaitGlobal t0 ∨ (∃ h, p' = AwaitHost t0 h) ∨
        ∃ e, p' = Crashed e)) ∨
      (trace s' = trace s0 ++ [Get (url t0)] ∧ ∃ h, p' = AwaitIO t0 h))) →
    records s0 = records s → pages_processed s0 = pages_processed s →
    (∃ ev0, trace s0 = trace s ++ ev0 ∧ gets ev0 = [] ∧ renders ev0 = []) →
    requesting p0 = false →
    ∃ evs recs,
      trace s' = trace s ++ evs ∧ records s' = records s ++ recs ∧
      (pages_processed s ≤ pages_processed s'
       ≤ pages_processed s + Z.of_nat (length recs))%Z ∧
      (Z.of_nat (length recs) + Z.b2z (requesting p')
       ≤ Z.of_nat (length (gets evs)) + Z.b2z (requesting p0))%Z ∧
      (∀ r, r ∈ recs → ∃ t h, p0 = AwaitIO t h ∧ rec_url r = url t) ∧
      (∀ u, u ∈ renders evs → ∃ t h, p0 = AwaitIO t h ∧ u = url t) ∧
      (∀ t h, p' = AwaitIO t h → url t ∈ gets evs)) as Hgate.
  { intros s0 t0 p0 (Hrec & Hpg & Hmove) Hrec0 Hpg0 (ev0 & Ht0 & Hg0 & Hr0) Hp0.
    destruct Hmove as [[Ht Hp']|[Ht [h ->]]].
    - exists ev0, []. rewrite Ht, Ht0, Hrec, Hrec0, Hpg, Hpg0, Hg0, Hr0, Hp0, app_nil_r.
      split; [reflexivity|]. split; [reflexivity|]. split; [simpl; lia|].
      split; [destruct Hp' as [-> |[[h ->]|[e ->]]]; simpl; lia|].
      split; [intros r Hr; inversion Hr|].
      split; [intros r Hr; inversion Hr|].
      intros t h ->. destruct Hp' as [Hp'|[[h' Hp']|[e Hp']]]; discriminate.
    - exists (ev0 ++ [Get (url t0)]), [].
      rewrite Ht, Ht0, Hrec, Hrec0, Hpg, Hpg0, Hp0, app_nil_r, <- app_assoc,
        gets_app, renders_app, Hg0, Hr0.
      split; [reflexivity|]. split; [reflexivity|]. split; [simpl; lia|].
      split; [simpl; lia|].
      split; [intros r Hr; inversion Hr|].
      split; [intros r Hr; inversion Hr|].
      intros t h' [= <- <-]. simpl. apply list_elem_of_singleton. reflexivity. }
  assert (∀ s0, s' = s0 → records s0 = records s →
            pages_processed s0 = pages_processed s →
            (∃ ev0, trace s0 = trace s ++ ev0 ∧ gets ev0 = [] ∧
                    renders ev0 = []) →
            requesting p' = false →
            ∃ evs recs,
              trace s' = trace s ++ evs ∧ records s' = records s ++ recs ∧
              (pages_processed s ≤ pages_processed s'
               ≤ pages_processed s + Z.of_nat (length recs))%Z ∧
              (Z.of_nat (length recs) + Z.b2z (requesting p')
               ≤ Z.of_nat (length (gets evs)) + Z.b2z (requesting p))%Z ∧
              (∀ r, r ∈ recs → ∃ t h, p = AwaitIO t h ∧ rec_url r = url t) ∧
              (∀ u, u ∈ renders evs → ∃ t h, p = AwaitIO t h ∧ u = url t) ∧
              (∀ t h, p' = AwaitIO t h → url t ∈ gets evs)) as Hstill.
  { intros s0 -> Hrec Hpg (ev0 & Ht0 & Hg0 & Hr0) Hp'.
    exists ev0, []. rewrite Ht0, Hrec, Hpg, Hg0, Hr0, Hp', app_nil_r.
    split; [reflexivity|]. split; [reflexivity|]. split; [simpl; lia|].
    split; [destruct (requesting p); simpl; lia|].
    split; [intros r Hr; inversion Hr|].
    split; [intros r Hr; inversion Hr|].
    intros t h ->. discriminate. }
  destruct p as [|t base|t|t host|t host| |e]; intros H.
  - apply idle_cases in H as [[-> [-> | ->]]|(t & rest & Hq & H)];
      [eapply Hstill; try reflexivity; exists []; rewrite app_nil_r; auto..|].
    apply handle_task_cases in H
      as [[-> [-> |[e ->]]]|(_ & _ & Hd & Ha & [(_ & parsed & _ & _ & -> & ->)|[_ H]])].
    + eapply Hstill; try reflexivity; exists []; rewrite app_nil_r; auto.
    + eapply Hstill; try reflexivity; exists []; rewrite app_nil_r; auto.
    + eapply Hstill; try reflexivity. eexists [_]. simpl. auto.
    + apply acquire_global_frame in H as (_ & _ & _ & _ & H5 & H6 & H7).
      eapply (Hgate _ t Idle); [eauto|reflexivity..| |reflexivity].
      exists []. rewrite app_nil_r. auto.
  - simpl in H. apply robots_reply_cases in H
      as [[-> [e ->]]|(rp & _ & [[-> [-> |[e ->]]]|[_ H]])];
      [eapply Hstill; try reflexivity; exists []; rewrite app_nil_r; auto..|].
    apply acquire_global_frame in H as (_ & _ & _ & _ & H5 & H6 & H7).
    eapply (Hgate _ t (AwaitRobots t base)); [eauto|reflexivity..| |reflexivity].
    exists []. rewrite app_nil_r. auto.
  - simpl in H.
    apply acquire_global_frame in H as (_ & _ & _ & _ & H5 & H6 & H7).
    eapply (Hgate s t (AwaitGlobal t)); [eauto|reflexivity..| |reflexivity].
    exists []. rewrite app_nil_r. auto.
  - simpl in H.
    apply acquire_host_frame in H as (_ & _ & _ & _ & H5 & H6 & H7).
    eapply (Hgate s t (AwaitHost t host)); [|reflexivity..| |reflexivity].
    + split; [exact H5|]. split; [exact H6|].
      destruct H7 as [[-> ->]|[-> ->]]; [left|right]; eauto.
    + exists []. rewrite app_nil_r. auto.
  - simpl in H. unfold finish_io in H.
    destruct (fetch_and_process C cfg t inp s) as [s1 r] eqn:Hf.
    pose proof (fetch_and_process_records _ _ _ _ _ Hf) as Hlen.
    apply fetch_and_process_effect in Hf
      as (_ & _ & _ & _ & evs & recs & Ht & Hg & _ & Hre & _ & Hrec & Hall & Hpg).
    assert (s' = release host s1 ∧ requesting p' = false) as [-> Hp'].
    { destruct r; inversion H; subst; auto. }
    exists evs, recs. simpl. rewrite Hp', Hg.
    rewrite Hrec, length_app in Hlen.
    split; [exact Ht|]. split; [exact Hrec|]. split; [exact Hpg|].
    split; [simpl; lia|].
    split; [|split].
    + intros r0 Hr0. rewrite Forall_forall in Hall. eauto.
    + intros u Hu. eauto.
    + intros t0 h0 ->. discriminate.
  - inversion H; subst.
    eapply Hstill; try reflexivity. exists []. rewrite app_nil_r. auto.
  - inversion H; subst.
    eapply Hstill; try reflexivity. exists []. rewrite app_nil_r. auto.
Qed.

Lemma run_seeds_records (urls : list string) (s : State) :
  records (run_seeds urls s) = records s.
Proof.
  revert s. induction urls as [|u rest IH]; intros s; simpl; [reflexivity|].
  rewrite IH. reflexivity.
Qed.

Lemma renders_seeds (urls : list string) :
  renders (map (λ u, Put (mkTask u 0)) urls) = [].
Proof. induction urls as [|u rest IH]; simpl; auto. Qed.

Lemma records_coherent_initial : records_coherent (initial cfg).
Proof.
  unfold records_coherent, initial. simpl.
  rewrite run_seeds_records, run_seeds_trace, run_seeds_pages. simpl.
  rewrite gets_seeds, renders_seeds.
  rewrite count_phases_replicate by reflexivity.
  split; [intros p t h [-> _]%elem_of_replicate [=]|].
  split; [intros r Hr; inversion Hr|].
  split; [intros r Hr; inversion Hr|]. simpl. lia.
Qed.

Lemma records_coherent_step (sys sys' : System) :
  records_coherent sys → step C cfg sys sys' → records_coherent sys'.
Proof.
  intros (Hio & Hrec & Hren & Hpg & Hcount) Hs.
  destruct Hs as [i inp s s' ws p p' Hi Hw]. unfold records_coherent.
  simpl in *.
  apply list_elem_of_lookup_2 in Hi as Hin.
  apply worker_step_records in Hw
    as (evs & recs & Ht & Hr & Hpg' & Hlen & Hrecs & Hrens & Hio').
  assert (∀ u, u ∈ gets (trace s) → u ∈ gets (trace s')) as Hmono.
  { intros u Hu. rewrite Ht, gets_app. apply elem_of_app. auto. }
  rewrite (count_phases_insert _ ws i p p' Hi).
  split; [|split; [|split; [|split]]].
  - intros q t h [-> |Hq]%elem_of_insert_inv ->.
    + rewrite Ht, gets_app. apply elem_of_app. right. eapply Hio'. reflexivity.
    + apply Hmono. eapply Hio; [exact Hq|reflexivity].
  - intros r. rewrite Hr. intros [Hx|Hx]%elem_of_app; [apply Hmono, Hrec, Hx|].
    destruct (Hrecs r Hx) as (t & h & -> & ->).
    apply Hmono. eapply Hio; [exact Hin|reflexivity].
  - intros u Hu. rewrite Ht, renders_app in Hu.
    apply elem_of_app in Hu as [Hx|Hx]; [apply Hmono, Hren, Hx|].
    destruct (Hrens u Hx) as (t & h & -> & ->).
    apply Hmono. eapply Hio; [exact Hin|reflexivity].
  - rewrite Hr, length_app. lia.
  - rewrite Hr, Ht, gets_app, !length_app. lia.
Qed.

Lemma records_coherent_reachable (sys : System) :
  reachable C cfg sys → records_coherent sys.
Proof.
  revert sys. apply reachable_ind; [apply records_coherent_initial|].
  intros sys sys' _ Hc Hs. eapply records_coherent_step; eassumption.
Qed.

(** Every record stored and every page rendered is of a page that was
    requested; the page counter never exceeds the number of records, nor
    the number of records the number of requests. *)
Theorem records_follow_requests (sys : System) :
  reachable C cfg sys →
  (0 ≤ pages_processed sys.1 ≤ Z.of_nat (length (records sys.1)))%Z ∧
  (length (records sys.1) ≤ length (gets (trace sys.1)))%nat ∧
  (∀ r, r ∈ records sys.1 → rec_url r ∈ gets (trace sys.1)) ∧
  (∀ u, u ∈ renders (trace sys.1) → u ∈ gets (trace sys.1)).
Proof.
  intros (_ & Hrec & Hren & Hpg & Hcount)%records_coherent_reachable.
  pose proof (count_phases_nonneg requesting sys.2).
  split; [exact Hpg|]. split; [lia|]. auto.
Qed.

End Records.

(** ** What a configuration switches off *)

Section Silence.
Context {E : Externals} (C : Collaborators) (cfg : Config).

Lemma page_effect_robots_gets (u : string) (s s' : State) :
  page_effect u s s' → robots_gets (trace s') = robots_gets (trace s).
Proof.
  intros (_ & _ & _ & _ & evs & recs & Ht & _ & Hro & _).
  rewrite Ht, robots_gets_app, Hro, app_nil_r. reflexivity.
Qed.

Lemma past_gate_silent (f : list event → list string) (t : CrawlTask)
  (s s' : State) (p' : phase) :
  (∀ a b, f (a ++ b) = f a ++ f b) → (∀ u, f [Get u] = []) →
  ((trace s' = trace s ∧
    (p' = AwaitGlobal t ∨ (∃ h, p' = AwaitHost t h) ∨ ∃ e, p' = Crashed e)) ∨
   (trace s' = trace s ++ [Get (url t)] ∧ ∃ h, p' = AwaitIO t h)) →
  f (trace s') = f (trace s).
Proof.
  intros Happ Hget [[-> _]|[-> _]]; [reflexivity|].
  rewrite Happ, Hget, app_nil_r. reflexivity.
Qed.

Lemma worker_step_robots_gets (p p' : phase) (inp : Input) (s s' : State) :
  robots cfg = false →
  worker_step C cfg p inp s = (s', p') →
  robots_gets (trace s') = robots_gets (trace s).
Proof.
  intros Hoff.
  destruct p as [|t base|t|t host|t host| |e]; intros H.
  - apply idle_cases in H as [[-> _]|(t & rest & Hq & H)]; [reflexivity|].
    apply handle_task_cases in H
      as [[-> _]|(_ & _ & _ & _ & [(Hon & _)|[_ H]])];
      [reflexivity|congruence|].
    apply acquire_global_frame in H as (_ & _ & _ & _ & _ & _ & H).
    apply (past_gate_silent robots_gets) in H;
      [exact H|apply robots_gets_app|reflexivity].
  - simpl in H. apply robots_reply_cases in H
      as [[-> _]|(rp & _ & [[-> _]|[_ H]])]; [reflexivity..|].
    apply acquire_global_frame in H as (_ & _ & _ & _ & _ & _ & H).
    apply (past_gate_silent robots_gets) in H;
      [exact H|apply robots_gets_app|reflexivity].
  - simpl in H.
    apply acquire_global_frame in H as (_ & _ & _ & _ & _ & _ & H).
    apply (past_gate_silent robots_gets) in H;
      [exact H|apply robots_gets_app|reflexivity].
  - simpl in H. apply acquire_host_frame in H as (_ & _ & _ & _ & _ & _ & H).
    destruct H as [[-> _]|[-> _]]; [reflexivity|].
    rewrite robots_gets_app, app_nil_r. reflexivity.
  - simpl in H. apply finish_io_effect in H as (s1 & Hpe & -> & _).
    apply page_effect_robots_gets in Hpe. exact Hpe.
  - inversion H; subst. reflexivity.
  - inversion H; subst. reflexivity.
Qed.

(** With the robots check switched off, no robots document is requested. *)
Theorem no_robots_request_when_disabled (sys : System) :
  robots cfg = false →
  reachable C cfg sys →
  robots_gets (trace sys.1) = [].
Proof.
  intros Hoff. revert sys. apply reachable_ind.
  - simpl. rewrite run_seeds_trace. simpl.
    induction (start_urls cfg) as [|u rest IH]; simpl; auto.
  - intros sys sys' _ IH Hs.
    destruct Hs as [i inp s s' ws p p' Hi Hw]. simpl in *.
    rewrite (worker_step_robots_gets _ _ _ _ _ Hoff Hw). exact IH.
Qed.

Lemma enqueue_links_renders (page_url : string) (hrefs : list string)
  (s s' : State) (r : outcome unit) :
  enqueue_links cfg page_url hrefs s = (s', r) →
  renders (trace s') = renders (trace s).
Proof.
  revert s. induction hrefs as [|href rest IH]; intros s; simpl.
  - intros [= <- _]. reflexivity.
  - destruct (normalize_url page_url href) as [[norm|]|e];
      [|apply IH|intros [= <- _]; reflexivity].
    destruct (Str.is_empty norm); [apply IH|].
    destruct (bool_decide (norm ∈ enqueued s) || bool_decide (norm ∈ visited s));
      [apply IH|].
    destruct (is_allowed_domain norm (allowed_domains cfg)) as [[]|e];
      [|apply IH|intros [= <- _]; reflexivity].
    intros H. apply IH in H. rewrite H. simpl.
    rewrite renders_app, app_nil_r. reflexivity.
Qed.

Lemma process_page_renders (page_url html : string) (inp : Input)
  (s s' : State) (r : outcome unit) :
  process_page C cfg page_url html inp s = (s', r) →
  renders (trace s') = renders (trace s).
Proof.
  unfold process_page.
  destruct (extract_links C html page_url) as [links|e];
    [|intros [= <- _]; reflexivity].
  destruct (extract_pagination_next_links C html page_url) as [next|e];
    [|intros [= <- _]; reflexivity].
  destruct (in_saved inp) as [html_path|e]; [|intros [= <- _]; reflexivity].
  destruct (in_appended inp) as [[]|e]; [|intros [= <- _]; reflexivity].
  intros H. apply enqueue_links_renders in H. exact H.
Qed.

Lemma no_render_pass (html : option string) :
  render cfg ≠ "always" → render cfg ≠ "auto" →
  needs_render C cfg html && has_playwright cfg = false.
Proof.
  intros H1%String.eqb_neq H2%String.eqb_neq. unfold needs_render.
  rewrite H1, H2. reflexivity.
Qed.

Lemma fetch_and_process_renders (t : CrawlTask) (inp : Input)
  (s s' : State) (r : outcome unit) :
  render cfg ≠ "always" → render cfg ≠ "auto" →
  fetch_and_process C cfg t inp s = (s', r) →
  renders (trace s') = renders (trace s).
Proof.
  intros H1 H2. unfold fetch_and_process, render_pass.
  destruct (fetch_http (in_http inp)) as [http_result|e];
    [|intros [= <- _]; reflexivity].
  rewrite (no_render_pass _ H1 H2).
  destruct (no_html (fst <$> http_result)); [intros [= <- _]; reflexivity|].
  destruct (process_page C cfg (url t) (default "" (fst <$> http_result)) inp s)
    as [s2 r2] eqn:Hp.
  apply process_page_renders in Hp.
  destruct r2 as [[]|e]; intros [= <- _]; simpl; exact Hp.
Qed.

Lemma worker_step_renders (p p' : phase) (inp : Input) (s s' : State) :
  render cfg ≠ "always" → render cfg ≠ "auto" →
  worker_step C cfg p inp s = (s', p') →
  renders (trace s') = renders (trace s).
Proof.
  intros Hr1 Hr2.
  destruct p as [|t base|t|t host|t host| |e]; intros H.
  - apply idle_cases in H as [[-> _]|(t & rest & Hq & H)]; [reflexivity|].
    apply handle_task_cases in H
      as [[-> _]|(_ & _ & _ & _ & [(_ & parsed & _ & _ & -> & _)|[_ H]])];
      [reflexivity| |].
    + simpl. rewrite renders_app, app_nil_r. reflexivity.
    + apply acquire_global_frame in H as (_ & _ & _ & _ & _ & _ & H).
      apply (past_gate_silent renders) in H;
        [exact H|apply renders_app|reflexivity].
  - simpl in H. apply robots_reply_cases in H
      as [[-> _]|(rp & _ & [[-> _]|[_ H]])]; [reflexivity..|].
    apply acquire_global_frame in H as (_ & _ & _ & _ & _ & _ & H).
    apply (past_gate_silent renders) in H;
      [exact H|apply renders_app|reflexivity].
  - simpl in H.
    apply acquire_global_frame in H as (_ & _ & _ & _ & _ & _ & H).
    apply (past_gate_silent renders) in H;
      [exact H|apply renders_app|reflexivity].
  - simpl in H. apply acquire_host_frame in H as (_ & _ & _ & _ & _ & _ & H).
    destruct H as [[-> _]|[-> _]]; [reflexivity|].
    rewrite renders_app, app_nil_r. reflexivity.
  - simpl in H. unfold finish_io in H.
    destruct (fetch_and_process C cfg t inp s) as [s1 r] eqn:Hf.
    apply (fetch_and_process_renders _ _ _ _ _ Hr1 Hr2) in Hf.
    destruct r; inversion H; subst; simpl; exact Hf.
  - inversion H; subst. reflexivity.
  - inversion H; subst. reflexivity.
Qed.

(** Unless the render mode is [always] or [auto], no page is handed to
    the renderer. *)
Theorem no_rendering_unless_asked (sys : System) :
  render cfg ≠ "always" → render cfg ≠ "auto" →
  reachable C cfg sys →
  renders (trace sys.1) = [].
Proof.
  intros Hr1 Hr2. revert sys. apply reachable_ind.
  - simpl. rewrite run_seeds_trace. simpl. apply renders_seeds.
  - intros sys sys' _ IH Hs.
    destruct Hs as [i inp s s' ws p p' Hi Hw]. simpl in *.
    rewrite (worker_step_renders _ _ _ _ _ Hr1 Hr2 Hw). exact IH.
Qed.

End Silence.

(** ** Pages requested twice *)

Lemma omap_insert_perm {A B : Type} (f : A → option B) (l : list A)
  (i : nat) (x y : A) :
  l !! i = Some x →
  ∃ W, omap f l ≡ₚ option_list (f x) ++ W ∧
       omap f (<[i := y]> l) ≡ₚ option_list (f y) ++ W.
Proof.
  revert i. induction l as [|a l IH]; intros [|i] Hi; simpl in *;
    try discriminate.
  - inversion Hi; subst. exists (omap f l).
    split; [destruct (f x)|destruct (f y)]; reflexivity.
  - destruct (IH i Hi) as (W & H1 & H2). exists (option_list (f a) ++ W).
    split.
    + transitivity (option_list (f a) ++ omap f l);
        [destruct (f a); reflexivity|].
      rewrite H1. apply Permutation_app_swap_app.
    + transitivity (option_list (f a) ++ omap f (<[i:=y]> l));
        [destruct (f a); reflexivity|].
      rewrite H2. apply Permutation_app_swap_app.
Qed.

Section Once.
Context {E : Externals} (C : Collaborators) (cfg : Config).

Lemma page_effect_gets (u : string) (s s' : State) :
  page_effect u s s' → gets (trace s') = gets (trace s).
Proof.
  intros (_ & _ & _ & _ & evs & recs & Ht & Hg & _).
  rewrite Ht, gets_app, Hg, app_nil_r. reflexivity.
Qed.

(** Without the robots check, one step moves the page of the worker from
    the waiting pages to the requests, keeps it, drops it, or adds a page
    that was not visited before. *)
Lemma worker_step_once (p p' : phase) (inp : Input) (s s' : State) :
  robots cfg = false → awaits_robots p = false →
  worker_step C cfg p inp s = (s', p') →
  awaits_robots p' = false ∧ visited s ⊆ visited s' ∧
  ∃ g, gets (trace s') = gets (trace s) ++ g ∧
    (option_list (url <$> waiting_task p') ++ g
     = option_list (url <$> waiting_task p) ∨
     option_list (url <$> waiting_task p') ++ g = [] ∨
     (waiting_task p = None ∧
      ∃ u, option_list (url <$> waiting_task p') ++ g = [u] ∧
           (u ∉ visited s) ∧ u ∈ visited s')).
Proof.
  intros Hoff Hp.
  assert (∀ t s0,
    (visited s' = visited s0 ∧
     ((trace s' = trace s0 ∧
       (p' = AwaitGlobal t ∨ (∃ h, p' = AwaitHost t h) ∨
        ∃ e, p' = Crashed e)) ∨
      (trace s' = trace s0 ++ [Get (url t)] ∧ ∃ h, p' = AwaitIO t h))) →
    gets (trace s0) = gets (trace s) →
    awaits_robots p' = false ∧
    ∃ g, gets (trace s') = gets (trace s) ++ g ∧
         (option_list (url <$> waiting_task p') ++ g = [url t] ∨
          option_list (url <$> waiting_task p') ++ g = [])) as Hgate.
  { intros t s0 (Hv & Hmove) Hg.
    destruct Hmove as [[Ht [-> |[[h ->]|[e ->]]]]|[Ht [h ->]]];
      (split; [reflexivity|]); rewrite Ht, ?gets_app, Hg; simpl.
    - exists []. rewrite app_nil_r. auto.
    - exists []. rewrite app_nil_r. auto.
    - exists []. rewrite app_nil_r. auto.
    - exists [url t]. auto. }
  destruct p as [|t base|t|t host|t host| |e]; try discriminate; intros H.
  - apply idle_cases in H as [[-> Hp']|(t & rest & Hq & H)].
    { split; [destruct Hp' as [-> | ->]; reflexivity|]. split; [reflexivity|].
      exists []. rewrite app_nil_r. split; [reflexivity|].
      right. left. destruct Hp' as [-> | ->]; reflexivity. }
    apply handle_task_cases in H
      as [[-> Hp']|(_ & Hnv & _ & _ & [(Hon & _)|[_ H]])]; [|congruence|].
    { split; [destruct Hp' as [-> |[e ->]]; reflexivity|].
      split; [reflexivity|].
      exists []. rewrite app_nil_r. split; [reflexivity|].
      right. left. destruct Hp' as [-> |[e ->]]; reflexivity. }
    apply acquire_global_frame in H as (Hv & _ & _ & _ & _ & _ & H).
    destruct (Hgate t _ (conj Hv H) eq_refl) as (Hr & g & Hg & Hcase).
    simpl in Hv, Hnv. split; [exact Hr|].
    split; [rewrite Hv; apply union_subseteq_l|].
    exists g. split; [exact Hg|].
    destruct Hcase as [Hc|Hc]; [|auto]. right. right.
    split; [reflexivity|]. exists (url t). split; [exact Hc|].
    split; [exact Hnv|]. rewrite Hv. apply elem_of_union. right.
    apply elem_of_singleton. reflexivity.
  - simpl in H.
    apply acquire_global_frame in H as (Hv & _ & _ & _ & _ & _ & H).
    destruct (Hgate t _ (conj Hv H) eq_refl) as (Hr & g & Hg & Hcase).
    split; [exact Hr|]. split; [rewrite Hv; reflexivity|].
    exists g. split; [exact Hg|]. simpl. tauto.
  - simpl in H.
    apply acquire_host_frame in H as (Hv & _ & _ & _ & _ & _ & H).
    assert ((trace s' = trace s ∧
             (p' = AwaitGlobal t ∨ (∃ h, p' = AwaitHost t h) ∨
              ∃ e, p' = Crashed e)) ∨
            (trace s' = trace s ++ [Get (url t)] ∧ ∃ h, p' = AwaitIO t h))
      as H' by (destruct H as [[-> ->]|[-> ->]]; [left|right]; eauto).
    destruct (Hgate t _ (conj Hv H') eq_refl) as (Hr & g & Hg & Hcase).
    split; [exact Hr|]. split; [rewrite Hv; reflexivity|].
    exists g. split; [exact Hg|]. simpl. tauto.
  - simpl in H. apply finish_io_effect in H as (s1 & Hpe & -> & Hp').
    pose proof (page_effect_gets _ _ _ Hpe) as Hg.
    destruct Hpe as (Hv & _).
    split; [destruct Hp' as [-> |[e ->]]; reflexivity|].
    split; [simpl; rewrite Hv; reflexivity|].
    exists []. simpl. rewrite app_nil_r. split; [exact Hg|].
    left. destruct Hp' as [-> |[e ->]]; reflexivity.
  - inversion H; subst. split; [reflexivity|]. split; [reflexivity|].
    exists []. rewrite app_nil_r. auto.
  - inversion H; subst. split; [reflexivity|]. split; [reflexivity|].
    exists []. rewrite app_nil_r. auto.
Qed.

(** With the robots check switched off, no page is requested twice. *)
Theorem no_page_requested_twice (sys : System) :
  robots cfg = false →
  reachable C cfg sys →
  NoDup (gets (trace sys.1)).
Proof.
  intros Hoff Hr.
  assert (Forall (λ p, awaits_robots p = false) sys.2 ∧
          NoDup (pending sys.2 ++ gets (trace sys.1)) ∧
          ∀ u, u ∈ pending sys.2 ++ gets (trace sys.1) → u ∈ visited sys.1)
    as (_ & Hnd & _).
  { revert sys Hr. apply reachable_ind.
    - simpl. rewrite run_seeds_trace. simpl. rewrite gets_seeds, app_nil_r.
      assert (pending (replicate (num_workers cfg) Idle) = []) as ->.
      { unfold pending. induction (num_workers cfg); simpl; auto. }
      split; [apply Forall_replicate; reflexivity|].
      split; [constructor|]. intros u Hu. inversion Hu.
    - intros sys sys' _ (Hall & Hnd & Hvis) Hs.
      destruct Hs as [i inp s s' ws p p' Hi Hw]. simpl in *.
      pose proof (Forall_lookup_1 _ _ _ _ Hall Hi) as Hp. simpl in Hp.
      apply (worker_step_once _ _ _ _ _ Hoff Hp) in Hw
        as (Hp' & Hsub & g & Hg & Hcase).
      destruct (omap_insert_perm (λ p, url <$> waiting_task p) ws i p p' Hi)
        as (W & HW & HW').
      unfold pending in *. rewrite HW in Hnd.
      assert (∀ u, u ∈ option_list (url <$> waiting_task p) ++ W
                         ++ gets (trace s) → u ∈ visited s) as Hvis'.
      { intros u Hu. apply Hvis. rewrite HW, <- app_assoc. exact Hu. }
      rewrite <- app_assoc in Hnd.
      split; [apply Forall_insert; assumption|].
      assert (omap (λ p, url <$> waiting_task p) (<[i:=p']> ws)
                ++ gets (trace s')
              ≡ₚ (option_list (url <$> waiting_task p') ++ g)
                   ++ W ++ gets (trace s)) as Hperm.
      { rewrite HW', Hg, <- !app_assoc. f_equiv.
        rewrite (app_assoc W). apply Permutation_app_comm. }
      destruct Hcase as [Hc|[Hc|(Hw0 & u0 & Hc & Hnv & Hv)]];
        rewrite Hc in Hperm.
      + split; [rewrite Hperm; exact Hnd|].
        intros u Hu. rewrite Hperm in Hu. apply Hsub, Hvis', Hu.
      + apply NoDup_app in Hnd as (_ & _ & Hnd). simpl in Hperm.
        split; [rewrite Hperm; exact Hnd|].
        intros u Hu. rewrite Hperm in Hu. apply Hsub, Hvis'.
        apply elem_of_app. right. exact Hu.
      + rewrite Hw0 in Hnd, Hvis'. simpl in *.
        split.
        * rewrite Hperm. apply NoDup_cons. split; [|exact Hnd].
          intros Hin. apply Hnv, Hvis', Hin.
        * intros u Hu. rewrite Hperm in Hu.
          apply elem_of_cons in Hu as [-> |Hu]; [exact Hv|].
          apply Hsub, Hvis', Hu. }
  apply NoDup_app in Hnd as (_ & _ & Hnd). exact Hnd.
Qed.

End Once.

(** With the check switched on it can happen: two workers take the same
    seed, both wait for the robots document, and both request the page. *)
Example page_requested_twice :
  gets (trace (@exec plain_externals bare_collaborators twice_seeded
                 [(0%nat, robots_fine); (1%nat, robots_fine);
                  (0%nat, robots_fine); (1%nat, robots_fine)]).1)
  = ["http://x.com/"; "http://x.com/"].
Proof. vm_compute. reflexivity. Qed.

(** ** Robots documents come first *)

Lemma app_eq_snoc_inv {A : Type} (l pre post : list A) (x y : A) :
  l ++ [y] = pre ++ x :: post →
  (post = [] ∧ pre = l ∧ x = y) ∨
  (∃ post', post = post' ++ [y] ∧ l = pre ++ x :: post').
Proof.
  induction post as [|z post' _] using rev_ind; intros H.
  - left. apply app_inj_tail in H as [-> ->]. auto.
  - right. rewrite app_comm_cons, app_assoc in H.
    apply app_inj_tail in H as [-> ->]. eauto.
Qed.

Lemma app_eq_quiet_inv (l evs pre post : list event) (u : string) :
  gets evs = [] → l ++ evs = pre ++ Get u :: post →
  ∃ post', l = pre ++ Get u :: post'.
Proof.
  revert post. induction evs as [|e evs IH] using rev_ind; intros post Hg H.
  - rewrite app_nil_r in H. eauto.
  - rewrite gets_app in Hg. apply app_eq_nil in Hg as [Hg1 Hg2].
    rewrite app_assoc in H.
    apply app_eq_snoc_inv in H as [(_ & _ & <-)|(post' & -> & H)];
      [discriminate|].
    eapply IH; eassumption.
Qed.

Section RobotsFirst.
Context {E : Externals} (C : Collaborators) (cfg : Config).

Lemma robots_url_base (u : string) (parsed : ParseResult) :
  urlparse u "" = Return parsed →
  robots_url u
  = Return ((scheme parsed +:+ "://" +:+ netloc parsed) +:+ "/robots.txt").
Proof. intros H. unfold robots_url. rewrite H. reflexivity. Qed.

(** What one step does to the robots cache and to the workers' knowledge
    of robots documents, with the check switched on *)
Lemma worker_step_robots (p p' : phase) (inp : Input) (s s' : State) :
  robots cfg = true →
  worker_step C cfg p inp s = (s', p') →
  ∃ evs, trace s' = trace s ++ evs ∧
    (gets evs = [] ∨ ∃ t, evs = [Get (url t)] ∧ task_of p' = Some t) ∧
    (∀ r, robots_doc p' = Some r → r ∈ robots_gets evs) ∧
    (∀ t, task_of p' = Some t →
          task_of p = Some t ∨
          ∃ r, robots_url (url t) = Return r ∧
               (r ∈ robots_gets evs ∨
                ∃ base rp, robots_parsers s !! base = Some rp ∧
                           r = base +:+ "/robots.txt")) ∧
    (∀ base rp, robots_parsers s' !! base = Some rp →
                is_Some (robots_parsers s !! base) ∨
                robots_doc p = Some (base +:+ "/robots.txt")).
Proof.
  intros Hon.
  assert (∀ evs, trace s' = trace s ++ evs → gets evs = [] →
                 robots_parsers s' = robots_parsers s →
                 task_of p' = None →
                 ∃ evs, trace s' = trace s ++ evs ∧
    (gets evs = [] ∨ ∃ t, evs = [Get (url t)] ∧ task_of p' = Some t) ∧
    (∀ r, robots_doc p' = Some r → r ∈ robots_gets evs) ∧
    (∀ t, task_of p' = Some t →
          task_of p = Some t ∨
          ∃ r, robots_url (url t) = Return r ∧
               (r ∈ robots_gets evs ∨
                ∃ base rp, robots_parsers s !! base = Some rp ∧
                           r = base +:+ "/robots.txt")) ∧
    (∀ base rp, robots_parsers s' !! base = Some rp →
                is_Some (robots_parsers s !! base) ∨
                robots_doc p = Some (base +:+ "/robots.txt"))) as Hstill.
  { intros evs Ht Hg Hrp Hnone. exists evs. split; [exact Ht|].
    split; [auto|]. rewrite Hnone, Hrp.
    split; [destruct p'; simpl in *; try discriminate; intros ? [=]|].
    split; [intros ? [=]|]. intros base rp Hb. left. eauto. }
  assert (∀ t s0,
    (robots_parsers s' = robots_parsers s0 ∧
     ((trace s' = trace s0 ∧
       (p' = AwaitGlobal t ∨ (∃ h, p' = AwaitHost t h) ∨
        ∃ e, p' = Crashed e)) ∨
      (trace s' = trace s0 ++ [Get (url t)] ∧ ∃ h, p' = AwaitIO t h))) →
    trace s0 = trace s →
    (∀ base rp, robots_parsers s0 !! base = Some rp →
                is_Some (robots_parsers s !! base) ∨
                robots_doc p = Some (base +:+ "/robots.txt")) →
    (task_of p = Some t ∨
     ∃ r, robots_url (url t) = Return r ∧
          ∃ base rp, robots_parsers s !! base = Some rp ∧
                     r = base +:+ "/robots.txt") →
    ∃ evs, trace s' = trace s ++ evs ∧
    (gets evs = [] ∨ ∃ t, evs = [Get (url t)] ∧ task_of p' = Some t) ∧
    (∀ r, robots_doc p' = Some r → r ∈ robots_gets evs) ∧
    (∀ t, task_of p' = Some t →
          task_of p = Some t ∨
          ∃ r, robots_url (url t) = Return r ∧
               (r ∈ robots_gets evs ∨
                ∃ base rp, robots_parsers s !! base = Some rp ∧
                           r = base +:+ "/robots.txt")) ∧
    (∀ base rp, robots_parsers s' !! base = Some rp →
                is_Some (robots_parsers s !! base) ∨
                robots_doc p = Some (base +:+ "/robots.txt"))) as Hgate.
  { intros t s0 (Hrp & Hmove) Ht0 Hcache Hknown. rewrite Hrp.
    assert (∀ t', task_of p' = Some t' → t' = t) as Hsame.
    { intros t'. destruct Hmove as [[_ [-> |[[h ->]|[e ->]]]]|[_ [h ->]]];
        simpl; congruence. }
    assert (robots_doc p' = None) as Hdoc.
    { destruct Hmove as [[_ [-> |[[h ->]|[e ->]]]]|[_ [h ->]]]; reflexivity. }
    destruct Hmove as [[Ht _]|[Ht [h ->]]]; rewrite Ht, Ht0.
    - exists []. rewrite app_nil_r. split; [reflexivity|]. split; [auto|].
      rewrite Hdoc. split; [intros ? [=]|]. split; [|exact Hcache].
      intros t' Ht'. rewrite (Hsame t' Ht').
      destruct Hknown as [Hk|(r & Hr & Hk)]; [auto|]. right. eauto.
    - exists [Get (url t)]. split; [reflexivity|]. split; [right; eauto|].
      split; [intros ? [=]|]. split; [|exact Hcache].
      intros t' [= <-].
      destruct Hknown as [Hk|(r & Hr & Hk)]; [auto|]. right. eauto. }
  destruct p as [|t base|t|t host|t host| |e]; intros H.
  - apply idle_cases in H as [[-> Hp']|(t & rest & Hq & H)].
    { apply (Hstill []); [rewrite app_nil_r|..]; try reflexivity.
      destruct Hp' as [-> | ->]; reflexivity. }
    apply handle_task_cases in H
      as [[-> Hp']|(_ & _ & _ & _ & [(_ & parsed & Hu & Hmiss & -> & ->)|[Hwhy H]])].
    + apply (Hstill []); [rewrite app_nil_r|..]; try reflexivity.
      destruct Hp' as [-> |[e ->]]; reflexivity.
    + eexists [_]. simpl. split; [reflexivity|]. split; [auto|].
      split; [intros r [= <-]; apply list_elem_of_singleton; reflexivity|].
      split.
      * intros t' [= <-]. right. eexists. split; [apply robots_url_base, Hu|].
        left. apply list_elem_of_singleton. reflexivity.
      * intros base rp Hb. left. eauto.
    + destruct Hwhy as [Hoff|(parsed & rp & Hu & Hhit & _)]; [congruence|].
      apply acquire_global_frame in H as (_ & _ & _ & H4 & _ & _ & H7).
      apply (Hgate t _ (conj H4 H7)); [reflexivity| |].
      * intros base rp' Hb. left. eauto.
      * right. eexists. split; [apply robots_url_base, Hu|]. eauto.
  - simpl in H. apply robots_reply_cases in H
      as [[-> [e ->]]|(rp & _ & [[-> Hp']|[_ H]])].
    + apply (Hstill []); [rewrite app_nil_r|..]; reflexivity.
    + exists []. simpl. rewrite app_nil_r. split; [reflexivity|].
      split; [auto|].
      split; [destruct Hp' as [-> |[e ->]]; intros ? [=]|].
      split; [destruct Hp' as [-> |[e ->]]; intros ? [=]|].
      intros b rp'. destruct (decide (base = b)) as [-> |Hne].
      * auto.
      * rewrite lookup_insert_ne by assumption. left. eauto.
    + apply acquire_global_frame in H as (_ & _ & _ & H4 & _ & _ & H7).
      apply (Hgate t _ (conj H4 H7)); [reflexivity| |left; reflexivity].
      simpl. intros b rp'. destruct (decide (base = b)) as [-> |Hne].
      * auto.
      * rewrite lookup_insert_ne by assumption. left. eauto.
  - simpl in H.
    apply acquire_global_frame in H as (_ & _ & _ & H4 & _ & _ & H7).
    apply (Hgate t s (conj H4 H7)); [reflexivity| |left; reflexivity].
    intros b rp' Hb. left. eauto.
  - simpl in H.
    apply acquire_host_frame in H as (_ & _ & _ & H4 & _ & _ & H7).
    apply (Hgate t s); [|reflexivity| |left; reflexivity].
    + split; [exact H4|].
      destruct H7 as [[-> ->]|[-> ->]]; [left|right]; eauto.
    + intros b rp' Hb. left. eauto.
  - simpl in H. apply finish_io_effect in H
      as (s1 & (_ & Hrp & _ & _ & evs & recs & Ht & Hg & _) & -> & Hp').
    apply (Hstill evs); simpl; try assumption.
    destruct Hp' as [-> |[e ->]]; reflexivity.
  - inversion H; subst.
    apply (Hstill []); [rewrite app_nil_r|..]; reflexivity.
  - inversion H; subst.
    apply (Hstill []); [rewrite app_nil_r|..]; reflexivity.
Qed.

Lemma robots_gets_seeds (urls : list string) :
  robots_gets (map (λ u, Put (mkTask u 0)) urls) = [].
Proof. induction urls as [|u rest IH]; simpl; auto. Qed.

Lemma run_seeds_robots_parsers (urls : list string) (s : State) :
  robots_parsers (run_seeds urls s) = robots_parsers s.
Proof.
  revert s. induction urls as [|u rest IH]; intros s; simpl; [reflexivity|].
  rewrite IH. reflexivity.
Qed.

(** With the robots check switched on, every page request comes after a
    request for the robots document of the page's origin. *)
Theorem robots_document_requested_first (sys : System)
  (pre post : list event) (u : string) :
  robots cfg = true →
  reachable C cfg sys →
  trace sys.1 = pre ++ Get u :: post →
  ∃ r, robots_url u = Return r ∧ r ∈ robots_gets pre.
Proof.
  intros Hon Hr.
  assert ((∀ p r, p ∈ sys.2 → robots_doc p = Some r →
                  r ∈ robots_gets (trace sys.1)) ∧
          (∀ p t, p ∈ sys.2 → task_of p = Some t → asked sys.1 t) ∧
          (∀ base rp, robots_parsers sys.1 !! base = Some rp →
                      (base +:+ "/robots.txt") ∈ robots_gets (trace sys.1)) ∧
          robots_first (trace sys.1)) as (_ & _ & _ & Hfirst).
  { clear pre post u. revert sys Hr. apply reachable_ind.
    - simpl. rewrite run_seeds_trace, run_seeds_robots_parsers. simpl.
      split; [intros p r [-> _]%elem_of_replicate [=]|].
      split; [intros p t [-> _]%elem_of_replicate [=]|].
      split; [intros base rp; rewrite lookup_empty; intros [=]|].
      intros pre u post Heq. exfalso.
      assert (Get u ∈ map (λ u, Put (mkTask u 0)) (start_urls cfg)) as Hin.
      { rewrite Heq. apply elem_of_app. right. left. }
      apply list_elem_of_fmap in Hin as (x & [=] & _).
    - intros sys sys' _ (Hdoc & Htask & Hcache & Hfirst) Hs.
      destruct Hs as [i inp s s' ws p p' Hi Hw]. simpl in *.
      apply list_elem_of_lookup_2 in Hi as Hin.
      apply (worker_step_robots _ _ _ _ _ Hon) in Hw
        as (evs & Ht & Hg & Hdoc' & Htask' & Hcache').
      assert (∀ r, r ∈ robots_gets (trace s) → r ∈ robots_gets (trace s'))
        as Hmono.
      { intros r Hr. rewrite Ht, robots_gets_app. apply elem_of_app. auto. }
      assert (∀ r, r ∈ robots_gets evs → r ∈ robots_gets (trace s')) as Hnew.
      { intros r Hr. rewrite Ht, robots_gets_app. apply elem_of_app. auto. }
      assert (∀ t, task_of p' = Some t →
                   ∃ r, robots_url (url t) = Return r ∧
                        (r ∈ robots_gets (trace s) ∨ r ∈ robots_gets evs))
        as Hp'.
      { intros t Ht'. destruct (Htask' t Ht') as [Hold|(r & Hr1 & Hr2)].
        - destruct (Htask p t Hin Hold) as (r & Hr1 & Hr2). eauto.
        - exists r. split; [exact Hr1|].
          destruct Hr2 as [Hr2|(base & rp & Hb & ->)]; [auto|].
          left. eapply Hcache, Hb. }
      split; [|split; [|split]].
      + intros q r [-> |Hq]%elem_of_insert_inv Hr'.
        * apply Hnew, Hdoc', Hr'.
        * eapply Hmono, Hdoc; eassumption.
      + intros q t [-> |Hq]%elem_of_insert_inv Hq'.
        * destruct (Hp' t Hq') as (r & Hr1 & [Hr2|Hr2]);
            exists r; (split; [exact Hr1|]); auto.
        * destruct (Htask q t Hq Hq') as (r & Hr1 & Hr2).
          exists r. split; [exact Hr1|]. apply Hmono, Hr2.
      + intros base rp Hb. destruct (Hcache' base rp Hb) as [[rp0 Hold]|Hd].
        * eapply Hmono, Hcache, Hold.
        * eapply Hmono, Hdoc; eassumption.
      + intros pre u post Heq. rewrite Ht in Heq.
        destruct Hg as [Hg|(t & -> & Ht')].
        * apply app_eq_quiet_inv in Heq as [post' Heq]; [|exact Hg].
          apply (Hfirst pre u post' Heq).
        * apply app_eq_snoc_inv in Heq as [(_ & -> & Hu)|(post' & _ & Heq)];
            [|apply (Hfirst pre u post' Heq)].
          inversion Hu; subst u.
          destruct (Hp' t Ht') as (r & Hr1 & [Hr2|Hr2]); [eauto|].
          inversion Hr2. }
  intros Heq. apply (Hfirst pre u post Heq).
Qed.

End RobotsFirst.

(** ** A crawl without robots documents *)

Section Closed.
Context {E : Externals} (C : Collaborators) (cfg : Config).

Lemma fetched_parser_unreachable (inp : Input) (rp : RobotFileParser) :
  robots_unreachable inp →
  fetched_parser C (in_robots inp) = Return rp →
  ∀ useragent u, can_fetch rp useragent u = Return false.
Proof.
  intros [Hs He]. unfold fetched_parser.
  destruct (in_robots inp) as [r|e].
  - destruct (Z.eqb_spec (status_code r) 200) as [H200|_];
      [destruct (Hs r eq_refl H200)|].
    intros [= <-]. reflexivity.
  - rewrite (He e eq_refl). intros [= <-]. reflexivity.
Qed.

Lemma worker_step_closed (p p' : phase) (inp : Input) (s s' : State) :
  robots cfg = true → robots_unreachable inp →
  admitted_task p = None →
  (∀ base rp, robots_parsers s !! base = Some rp →
              ∀ useragent u, can_fetch rp useragent u = Return false) →
  worker_step C cfg p inp s = (s', p') →
  admitted_task p' = None ∧
  (∀ base rp, robots_parsers s' !! base = Some rp →
              ∀ useragent u, can_fetch rp useragent u = Return false) ∧
  gets (trace s') = gets (trace s) ∧ visited s' = visited s ∧
  pages_processed s' = pages_processed s ∧ records s' = records s.
Proof.
  intros Hon Hun Hp Hcache.
  destruct p as [|t base|t|t host|t host| |e]; try discriminate; intros H.
  - apply idle_cases in H as [[-> Hp']|(t & rest & Hq & H)].
    { split; [destruct Hp' as [-> | ->]; reflexivity|]. repeat split; auto. }
    apply handle_task_cases in H
      as [[-> Hp']|(_ & _ & _ & _ & [(_ & parsed & _ & _ & -> & ->)|[Hwhy H]])].
    + split; [destruct Hp' as [-> |[e ->]]; reflexivity|]. repeat split; auto.
    + simpl. rewrite gets_app, app_nil_r. repeat split; auto.
    + destruct Hwhy as [Hoff|(parsed & rp & _ & Hhit & Hyes)]; [congruence|].
      rewrite (Hcache _ _ Hhit) in Hyes. discriminate.
  - simpl in H. apply robots_reply_cases in H
      as [[-> [e ->]]|(rp & Hrp & [[-> Hp']|[Hyes H]])].
    + repeat split; auto.
    + pose proof (fetched_parser_unreachable inp rp Hun Hrp) as Hno.
      split; [destruct Hp' as [-> |[e ->]]; reflexivity|].
      split; [|repeat split; auto]. simpl. intros b rp'.
      destruct (decide (base = b)) as [-> |Hne].
      * rewrite lookup_insert_eq. intros [= <-]. exact Hno.
      * rewrite lookup_insert_ne by assumption. apply Hcache.
    + rewrite (fetched_parser_unreachable inp rp Hun Hrp) in Hyes.
      discriminate.
  - inversion H; subst. repeat split; auto.
  - inversion H; subst. repeat split; auto.
Qed.

(** With the robots check switched on, a crawl in which no robots
    document is retrieved (every such request is answered with a status
    other than 200 or raises an [Exception]) requests no page, marks none
    visited and stores no record. *)
Theorem crawl_without_robots_documents (schedule : list (nat * Input)) :
  robots cfg = true →
  Forall (λ x, robots_unreachable x.2) schedule →
  gets (trace (exec C cfg schedule).1) = [] ∧
  visited (exec C cfg schedule).1 = ∅ ∧
  pages_processed (exec C cfg schedule).1 = 0%Z ∧
  records (exec C cfg schedule).1 = [].
Proof.
  intros Hon Hall.
  assert (∀ sys,
    (Forall (λ p, admitted_task p = None) sys.2 ∧
     (∀ base rp, robots_parsers sys.1 !! base = Some rp →
                 ∀ useragent u, can_fetch rp useragent u = Return false) ∧
     gets (trace sys.1) = [] ∧ visited sys.1 = ∅ ∧
     pages_processed sys.1 = 0%Z ∧ records sys.1 = []) →
    let sys' := fold_left (exec_step C cfg) schedule sys in
    gets (trace sys'.1) = [] ∧ visited sys'.1 = ∅ ∧
    pages_processed sys'.1 = 0%Z ∧ records sys'.1 = []) as Hgen.
  { induction Hall as [|[i inp] rest Hinp Hrest IH]; intros sys Hinv; simpl.
    - tauto.
    - apply IH. destruct Hinv as (Hws & Hcache & Hg & Hv & Hpg & Hrec).
      unfold exec_step. simpl. destruct sys as [s ws]. simpl in *.
      destruct (ws !! i) as [p|] eqn:Hi; [|simpl; repeat split; auto].
      destruct (worker_step C cfg p inp s) as [s' p'] eqn:Hw. simpl.
      pose proof (Forall_lookup_1 _ _ _ _ Hws Hi) as Hp. simpl in Hp.
      apply (worker_step_closed _ _ _ _ _ Hon Hinp Hp Hcache) in Hw
        as (Hp' & Hcache' & Hg' & Hv' & Hpg' & Hrec').
      split; [apply Forall_insert; assumption|].
      split; [exact Hcache'|]. rewrite Hg', Hv', Hpg', Hrec'.
      repeat split; auto. }
  apply Hgen. simpl.
  rewrite run_seeds_trace, run_seeds_robots_parsers, run_seeds_visited,
    run_seeds_pages, run_seeds_records. simpl. rewrite gets_seeds.
  split; [apply Forall_replicate; reflexivity|].
  split; [intros base rp; rewrite lookup_empty; intros [=]|].
  repeat split; auto.
Qed.

End Closed.

(** ** A permit that is not returned *)

(** [_host_semaphore] parses the address after the global permit has been
    taken and outside the [try]: for an address that does not parse the
    worker ends with the permit, and with one permit in all the next
    worker waits for ever. *)
Example unparsable_seed_keeps_the_permit :
  (@exec plain_externals bare_collaborators leaking_config
     [(0%nat, all_fine); (1%nat, all_fine); (1%nat, all_fine)]).2
  = [Crashed ValueError; AwaitGlobal (mkTask "http://x.com/" 0)] ∧
  global_permits
    (@exec plain_externals bare_collaborators leaking_config
       [(0%nat, all_fine); (1%nat, all_fine); (1%nat, all_fine)]).1 = 0%Z.
Proof. split; vm_compute; reflexivity. Qed.

(** ** The properties on example runs *)

Lemma global_permits_bound_witness :
  (0 ≤ global_permits
         (@exec plain_externals bare_collaborators racing_config
            [(0%nat, all_fine); (1%nat, all_fine)]).1)%Z ∧
  (global_permits
     (@exec plain_externals bare_collaborators racing_config
        [(0%nat, all_fine); (1%nat, all_fine)]).1
   + count_phases holds_global
       (@exec plain_externals bare_collaborators racing_config
          [(0%nat, all_fine); (1%nat, all_fine)]).2
   ≤ max_concurrency racing_config)%Z.
Proof.
  apply (@global_permits_bound plain_externals bare_collaborators
           racing_config).
  - simpl. lia.
  - apply exec_reachable.
Defined.

Lemma host_permits_bound_witness :
  (count_phases (holds_host "x.com")
     (@exec plain_externals bare_collaborators racing_config
        [(0%nat, all_fine); (1%nat, all_fine)]).2
   ≤ per_host_limit racing_config)%Z ∧
  ∀ v, host_permits
         (@exec plain_externals bare_collaborators racing_config
            [(0%nat, all_fine); (1%nat, all_fine)]).1 !! "x.com" = Some v →
       (0 ≤ v)%Z ∧
       (v + count_phases (holds_host "x.com")
              (@exec plain_externals bare_collaborators racing_config
                 [(0%nat, all_fine); (1%nat, all_fine)]).2
        ≤ per_host_limit racing_config)%Z ∧
       (count_phases (waits_host "x.com")
          (@exec plain_externals bare_collaborators racing_config
             [(0%nat, all_fine); (1%nat, all_fine)]).2 = 0%Z →
        (v + count_phases (holds_host "x.com")
               (@exec plain_externals bare_collaborators racing_config
                  [(0%nat, all_fine); (1%nat, all_fine)]).2
         = per_host_limit racing_config)%Z).
Proof.
  apply (@host_permits_bound plain_externals bare_collaborators
           racing_config).
  - simpl. lia.
  - apply exec_reachable.
Defined.

Lemma requests_are_legitimate_witness :
  "http://x.com/a"
    ∈ visited (@exec plain_externals bare_collaborators racing_config
                 [(0%nat, all_fine)]).1 ∧
  "http://x.com/a"
    ∈ enqueued (@exec plain_externals bare_collaborators racing_config
                  [(0%nat, all_fine)]).1 ∧
  @is_allowed_domain plain_externals "http://x.com/a"
    (allowed_domains racing_config) = Return true ∧
  ∃ t, t ∈ puts (trace (@exec plain_externals bare_collaborators
                          racing_config [(0%nat, all_fine)]).1) ∧
       url t = "http://x.com/a" ∧ (depth t ≤ max_depth racing_config)%Z.
Proof.
  apply (@requests_are_legitimate plain_externals bare_collaborators
           racing_config).
  - apply exec_reachable.
  - vm_compute. left.
Defined.

Lemma depth_limit_never_applies_witness :
  (0 ≤ depth (mkTask "http://x.com/b" 0) ≤ 1)%Z ∧
  (max_depth racing_config <? depth (mkTask "http://x.com/b" 0))%Z = false.
Proof.
  apply (@depth_limit_never_applies plain_externals bare_collaborators
           racing_config (initial racing_config)).
  - simpl. lia.
  - unfold reachable. reflexivity.
  - vm_compute. right. left.
Defined.

Lemma records_follow_requests_witness :
  (0 ≤ pages_processed
         (@exec plain_externals bare_collaborators racing_config
            racing_schedule).1
   ≤ Z.of_nat (length (records
                         (@exec plain_externals bare_collaborators
                            racing_config racing_schedule).1)))%Z ∧
  (length (records (@exec plain_externals bare_collaborators racing_config
                      racing_schedule).1)
   ≤ length (gets (trace (@exec plain_externals bare_collaborators
                            racing_config racing_schedule).1)))%nat ∧
  (∀ r, r ∈ records (@exec plain_externals bare_collaborators racing_config
                       racing_schedule).1 →
        rec_url r ∈ gets (trace (@exec plain_externals bare_collaborators
                                   racing_config racing_schedule).1)) ∧
  (∀ u, u ∈ renders (trace (@exec plain_externals bare_collaborators
                              racing_config racing_schedule).1) →
        u ∈ gets (trace (@exec plain_externals bare_collaborators
                           racing_config racing_schedule).1)).
Proof.
  apply (@records_follow_requests plain_externals bare_collaborators
           racing_config).
  apply exec_reachable.
Defined.

Lemma no_robots_request_when_disabled_witness :
  robots_gets (trace (@exec plain_externals bare_collaborators racing_config
                        racing_schedule).1) = [].
Proof.
  apply (@no_robots_request_when_disabled plain_externals bare_collaborators
           racing_config).
  - reflexivity.
  - apply exec_reachable.
Defined.

Lemma no_rendering_unless_asked_witness :
  renders (trace (@exec plain_externals bare_collaborators racing_config
                    racing_schedule).1) = [].
Proof.
  apply (@no_rendering_unless_asked plain_externals bare_collaborators
           racing_config).
  - discriminate.
  - discriminate.
  - apply exec_reachable.
Defined.

Lemma no_page_requested_twice_witness :
  NoDup (gets (trace (@exec plain_externals bare_collaborators racing_config
                        racing_schedule).1)).
Proof.
  apply (@no_page_requested_twice plain_externals bare_collaborators
           racing_config).
  - reflexivity.
  - apply exec_reachable.
Defined.

Lemma robots_document_requested_first_witness :
  ∃ r, @robots_url plain_externals "http://x.com/public" = Return r ∧
       r ∈ robots_gets [Put (mkTask "http://x.com/public" 0);
                        RobotsGet "http://x.com/robots.txt"].
Proof.
  apply (@robots_document_requested_first plain_externals bare_collaborators
           polite_config
           (@exec plain_externals bare_collaborators polite_config
              [(0%nat, robots_fine); (0%nat, robots_fine)])
           [Put (mkTask "http://x.com/public" 0);
            RobotsGet "http://x.com/robots.txt"] []).
  - reflexivity.
  - apply exec_reachable.
  - vm_compute. reflexivity.
Defined.

Lemma crawl_without_robots_documents_witness :
  gets (trace (@exec plain_externals bare_collaborators polite_config
                 [(0%nat, all_fine); (0%nat, all_fine)]).1) = [] ∧
  visited (@exec plain_externals bare_collaborators polite_config
             [(0%nat, all_fine); (0%nat, all_fine)]).1 = ∅ ∧
  pages_processed (@exec plain_externals bare_collaborators polite_config
                     [(0%nat, all_fine); (0%nat, all_fine)]).1 = 0%Z ∧
  records (@exec plain_externals bare_collaborators polite_config
             [(0%nat, all_fine); (0%nat, all_fine)]).1 = [].
Proof.
  apply (@crawl_without_robots_documents plain_externals bare_collaborators
           polite_config).
  - reflexivity.
  - assert (robots_unreachable all_fine) as Hun.
    { split; [intros r [= <-]; vm_compute; discriminate|intros e [=]]. }
    repeat (constructor; [exact Hun|]). constructor.
Defined.

Lemma distinct_seeds_enqueued_once_witness :
  NoDup (map url (puts (trace (@exec plain_externals bare_collaborators
                                 racing_config racing_schedule).1))) ∧
  ∀ t, t ∈ puts (trace (@exec plain_externals bare_collaborators
                          racing_config racing_schedule).1) →
       url t ∈ enqueued (@exec plain_externals bare_collaborators
                           racing_config racing_schedule).1.
Proof.
  apply (@distinct_seeds_enqueued_once plain_externals bare_collaborators
           racing_config).
  - apply (bool_decide_eq_true_1 (NoDup (start_urls racing_config))).
    vm_compute. reflexivity.
  - apply exec_reachable.
Defined.

(** ** Normal forms of addresses *)

#[local] Arguments String.append !s1 s2 : simpl nomatch.

(** ** Facts about the string primitives *)

Lemma sapp_nil_r (s : string) : s +:+ "" = s.
Proof. induction s as [|a s IH]; simpl; [|rewrite IH]; reflexivity. Qed.

Lemma sapp_assoc (a b c : string) : (a +:+ b) +:+ c = a +:+ (b +:+ c).
Proof. induction a as [|x a IH]; simpl; [|rewrite IH]; reflexivity. Qed.

Lemma is_empty_true (s : string) : Str.is_empty s = true ↔ s = "".
Proof. destruct s; simpl; split; congruence. Qed.

Lemma is_empty_false (s : string) : Str.is_empty s = false ↔ s ≠ "".
Proof. destruct s; simpl; split; congruence. Qed.

Lemma eqb_ascii_eq (a b : ascii) : Str.eqb_ascii a b = true ↔ a = b.
Proof. apply Ascii.eqb_eq. Qed.

Lemma eqb_ascii_neq (a b : ascii) : Str.eqb_ascii a b = false ↔ a ≠ b.
Proof. apply Ascii.eqb_neq. Qed.

Lemma all_app (p : ascii → bool) (a b : string) :
  Str.all p (a +:+ b) = Str.all p a && Str.all p b.
Proof.
  induction a as [|x a IH]; simpl; [reflexivity|].
  rewrite IH, andb_assoc. reflexivity.
Qed.

Lemma all_impl (p q : ascii → bool) (s : string) :
  (∀ c, p c = true → q c = true) → Str.all p s = true → Str.all q s = true.
Proof.
  intros Hpq. induction s as [|x s IH]; simpl; [reflexivity|].
  intros [Hx Hs]%andb_true_iff. rewrite (Hpq x Hx), (IH Hs). reflexivity.
Qed.

Lemma mem_app (c : ascii) (a b : string) :
  Str.mem c (a +:+ b) = Str.mem c a || Str.mem c b.
Proof.
  induction a as [|x a IH]; simpl; [reflexivity|].
  rewrite IH, orb_assoc. reflexivity.
Qed.

Lemma all_not_mem (p : ascii → bool) (c : ascii) (s : string) :
  p c = false → Str.all p s = true → Str.mem c s = false.
Proof.
  intros Hc. induction s as [|x s IH]; simpl; [reflexivity|].
  intros [Hx Hs]%andb_true_iff. rewrite (IH Hs), orb_false_r.
  apply eqb_ascii_neq. intros ->. congruence.
Qed.

Lemma cut_app (c : ascii) (a b : string) :
  Str.mem c a = false → Str.cut c (a +:+ String c b) = Some (a, b).
Proof.
  induction a as [|x a IH]; simpl.
  - intros _. unfold Str.eqb_ascii. rewrite Ascii.eqb_refl. reflexivity.
  - intros [Hx Ha]%orb_false_iff. rewrite Hx, (IH Ha). reflexivity.
Qed.

Lemma cut_none (c : ascii) (s : string) :
  Str.mem c s = false → Str.cut c s = None.
Proof.
  induction s as [|x s IH]; simpl; [reflexivity|].
  intros [Hx Hs]%orb_false_iff. rewrite Hx, (IH Hs). reflexivity.
Qed.

Lemma cut_some (c : ascii) (s h t : string) :
  Str.cut c s = Some (h, t) → s = h +:+ String c t ∧ Str.mem c h = false.
Proof.
  revert h. induction s as [|x s IH]; simpl; intros h; [discriminate|].
  destruct (Str.eqb_ascii x c) eqn:Hx.
  - intros [= <- <-]. apply eqb_ascii_eq in Hx as ->. auto.
  - destruct (Str.cut c s) as [[h' t']|]; [|discriminate].
    intros [= <- <-]. destruct (IH h' eq_refl) as [-> Hm].
    simpl. rewrite Hx, Hm. auto.
Qed.

Lemma cut_none_inv (c : ascii) (s : string) :
  Str.cut c s = None → Str.mem c s = false.
Proof.
  induction s as [|x s IH]; simpl; [reflexivity|].
  destruct (Str.eqb_ascii x c); [discriminate|].
  destruct (Str.cut c s) as [[h t]|]; [discriminate|]. auto.
Qed.

Lemma break_app (p : ascii → bool) (a b : string) :
  Str.all (λ c, negb (p c)) a = true →
  (b = "" ∨ ∃ c b', b = String c b' ∧ p c = true) →
  Str.break p (a +:+ b) = (a, b).
Proof.
  intros Ha Hb. induction a as [|x a IH]; simpl in *.
  - destruct Hb as [->|(c & b' & -> & Hc)]; simpl; [reflexivity|].
    rewrite Hc. reflexivity.
  - apply andb_true_iff in Ha as [Hx Ha]. apply negb_true_iff in Hx.
    rewrite Hx, (IH Ha). reflexivity.
Qed.

Lemma break_inv (p : ascii → bool) (s h t : string) :
  Str.break p s = (h, t) →
  s = h +:+ t ∧ Str.all (λ c, negb (p c)) h = true ∧
  (t = "" ∨ ∃ c t', t = String c t' ∧ p c = true).
Proof.
  revert h. induction s as [|x s IH]; simpl; intros h.
  - intros [= <- <-]. auto.
  - destruct (p x) eqn:Hx.
    + intros [= <- <-]. simpl. split; [reflexivity|]. split; [reflexivity|].
      right. eauto.
    + destruct (Str.break p s) as [h' t'] eqn:Hb. intros [= <- <-].
      destruct (IH h' eq_refl) as (-> & Hh & Ht). simpl. rewrite Hx, Hh. auto.
Qed.

Lemma remove_id (p : ascii → bool) (s : string) :
  Str.all (λ c, negb (p c)) s = true → Str.remove p s = s.
Proof.
  induction s as [|x s IH]; simpl; [reflexivity|].
  intros [Hx Hs]%andb_true_iff. apply negb_true_iff in Hx.
  rewrite Hx, (IH Hs). reflexivity.
Qed.

Lemma remove_clean (p : ascii → bool) (s : string) :
  Str.all (λ c, negb (p c)) (Str.remove p s) = true.
Proof.
  induction s as [|x s IH]; simpl; [reflexivity|].
  destruct (p x) eqn:Hx; simpl; [exact IH|]. rewrite Hx, IH. reflexivity.
Qed.

Lemma lower_app (a b : string) :
  Str.lower (a +:+ b) = Str.lower a +:+ Str.lower b.
Proof. induction a as [|x a IH]; simpl; [|rewrite IH]; reflexivity. Qed.

Lemma startswith_app (a b : string) : Str.startswith a (a +:+ b) = true.
Proof.
  induction a as [|x a IH]; simpl; [reflexivity|].
  unfold Str.eqb_ascii. rewrite Ascii.eqb_refl. exact IH.
Qed.

Lemma take_app_length (a b : string) :
  Str.take (String.length a) (a +:+ b) = a.
Proof. induction a as [|x a IH]; simpl; [destruct b|rewrite IH]; reflexivity. Qed.

Lemma drop_app_length (a b : string) :
  Str.drop (String.length a) (a +:+ b) = b.
Proof. induction a as [|x a IH]; simpl; [destruct b|rewrite IH]; reflexivity. Qed.

(** Reversal *)
Lemma chars_of_chars (l : list ascii) : Str.chars (Str.of_chars l) = l.
Proof. induction l as [|a l IH]; simpl; [|rewrite IH]; reflexivity. Qed.

Lemma of_chars_chars (s : string) : Str.of_chars (Str.chars s) = s.
Proof. induction s as [|a s IH]; simpl; [|rewrite IH]; reflexivity. Qed.

Lemma of_chars_app (l1 l2 : list ascii) :
  Str.of_chars (l1 ++ l2) = Str.of_chars l1 +:+ Str.of_chars l2.
Proof. induction l1 as [|a l IH]; simpl; [|rewrite IH]; reflexivity. Qed.

Lemma chars_app (a b : string) : Str.chars (a +:+ b) = Str.chars a ++ Str.chars b.
Proof. induction a as [|x a IH]; simpl; [|rewrite IH]; reflexivity. Qed.

Lemma rev_app (a b : string) : Str.rev (a +:+ b) = Str.rev b +:+ Str.rev a.
Proof. unfold Str.rev. rewrite chars_app, rev_app_distr, of_chars_app. reflexivity. Qed.

Lemma rev_cons (c : ascii) (s : string) : Str.rev (String c s) = Str.rev s +:+ String c "".
Proof. unfold Str.rev. simpl. rewrite of_chars_app. reflexivity. Qed.

Lemma rev_involutive (s : string) : Str.rev (Str.rev s) = s.
Proof.
  unfold Str.rev. rewrite chars_of_chars, rev_involutive. apply of_chars_chars.
Qed.

Lemma mem_rev (c : ascii) (s : string) : Str.mem c (Str.rev s) = Str.mem c s.
Proof.
  induction s as [|x s IH]; [reflexivity|].
  rewrite rev_cons, mem_app, IH. simpl. rewrite orb_false_r, orb_comm. reflexivity.
Qed.

Lemma rcut_app (c : ascii) (a b : string) :
  Str.mem c b = false → rcut c (a +:+ String c b) = Some (a, b).
Proof.
  intros Hb. unfold rcut. rewrite rev_app, rev_cons, sapp_assoc. simpl.
  rewrite cut_app by (rewrite mem_rev; exact Hb).
  rewrite !rev_involutive. reflexivity.
Qed.

Lemma rcut_some (c : ascii) (s d l : string) :
  rcut c s = Some (d, l) → s = d +:+ String c l ∧ Str.mem c l = false.
Proof.
  unfold rcut. destruct (Str.cut c (Str.rev s)) as [[h t]|] eqn:Hc; [|discriminate].
  intros [= <- <-]. apply cut_some in Hc as [Hs Hm].
  rewrite mem_rev. split; [|exact Hm].
  rewrite <- (rev_involutive s), Hs, rev_app, rev_cons, sapp_assoc. reflexivity.
Qed.

Lemma after_last_none (c : ascii) (s : string) :
  Str.mem c s = false → after_last c s = s.
Proof.
  intros Hm. unfold after_last. rewrite cut_none; [reflexivity|].
  rewrite mem_rev. exact Hm.
Qed.

Lemma host_of_netloc_plain (nl : string) :
  Str.mem "@" nl = false → Str.mem ":" nl = false → host_of_netloc nl = nl.
Proof.
  intros Ha Hc. unfold host_of_netloc.
  rewrite (after_last_none _ _ Ha), (cut_none _ _ Hc). reflexivity.
Qed.

(** ** Characters *)

Ltac by_char c := destruct c as [[] [] [] [] [] [] [] []]; vm_compute; try congruence; auto.

Lemma all_cut (p : ascii → bool) (c : ascii) (s h t : string) :
  Str.all p s = true → Str.cut c s = Some (h, t) →
  Str.all p h = true ∧ Str.all p t = true.
Proof.
  intros Hs Hc. apply cut_some in Hc as [-> _].
  rewrite all_app in Hs. simpl in Hs.
  apply andb_true_iff in Hs as [Hh [_ Ht]%andb_true_iff]. auto.
Qed.

Lemma all_drop (p : ascii → bool) (n : nat) (s : string) :
  Str.all p s = true → Str.all p (Str.drop n s) = true.
Proof.
  revert s. induction n as [|n IH]; intros [|x s]; simpl; auto.
  intros [_ Hs]%andb_true_iff. auto.
Qed.

Lemma all_break (p q : ascii → bool) (s h t : string) :
  Str.all p s = true → Str.break q s = (h, t) →
  Str.all p h = true ∧ Str.all p t = true.
Proof.
  intros Hs Hb. apply break_inv in Hb as (-> & _ & _).
  rewrite all_app in Hs. apply andb_true_iff in Hs. exact Hs.
Qed.

Lemma all_lower (p : ascii → bool) (s : string) :
  (∀ c, p c = true → p (Str.lower_char c) = true) →
  Str.all p s = true → Str.all p (Str.lower s) = true.
Proof.
  intros Hp. induction s as [|x s IH]; simpl; [reflexivity|].
  intros [Hx Hs]%andb_true_iff. rewrite (Hp x Hx), (IH Hs). reflexivity.
Qed.

Lemma lower_lower (s : string) : Str.lower (Str.lower s) = Str.lower s.
Proof.
  induction s as [|x s IH]; simpl; [reflexivity|]. rewrite IH. f_equal.
  by_char x.
Qed.

Lemma scheme_char_lower (c : ascii) :
  scheme_char c = true → scheme_char (Str.lower_char c) = true.
Proof. by_char c. Qed.

Lemma scheme_char_clean (c : ascii) : scheme_char c = true → clean_char c = true.
Proof. by_char c. Qed.

Lemma alpha_lower (c : ascii) :
  Str.is_alpha c = true → Str.is_alpha (Str.lower_char c) = true.
Proof. by_char c. Qed.

Lemma alpha_ascii (c : ascii) :
  Str.is_alpha c = true → Str.is_ascii_char c = true.
Proof. by_char c. Qed.

Lemma alpha_not_c0 (c : ascii) :
  Str.is_alpha c = true → c0_control_or_space c = false.
Proof. by_char c. Qed.

Lemma scheme_char_not_colon (c : ascii) :
  scheme_char c = true → Str.eqb_ascii c ":" = false.
Proof. by_char c. Qed.

Lemma split_scheme_inv (u s rest : string) :
  split_scheme u "" = (s, rest) → s ≠ "" →
  (∃ c s', s = String c s' ∧ Str.is_alpha c = true) ∧
  Str.all scheme_char s = true ∧ Str.lower s = s ∧
  ∀ p, Str.all p u = true → Str.all p rest = true.
Proof.
  unfold split_scheme. intros H Hs.
  destruct (Str.cut ":" u) as [[[|c pre] rest']|] eqn:Hcut;
    try (inversion H; subst; congruence).
  destruct (Str.is_ascii_char c && Str.is_alpha c &&
            Str.all scheme_char (String c pre)) eqn:Hok;
    [|inversion H; subst; congruence].
  inversion H; subst; clear H.
  apply andb_true_iff in Hok as [[_ Ha]%andb_true_iff Hall].
  split; [|split; [|split]].
  - exists (Str.lower_char c), (Str.lower pre). split; [reflexivity|].
    apply alpha_lower, Ha.
  - apply (all_lower _ (String c pre)); [apply scheme_char_lower|exact Hall].
  - apply (lower_lower (String c pre)).
  - intros p Hp. eapply all_cut in Hcut as [_ Ht]; eassumption.
Qed.

Lemma split_scheme_build (s rest sch : string) :
  (∃ c s', s = String c s' ∧ Str.is_alpha c = true) →
  Str.all scheme_char s = true → Str.lower s = s →
  split_scheme (s +:+ String ":" rest) sch = (s, rest).
Proof.
  intros (c & s' & -> & Ha) Hall Hlow. unfold split_scheme.
  rewrite cut_app.
  - cbv beta iota. rewrite (alpha_ascii _ Ha), Ha, Hall. cbn [andb].
    rewrite Hlow. reflexivity.
  - eapply all_not_mem; [|exact Hall]. reflexivity.
Qed.

Lemma split_tail_inv (c : ascii) (u h t : string) :
  split_tail c u = (h, t) →
  Str.mem c h = false ∧
  (∀ p, Str.all p u = true → Str.all p h = true ∧ Str.all p t = true) ∧
  (∀ d, Str.mem d u = false → Str.mem d h = false ∧ Str.mem d t = false).
Proof.
  unfold split_tail. destruct (Str.cut c u) as [[h' t']|] eqn:Hc.
  - intros [= <- <-]. pose proof (cut_some _ _ _ _ Hc) as [-> Hm].
    split; [exact Hm|]. split.
    + intros p Hp. eapply all_cut; [exact Hp|exact Hc].
    + intros d. rewrite mem_app. simpl.
      intros [? [? ?]%orb_false_iff]%orb_false_iff. auto.
  - intros [= <- <-]. split; [apply cut_none_inv, Hc|]. split; auto.
Qed.

Lemma split_tail_absent (c : ascii) (u : string) :
  Str.mem c u = false → split_tail c u = (u, "").
Proof. intros H. unfold split_tail. rewrite (cut_none _ _ H). reflexivity. Qed.

Lemma split_tail_app (c : ascii) (h t : string) :
  Str.mem c h = false → split_tail c (h +:+ String c t) = (h, t).
Proof. intros H. unfold split_tail. rewrite (cut_app _ _ _ H). reflexivity. Qed.

Lemma split_tail_head (c : ascii) (u h t : string) :
  (u = "" ∨ ∃ x r, u = String x r ∧ netloc_delim x = true) →
  split_tail c u = (h, t) →
  h = "" ∨ ∃ x r, h = String x r ∧ netloc_delim x = true.
Proof.
  unfold split_tail. intros [->|(x & r & -> & Hx)]; simpl.
  - intros [= <- _]. auto.
  - destruct (Str.eqb_ascii x c); [intros [= <- _]; auto|].
    destruct (Str.cut c r) as [[h' t']|]; intros [= <- _]; eauto.
Qed.

Lemma delim_head_rooted (h : string) :
  (h = "" ∨ ∃ x r, h = String x r ∧ netloc_delim x = true) →
  Str.mem "?" h = false → Str.mem "#" h = false → rooted h.
Proof.
  intros [->|(x & r & -> & Hx)]; [left; reflexivity|].
  simpl. intros [Hq _]%orb_false_iff [Hh _]%orb_false_iff. right.
  revert Hx Hq Hh. by_char x.
Qed.

Lemma mem_false_all (d : ascii) (s : string) :
  Str.mem d s = false ↔ Str.all (λ c, negb (Str.eqb_ascii c d)) s = true.
Proof.
  induction s as [|x s IH]; simpl; [tauto|].
  rewrite orb_false_iff, andb_true_iff, negb_true_iff, IH. tauto.
Qed.

Lemma rcut_exists (c : ascii) (s : string) :
  Str.mem c s = true → ∃ d l, rcut c s = Some (d, l).
Proof.
  intros Hm. unfold rcut.
  destruct (Str.cut c (Str.rev s)) as [[h t]|] eqn:Hc; [eauto|].
  apply cut_none_inv in Hc. rewrite mem_rev in Hc. congruence.
Qed.

Lemma rooted_app (a b : string) : a ≠ "" → rooted a → rooted (a +:+ b).
Proof.
  intros Hne [->|Hr]; [congruence|]. right.
  destruct a as [|x a]; [discriminate|]. cbn [Str.startswith] in *.
  simpl. exact Hr.
Qed.

(** Splitting the parameters off a rooted path, writing them back and
    splitting again gives the same path and parameters. *)
Lemma params_roundtrip (sch p0 p a : string) :
  rooted p0 →
  (if Str.inb sch uses_params && Str.mem ";" p0
   then splitparams p0 else (p0, "")) = (p, a) →
  (if Str.inb sch uses_params && Str.mem ";" (with_params p a)
   then splitparams (with_params p a) else (with_params p a, "")) = (p, a) ∧
  rooted (with_params p a) ∧
  ∀ q, Str.all q p0 = true → Str.all q (with_params p a) = true.
Proof.
  intros Hroot Hsplit. unfold with_params.
  destruct (Str.inb sch uses_params && Str.mem ";" p0) eqn:Hcond.
  2:{ inversion Hsplit; subst p a. cbn [Str.is_empty negb]. rewrite Hcond.
      auto. }
  apply andb_true_iff in Hcond as [Hup Hsemi].
  assert (Str.mem "/" p0 = true) as Hslash.
  { destruct Hroot as [->|Hr]; [discriminate|].
    destruct p0 as [|x r]; [discriminate|]. cbn [Str.startswith] in Hr.
    apply andb_true_iff in Hr as [Hx _]. simpl. unfold Str.eqb_ascii in *.
    rewrite Ascii.eqb_sym, Hx. reflexivity. }
  unfold splitparams in Hsplit. rewrite Hslash in Hsplit.
  destruct (rcut_exists _ _ Hslash) as (dir & last & Hrc).
  rewrite Hrc in Hsplit. pose proof (rcut_some _ _ _ _ Hrc) as [Hp0 Hlast].
  destruct (Str.cut ";" last) as [[h t]|] eqn:Hc.
  2:{ inversion Hsplit; subst p a. cbn [Str.is_empty negb].
      rewrite Hup, Hsemi. cbn [andb].
      unfold splitparams. rewrite Hslash, Hrc, Hc. auto. }
  inversion Hsplit; subst p a. clear Hsplit.
  pose proof (cut_some _ _ _ _ Hc) as [Hl Hh].
  destruct t as [|t0 t]; cbn [Str.is_empty negb].
  - (* the parameters are empty: the semicolon is not written back *)
    assert (Str.mem "/" h = false) as Hhs.
    { rewrite Hl, mem_app in Hlast. apply orb_false_iff in Hlast. tauto. }
    split; [|split].
    + match goal with
      | |- (if ?c then _ else _) = _ => destruct c; [|reflexivity]
      end.
      unfold splitparams. rewrite mem_app. cbn [Str.mem].
      assert (Str.eqb_ascii "/" "/" = true) as -> by reflexivity.
      cbn [orb]. rewrite orb_true_r.
      rewrite (rcut_app _ _ _ Hhs), (cut_none _ _ Hh). reflexivity.
    + destruct dir as [|d0 dir]; [right; reflexivity|].
      apply rooted_app; [discriminate|].
      destruct Hroot as [Hr|Hr]; [rewrite Hp0 in Hr; discriminate|].
      right. rewrite Hp0 in Hr. exact Hr.
    + intros q. rewrite Hp0, Hl, !all_app. simpl. rewrite !all_app.
      intros [Hd [Hs [Hh' _]%andb_true_iff]%andb_true_iff]%andb_true_iff.
      simpl. rewrite Hd, Hs, Hh'. reflexivity.
  - (* the path is written back unchanged *)
    assert (dir +:+ String "/" h +:+ ";" +:+ String t0 t = p0) as Heq.
    { rewrite Hp0, Hl. reflexivity. }
    rewrite !sapp_assoc, Heq, Hup, Hsemi. cbn [andb].
    unfold splitparams. rewrite Hslash, Hrc, Hc. auto.
Qed.

Section Roundtrip.
Context {E : Externals}.

Lemma split_netloc_inv (u nl rest : string) :
  split_netloc u = Return (nl, rest) → nl ≠ "" →
  Str.all (λ c, negb (netloc_delim c)) nl = true ∧
  bracket_check nl = Return () ∧
  (rest = "" ∨ ∃ c t, rest = String c t ∧ netloc_delim c = true) ∧
  ∀ p, Str.all p u = true → Str.all p nl = true ∧ Str.all p rest = true.
Proof.
  unfold split_netloc. intros H Hnl.
  destruct (Str.startswith "//" u); [|inversion H; subst; congruence].
  unfold splitnetloc in H.
  destruct (Str.break netloc_delim (Str.drop 2 u)) as [nl' rest'] eqn:Hb.
  destruct (bracket_check nl') as [[]|e] eqn:Hbr; [|discriminate].
  inversion H; subst; clear H.
  pose proof (break_inv _ _ _ _ Hb) as (Heq & Hall & Hrest).
  repeat split; auto.
  all: eapply (all_break p) in Hb as [? ?]; eauto using all_drop.
Qed.

Lemma split_netloc_build (nl rest : string) :
  Str.all (λ c, negb (netloc_delim c)) nl = true →
  bracket_check nl = Return () →
  (rest = "" ∨ ∃ c t, rest = String c t ∧ netloc_delim c = true) →
  split_netloc ("//" +:+ nl +:+ rest) = Return (nl, rest).
Proof.
  intros Hall Hbr Hrest. unfold split_netloc. simpl.
  unfold splitnetloc. rewrite (break_app _ _ _ Hall Hrest), Hbr. reflexivity.
Qed.

(** What [urlsplit] returns when it finds a scheme and a network location *)
Lemma urlsplit_inv (url : string) (r : SplitResult) :
  urlsplit url "" = Return r →
  s_scheme r ≠ "" → s_netloc r ≠ "" →
  (∃ c s', s_scheme r = String c s' ∧ Str.is_alpha c = true) ∧
  Str.all scheme_char (s_scheme r) = true ∧
  Str.lower (s_scheme r) = s_scheme r ∧
  clean (s_netloc r) ∧
  Str.all (λ c, negb (netloc_delim c)) (s_netloc r) = true ∧
  bracket_check (s_netloc r) = Return () ∧
  checknetloc (s_netloc r) = Return () ∧
  clean (s_path r) ∧ Str.mem "?" (s_path r) = false ∧
  Str.mem "#" (s_path r) = false ∧ rooted (s_path r) ∧
  clean (s_query r) ∧ Str.mem "#" (s_query r) = false.
Proof.
  unfold urlsplit.
  set (u0 := Str.remove unsafe_url_byte (Str.lstrip c0_control_or_space url)).
  assert (clean u0) as Hu0 by apply remove_clean.
  change (Str.remove unsafe_url_byte (Str.strip c0_control_or_space ""))
    with "".
  destruct (split_scheme u0 "") as [s u1] eqn:Hs.
  destruct (split_netloc u1) as [[nl u2]|e] eqn:Hn; [|discriminate].
  cbn [mbind outcome_bind].
  destruct (split_tail "#" u2) as [u3 frag] eqn:Hf.
  destruct (split_tail "?" u3) as [pth qry] eqn:Hq.
  destruct (checknetloc nl) as [[]|e] eqn:Hck; [|discriminate].
  intros [= <-]. cbn [s_scheme s_netloc s_path s_query s_fragment].
  intros Hsne Hnlne.
  destruct (split_scheme_inv _ _ _ Hs Hsne) as (Hs1 & Hs2 & Hs3 & Hs4).
  destruct (split_netloc_inv _ _ _ Hn Hnlne) as (Hn1 & Hn2 & Hn3 & Hn4).
  destruct (split_tail_inv _ _ _ _ Hf) as (Hf1 & Hf2 & Hf3).
  destruct (split_tail_inv _ _ _ _ Hq) as (Hq1 & Hq2 & Hq3).
  pose proof (Hs4 _ Hu0) as Hu1.
  destruct (Hn4 _ Hu1) as [Hcnl Hu2].
  destruct (Hf2 _ Hu2) as [Hu3 _].
  destruct (Hq2 _ Hu3) as [Hcp Hcq].
  destruct (Hq3 _ Hf1) as [Hp_hash Hq_hash].
  repeat split; auto.
  apply delim_head_rooted; auto.
  eapply split_tail_head; [|exact Hq]. eapply split_tail_head; eauto.
Qed.

(** [urlsplit] recovers the parts of an address put together from a scheme,
    a network location, a rooted path and a query. *)
Lemma urlsplit_build (s nl pth qry sch : string) :
  (∃ c s', s = String c s' ∧ Str.is_alpha c = true) →
  Str.all scheme_char s = true → Str.lower s = s →
  clean nl → Str.all (λ c, negb (netloc_delim c)) nl = true →
  bracket_check nl = Return () → checknetloc nl = Return () →
  clean pth → Str.mem "?" pth = false → Str.mem "#" pth = false →
  rooted pth →
  clean qry → Str.mem "#" qry = false →
  urlsplit (s +:+ String ":" ("//" +:+ nl +:+ pth +:+
              (if Str.is_empty qry then "" else String "?" qry))) sch
  = Return (mkSplit s nl pth qry "").
Proof.
  intros Hs1 Hs2 Hs3 Hcnl Hn1 Hn2 Hck Hcp Hpq Hph Hroot Hcq Hqh.
  set (tail := if Str.is_empty qry then "" else String "?" qry).
  assert (clean tail) as Hct.
  { unfold tail. destruct (Str.is_empty qry); [reflexivity|].
    unfold clean. simpl. exact Hcq. }
  assert (Str.mem "#" tail = false) as Hth.
  { unfold tail. destruct (Str.is_empty qry); [reflexivity|]. simpl. exact Hqh. }
  unfold urlsplit.
  assert (Str.lstrip c0_control_or_space
            (s +:+ String ":" ("//" +:+ nl +:+ pth +:+ tail))
          = s +:+ String ":" ("//" +:+ nl +:+ pth +:+ tail)) as ->.
  { destruct Hs1 as (c & s' & -> & Ha). simpl.
    rewrite (alpha_not_c0 _ Ha). reflexivity. }
  rewrite remove_id.
  2:{ fold clean_char. rewrite all_app. simpl. rewrite !all_app.
      rewrite (all_impl _ _ _ scheme_char_clean Hs2).
      unfold clean in *. rewrite Hcnl, Hcp, Hct. reflexivity. }
  rewrite (split_scheme_build _ _ _ Hs1 Hs2 Hs3).
  rewrite split_netloc_build; [|exact Hn1|exact Hn2|].
  2:{ destruct Hroot as [->|Hr].
      - simpl. unfold tail. destruct (Str.is_empty qry); [left; reflexivity|].
        right. eauto.
      - destruct pth as [|x r]; [discriminate|]. cbn [Str.startswith] in Hr.
        apply andb_true_iff in Hr as [Hx _]. apply eqb_ascii_eq in Hx as <-.
        right. simpl. eauto. }
  cbn [mbind outcome_bind].
  rewrite split_tail_absent by (rewrite mem_app, Hph, Hth; reflexivity).
  assert (split_tail "?" (pth +:+ tail) = (pth, qry)) as ->.
  { unfold tail. destruct qry as [|q0 q]; simpl.
    - rewrite sapp_nil_r. apply split_tail_absent, Hpq.
    - apply split_tail_app, Hpq. }
  rewrite Hck. reflexivity.
Qed.

End Roundtrip.

(** ** UTF-8 decoding with replacement *)

Lemma decode_replace_ascii (s : string) :
  Str.isascii s = true → decode_replace s = s.
Proof.
  unfold Str.isascii. induction s as [|b s IH]; simpl; [reflexivity|].
  intros [Hb Hs]%andb_true_iff. rewrite Hb, (IH Hs). reflexivity.
Qed.

Lemma decode_replace_fffd (y : string) :
  decode_replace (fffd +:+ y) = fffd +:+ decode_replace y.
Proof. reflexivity. Qed.

(** One step of the decoder: it emits a prefix that it would also emit in
    front of any other text, and goes on with a shorter rest. *)
Lemma decode_replace_step (b : ascii) (r : string) :
  ∃ prefix rest,
    decode_replace (String b r) = prefix +:+ decode_replace rest ∧
    (String.length rest < String.length (String b r))%nat ∧
    ∀ y, decode_replace (prefix +:+ y) = prefix +:+ decode_replace y.
Proof.
  cbn [decode_replace].
  destruct (Str.is_ascii_char b) eqn:Hb.
  { exists (String b ""), r. split; [reflexivity|]. split; [simpl; lia|].
    intros y. simpl. rewrite Hb. reflexivity. }
  destruct (lead_info b) as [[[lo hi] len]|] eqn:Hl.
  2:{ exists fffd, r. split; [reflexivity|]. split; [simpl; lia|].
      apply decode_replace_fffd. }
  destruct r as [|b2 r2].
  { exists fffd, "". split; [reflexivity|]. split; [simpl; lia|].
    apply decode_replace_fffd. }
  destruct (Str.between lo hi b2) eqn:H2; cbn [negb].
  2:{ exists fffd, (String b2 r2). split; [reflexivity|]. split; [simpl; lia|].
      apply decode_replace_fffd. }
  destruct len.
  - exists (String b (String b2 "")), r2. split; [reflexivity|].
    split; [simpl; lia|]. intros y. simpl. rewrite Hb, Hl, H2. reflexivity.
  - destruct r2 as [|b3 r3].
    { exists fffd, "". split; [reflexivity|]. split; [simpl; lia|].
      apply decode_replace_fffd. }
    destruct (is_cont b3) eqn:H3; cbn [negb].
    2:{ exists fffd, (String b3 r3). split; [reflexivity|].
        split; [simpl; lia|]. apply decode_replace_fffd. }
    exists (String b (String b2 (String b3 ""))), r3. split; [reflexivity|].
    split; [simpl; lia|]. intros y. simpl. rewrite Hb, Hl, H2, H3. reflexivity.
  - destruct r2 as [|b3 r3].
    { exists fffd, "". split; [reflexivity|]. split; [simpl; lia|].
      apply decode_replace_fffd. }
    destruct (is_cont b3) eqn:H3; cbn [negb].
    2:{ exists fffd, (String b3 r3). split; [reflexivity|].
        split; [simpl; lia|]. apply decode_replace_fffd. }
    destruct r3 as [|b4 r4].
    { exists fffd, "". split; [reflexivity|]. split; [simpl; lia|].
      apply decode_replace_fffd. }
    destruct (is_cont b4) eqn:H4; cbn [negb].
    2:{ exists fffd, (String b4 r4). split; [reflexivity|].
        split; [simpl; lia|]. apply decode_replace_fffd. }
    exists (String b (String b2 (String b3 (String b4 "")))), r4.
    split; [reflexivity|]. split; [simpl; lia|].
    intros y. simpl. rewrite Hb, Hl, H2, H3, H4. reflexivity.
Qed.

Lemma decode_replace_idem (s : string) :
  decode_replace (decode_replace s) = decode_replace s.
Proof.
  remember (String.length s) as n eqn:Hn. revert s Hn.
  induction n as [n IH] using lt_wf_ind. intros [|b r] Hn; [reflexivity|].
  destruct (decode_replace_step b r) as (prefix & rest & Heq & Hlen & Hpre).
  rewrite Heq, Hpre. f_equal. eapply IH; [|reflexivity]. lia.
Qed.

(** ** Percent-encoding *)

Lemma concat_cons (x : string) (l : list string) :
  String.concat "" (x :: l) = x +:+ String.concat "" l.
Proof. destruct l; simpl; [rewrite sapp_nil_r|]; reflexivity. Qed.

Lemma split_cons_other (c a : ascii) (r : string) :
  Str.eqb_ascii a c = false →
  ∃ h t, Str.split c r = h :: t ∧ Str.split c (String a r) = String a h :: t.
Proof.
  intros Ha. cbn [Str.split]. rewrite Ha.
  destruct (Str.split c r) as [|h t] eqn:Hs.
  - exfalso. destruct r; simpl in Hs; [discriminate|].
    destruct (Str.eqb_ascii a0 c); [discriminate|].
    destruct (Str.split c r); discriminate.
  - eauto.
Qed.

Lemma unquote_to_bytes_nil : unquote_to_bytes "" = "".
Proof. reflexivity. Qed.

Lemma unquote_to_bytes_plain (a : ascii) (r : string) :
  Str.eqb_ascii a "%" = false →
  unquote_to_bytes (String a r) = String a (unquote_to_bytes r).
Proof.
  intros Ha. unfold unquote_to_bytes.
  destruct (split_cons_other "%" a r Ha) as (h & t & Hr & ->). rewrite Hr.
  rewrite !concat_cons. reflexivity.
Qed.

Lemma hexdig_not_percent (a : ascii) :
  is_hexdig a = true → Str.eqb_ascii a "%" = false.
Proof. by_char a. Qed.

Lemma unquote_to_bytes_escape (h1 h2 : ascii) (r : string) :
  is_hexdig h1 = true → is_hexdig h2 = true →
  unquote_to_bytes (String "%" (String h1 (String h2 r)))
  = String (ascii_of_N (16 * hexval h1 + hexval h2)) (unquote_to_bytes r).
Proof.
  intros H1 H2. unfold unquote_to_bytes.
  change (Str.split "%" (String "%" (String h1 (String h2 r))))
    with ("" :: Str.split "%" (String h1 (String h2 r))).
  destruct (split_cons_other "%" h2 r (hexdig_not_percent _ H2))
    as (h & t & Hr & Hs2).
  destruct (split_cons_other "%" h1 (String h2 r) (hexdig_not_percent _ H1))
    as (h' & t' & Hr' & Hs1).
  rewrite Hs2 in Hr'. inversion Hr'; subst h' t'. rewrite Hs1, Hr.
  cbn [map]. rewrite !concat_cons. cbn [unquote_item]. rewrite H1, H2.
  reflexivity.
Qed.

Lemma quoter_escape (b : ascii) :
  is_hexdig (hexdigit (Str.code b / 16)) = true ∧
  is_hexdig (hexdigit (Str.code b mod 16)) = true ∧
  ascii_of_N (16 * hexval (hexdigit (Str.code b / 16))
              + hexval (hexdigit (Str.code b mod 16))) = b.
Proof. by_char b. Qed.

Lemma hexdigit_safe (b : ascii) :
  always_safe (hexdigit (Str.code b / 16)) = true ∧
  always_safe (hexdigit (Str.code b mod 16)) = true.
Proof. by_char b. Qed.

Lemma quote_from_bytes_cons (b : ascii) (s safe : string) :
  quote_from_bytes (String b s) safe = quoter safe b +:+ quote_from_bytes s safe.
Proof. unfold quote_from_bytes. cbn [Str.chars map]. apply concat_cons. Qed.

Lemma quoter_cases (safe : string) (b : ascii) :
  (quoter safe b = String b "" ∧
   (always_safe b || (Str.is_ascii_char b && Str.mem b safe)) = true) ∨
  (quoter safe b
   = String "%" (String (hexdigit (Str.code b / 16))
                   (String (hexdigit (Str.code b mod 16)) "")) ∧
   (always_safe b || (Str.is_ascii_char b && Str.mem b safe)) = false).
Proof.
  unfold quoter.
  destruct (always_safe b || (Str.is_ascii_char b && Str.mem b safe)); auto.
Qed.

Lemma safe_not_percent (b : ascii) :
  (always_safe b || (Str.is_ascii_char b && Str.mem b " ")) = true →
  Str.eqb_ascii b "%" = false.
Proof. by_char b. Qed.

(** Decoding the escapes of an encoded text gives the text back. *)
Lemma unquote_to_bytes_quote (x : string) :
  unquote_to_bytes (quote_from_bytes x " ") = x.
Proof.
  induction x as [|b x IH]; [reflexivity|].
  rewrite quote_from_bytes_cons.
  destruct (quoter_cases " " b) as [[-> Hs]|[-> Hs]]; simpl.
  - rewrite unquote_to_bytes_plain by (apply safe_not_percent, Hs).
    rewrite IH. reflexivity.
  - destruct (quoter_escape b) as (H1 & H2 & Hb).
    rewrite (unquote_to_bytes_escape _ _ _ H1 H2), Hb, IH. reflexivity.
Qed.

Lemma quote_from_bytes_ascii (x safe : string) :
  Str.isascii (quote_from_bytes x safe) = true.
Proof.
  unfold Str.isascii. induction x as [|b x IH]; [reflexivity|].
  rewrite quote_from_bytes_cons, all_app, IH, andb_true_r.
  destruct (quoter_cases safe b) as [[-> Hs]|[-> Hs]]; simpl.
  - rewrite andb_true_r. revert Hs. destruct (Str.mem b safe); by_char b.
  - clear. by_char b.
Qed.

(** A text written without escapes is the text itself. *)
Lemma quote_from_bytes_no_escape (x : string) :
  Str.mem "%" (quote_from_bytes x " ") = false → quote_from_bytes x " " = x.
Proof.
  induction x as [|b x IH]; [reflexivity|].
  rewrite quote_from_bytes_cons, mem_app.
  destruct (quoter_cases " " b) as [[-> Hs]|[-> Hs]].
  - intros [_ Hx]%orb_false_iff. simpl. rewrite (IH Hx). reflexivity.
  - simpl. discriminate.
Qed.

(** ** Queries *)

Lemma ascii_runs_ascii (s : string) :
  Str.isascii s = true → s ≠ "" → ascii_runs s = [(true, s)].
Proof.
  unfold Str.isascii. induction s as [|a s IH]; [congruence|].
  cbn [Str.all ascii_runs]. intros [Ha Hs]%andb_true_iff _. rewrite Ha.
  destruct s as [|a' s']; [reflexivity|].
  rewrite (IH Hs) by discriminate. reflexivity.
Qed.

Lemma unquote_ascii (s : string) :
  Str.isascii s = true →
  unquote s = if Str.mem "%" s then decode_replace (unquote_to_bytes s) else s.
Proof.
  intros Hs. unfold unquote. destruct (Str.mem "%" s) eqn:Hp; [|reflexivity].
  cbn [negb]. rewrite ascii_runs_ascii; [|exact Hs|intros ->; discriminate].
  cbn [map fst snd]. simpl. reflexivity.
Qed.

Lemma unquote_ascii_well_formed (s : string) :
  Str.isascii s = true → well_formed (unquote s).
Proof.
  intros Hs. unfold well_formed. rewrite (unquote_ascii _ Hs).
  destruct (Str.mem "%" s); [apply decode_replace_idem|].
  apply decode_replace_ascii, Hs.
Qed.

Lemma replace_ascii (a b : ascii) (s : string) :
  Str.is_ascii_char b = true → Str.isascii s = true →
  Str.isascii (Str.replace a b s) = true.
Proof.
  unfold Str.isascii. intros Hb. induction s as [|c s IH]; [reflexivity|].
  cbn [Str.all Str.replace]. intros [Hc Hs]%andb_true_iff.
  rewrite (IH Hs), andb_true_r. destruct (Str.eqb_ascii c a); assumption.
Qed.

Lemma replace_absent (a b : ascii) (s : string) :
  Str.mem a s = false → Str.replace a b s = s.
Proof.
  induction s as [|c s IH]; [reflexivity|]. cbn [Str.mem Str.replace].
  intros [Hc Hs]%orb_false_iff. rewrite Hc, (IH Hs). reflexivity.
Qed.

Lemma replace_back (a b : ascii) (s : string) :
  Str.mem b s = false → Str.replace b a (Str.replace a b s) = s.
Proof.
  induction s as [|c s IH]; [reflexivity|]. cbn [Str.mem Str.replace].
  intros [Hc Hs]%orb_false_iff. rewrite (IH Hs). f_equal.
  destruct (Str.eqb_ascii c a) eqn:Hca.
  - unfold Str.eqb_ascii in *. rewrite Ascii.eqb_refl.
    apply Ascii.eqb_eq in Hca. congruence.
  - rewrite Hc. reflexivity.
Qed.

Lemma quote_from_bytes_chars (x safe : string) (c : ascii) :
  always_safe c = false → Str.eqb_ascii c "%" = false →
  Str.mem c x = false ∨ Str.mem c safe = false →
  Str.mem c (quote_from_bytes x safe) = false.
Proof.
  intros Hc Hp Hx. induction x as [|b x IH]; [reflexivity|].
  rewrite quote_from_bytes_cons, mem_app.
  assert (Str.mem c x = false ∨ Str.mem c safe = false) as Hx'.
  { destruct Hx as [Hx|Hx]; [|auto]. cbn [Str.mem] in Hx.
    apply orb_false_iff in Hx. tauto. }
  rewrite (IH Hx'), orb_false_r.
  destruct (quoter_cases safe b) as [[-> Hs]|[-> Hs]].
  - cbn [Str.mem]. rewrite orb_false_r. apply eqb_ascii_neq. intros ->.
    rewrite Hc in Hs. cbn [orb] in Hs. apply andb_true_iff in Hs as [_ Hs].
    destruct Hx as [Hx|Hx]; [|congruence]. cbn [Str.mem] in Hx.
    unfold Str.eqb_ascii in Hx. rewrite Ascii.eqb_refl in Hx. discriminate.
  - cbn [Str.mem]. rewrite orb_false_r.
    destruct (hexdigit_safe b) as [H1 H2].
    rewrite orb_false_iff. split; [|rewrite orb_false_iff; split].
    + unfold Str.eqb_ascii in *. rewrite Ascii.eqb_sym. exact Hp.
    + apply eqb_ascii_neq. intros Heq. rewrite Heq in H1. congruence.
    + apply eqb_ascii_neq. intros Heq. rewrite Heq in H2. congruence.
Qed.

(** Undoing the plus signs of [quote_plus] leaves the text encoded with
    the space kept. *)
Lemma quote_plus_spaces (x : string) :
  Str.replace "+" " " (quote_plus x) = quote_from_bytes x " ".
Proof.
  unfold quote_plus, quote.
  destruct (Str.mem " " x) eqn:Hsp; cbn [negb].
  - destruct x as [|b x]; [discriminate|]. cbn [Str.is_empty].
    apply replace_back. apply quote_from_bytes_chars; auto.
  - destruct x as [|b x]; [reflexivity|]. cbn [Str.is_empty].
    rewrite replace_absent by (apply quote_from_bytes_chars; auto).
    clear -Hsp. revert Hsp. generalize (String b x). intros y.
    induction y as [|c y IH]; [reflexivity|]. cbn [Str.mem].
    intros [Hc Hy]%orb_false_iff. rewrite !quote_from_bytes_cons, (IH Hy).
    f_equal. unfold quoter. cbn [Str.mem].
    assert (Str.eqb_ascii " " c = false) as ->.
    { unfold Str.eqb_ascii in *. rewrite Ascii.eqb_sym. exact Hc. }
    reflexivity.
Qed.

(** A well-formed text survives [quote_plus] followed by [unquote_plus]. *)
Lemma unquote_quote_plus (x : string) :
  well_formed x → unquote (Str.replace "+" " " (quote_plus x)) = x.
Proof.
  intros Hwf. rewrite quote_plus_spaces.
  rewrite (unquote_ascii _ (quote_from_bytes_ascii x " ")).
  destruct (Str.mem "%" (quote_from_bytes x " ")) eqn:Hp.
  - rewrite unquote_to_bytes_quote. exact Hwf.
  - apply quote_from_bytes_no_escape, Hp.
Qed.

(** ** Splitting and joining *)

Lemma split_absent (c : ascii) (s : string) :
  Str.mem c s = false → Str.split c s = [s].
Proof.
  induction s as [|a s IH]; [reflexivity|]. cbn [Str.mem Str.split].
  intros [Ha Hs]%orb_false_iff. rewrite Ha, (IH Hs). reflexivity.
Qed.

Lemma split_app (c : ascii) (x r : string) :
  Str.mem c x = false →
  Str.split c (x +:+ String c r) = x :: Str.split c r.
Proof.
  induction x as [|a x IH]; cbn [Str.mem].
  - intros _. simpl. unfold Str.eqb_ascii. rewrite Ascii.eqb_refl. reflexivity.
  - intros [Ha Hx]%orb_false_iff. simpl. rewrite Ha, (IH Hx). reflexivity.
Qed.

Lemma all_split (p : ascii → bool) (c : ascii) (s : string) :
  Str.all p s = true → Forall (λ x, Str.all p x = true) (Str.split c s).
Proof.
  induction s as [|a s IH]; cbn [Str.all Str.split].
  - intros _. repeat constructor.
  - intros [Ha Hs]%andb_true_iff. specialize (IH Hs).
    destruct (Str.eqb_ascii a c); [constructor; [reflexivity|exact IH]|].
    destruct (Str.split c s) as [|h t]; [repeat constructor; simpl; rewrite Ha; reflexivity|].
    inversion IH; subst. constructor; [|assumption].
    simpl. rewrite Ha. assumption.
Qed.

Lemma join_cons (sep x y : string) (l : list string) :
  Str.join sep (x :: y :: l) = x +:+ sep +:+ Str.join sep (y :: l).
Proof. reflexivity. Qed.

Lemma split_join (c : ascii) (items : list string) :
  items ≠ [] → Forall (λ i, Str.mem c i = false) items →
  Str.split c (Str.join (String c "") items) = items.
Proof.
  induction items as [|x [|y l] IH]; [congruence| |].
  - intros _ Hx. inversion Hx; subst. simpl. apply split_absent. assumption.
  - intros _ Hx. inversion Hx; subst. rewrite join_cons.
    change (x +:+ String c "" +:+ Str.join (String c "") (y :: l))
      with (x +:+ String c (Str.join (String c "") (y :: l))).
    rewrite split_app by assumption. f_equal. apply IH; [discriminate|assumption].
Qed.

(** ** What [quote_plus] and [urlencode] write *)

Lemma all_replace (p : ascii → bool) (a b : ascii) (s : string) :
  p b = true →
  Str.all (λ c, p c || Str.eqb_ascii c a) s = true →
  Str.all p (Str.replace a b s) = true.
Proof.
  intros Hb. induction s as [|c s IH]; [reflexivity|].
  cbn [Str.all Str.replace]. intros [Hc Hs]%andb_true_iff.
  rewrite (IH Hs), andb_true_r.
  destruct (Str.eqb_ascii c a); [exact Hb|].
  rewrite orb_false_r in Hc. exact Hc.
Qed.

Lemma quoter_chars (safe : string) (p : ascii → bool) (b : ascii) :
  (∀ c, always_safe c = true → p c = true) →
  (∀ c, Str.mem c safe = true → p c = true) →
  p "%"%char = true →
  Str.all p (quoter safe b) = true.
Proof.
  intros Hsafe Hmem Hpct.
  destruct (quoter_cases safe b) as [[-> Hs]|[-> Hs]]; cbn [Str.all].
  - rewrite andb_true_r. apply orb_true_iff in Hs as [Hs|Hs]; [auto|].
    apply andb_true_iff in Hs as [_ Hs]. auto.
  - destruct (hexdigit_safe b) as [H1 H2].
    rewrite Hpct, (Hsafe _ H1), (Hsafe _ H2). reflexivity.
Qed.

Lemma quote_from_bytes_all (safe : string) (p : ascii → bool) (x : string) :
  (∀ c, always_safe c = true → p c = true) →
  (∀ c, Str.mem c safe = true → p c = true) →
  p "%"%char = true →
  Str.all p (quote_from_bytes x safe) = true.
Proof.
  intros Hsafe Hmem Hpct. induction x as [|b x IH]; [reflexivity|].
  rewrite quote_from_bytes_cons, all_app, IH, andb_true_r.
  apply quoter_chars; assumption.
Qed.

Lemma quote_plus_chars (x : string) : Str.all quoted_char (quote_plus x) = true.
Proof.
  unfold quote_plus, quote.
  destruct (Str.mem " " x) eqn:Hsp; cbn [negb].
  - destruct x as [|b x]; [discriminate|]. cbn [Str.is_empty].
    apply all_replace; [reflexivity|].
    apply quote_from_bytes_all.
    + intros c Hc. unfold quoted_char. rewrite Hc. reflexivity.
    + intros c. cbn [Str.mem]. rewrite orb_false_r. intros Hc.
      unfold Str.eqb_ascii in *. rewrite Ascii.eqb_sym, Hc.
      apply orb_true_r.
    + reflexivity.
  - destruct x as [|b x]; [reflexivity|]. cbn [Str.is_empty].
    apply quote_from_bytes_all.
    + intros c Hc. unfold quoted_char. rewrite Hc. reflexivity.
    + intros c. cbn [Str.mem]. discriminate.
    + reflexivity.
Qed.

Lemma urlencode_join (l : list (string * string)) :
  urlencode l = Str.join "&" (map encode_pair l).
Proof. reflexivity. Qed.

Lemma quoted_query_char (c : ascii) : quoted_char c = true → query_char c = true.
Proof. intros H. unfold query_char. rewrite H. reflexivity. Qed.

Lemma encode_pair_chars (kv : string * string) :
  Str.all query_char (encode_pair kv) = true.
Proof.
  unfold encode_pair. rewrite !all_app.
  rewrite (all_impl _ _ _ quoted_query_char (quote_plus_chars kv.1)).
  rewrite (all_impl _ _ _ quoted_query_char (quote_plus_chars kv.2)).
  reflexivity.
Qed.

Lemma join_all (p : ascii → bool) (sep : string) (l : list string) :
  Str.all p sep = true → Forall (λ x, Str.all p x = true) l →
  Str.all p (Str.join sep l) = true.
Proof.
  intros Hsep. induction l as [|x [|y l] IH]; intros Hl.
  - reflexivity.
  - inversion Hl; subst. assumption.
  - inversion Hl; subst. rewrite join_cons, !all_app, Hsep.
    rewrite IH by assumption. rewrite andb_true_r. assumption.
Qed.

Lemma urlencode_chars (l : list (string * string)) :
  Str.all query_char (urlencode l) = true.
Proof.
  rewrite urlencode_join. apply join_all; [reflexivity|].
  apply Forall_forall. intros x Hx.
  apply list_elem_of_fmap in Hx as (kv & -> & _).
  apply encode_pair_chars.
Qed.

Lemma query_char_clean (c : ascii) : query_char c = true → clean_char c = true.
Proof. by_char c. Qed.

Lemma query_char_not_hash (c : ascii) :
  query_char c = true → negb (Str.eqb_ascii c "#") = true.
Proof. by_char c. Qed.

Lemma quoted_char_not_amp (c : ascii) :
  quoted_char c = true → negb (Str.eqb_ascii c "&") = true.
Proof. by_char c. Qed.

Lemma quoted_char_not_eq (c : ascii) :
  quoted_char c = true → negb (Str.eqb_ascii c "=") = true.
Proof. by_char c. Qed.

Lemma quote_plus_no_amp (x : string) : Str.mem "&" (quote_plus x) = false.
Proof.
  apply mem_false_all. eapply all_impl; [|apply quote_plus_chars].
  apply quoted_char_not_amp.
Qed.

Lemma quote_plus_no_eq (x : string) : Str.mem "=" (quote_plus x) = false.
Proof.
  apply mem_false_all. eapply all_impl; [|apply quote_plus_chars].
  apply quoted_char_not_eq.
Qed.

(** ** Parsing an encoded query *)

Lemma parse_field_encode (kv : string * string) :
  well_formed kv.1 → well_formed kv.2 →
  parse_field (encode_pair kv) = Some kv.
Proof.
  intros Hk Hv. destruct kv as [k v]. unfold parse_field, encode_pair.
  cbn [fst snd] in *.
  assert (Str.is_empty (quote_plus k +:+ "=" +:+ quote_plus v) = false) as ->.
  { destruct (quote_plus k); reflexivity. }
  change (quote_plus k +:+ "=" +:+ quote_plus v)
    with (quote_plus k +:+ String "=" (quote_plus v)).
  rewrite (cut_app _ _ _ (quote_plus_no_eq k)).
  rewrite (unquote_quote_plus _ Hk), (unquote_quote_plus _ Hv). reflexivity.
Qed.

Lemma parse_qsl_urlencode (l : list (string * string)) :
  Forall (λ kv, well_formed kv.1 ∧ well_formed kv.2) l →
  parse_qsl (urlencode l) = l.
Proof.
  intros Hl. unfold parse_qsl. rewrite urlencode_join.
  destruct l as [|kv l]; [reflexivity|].
  assert (Str.is_empty (Str.join "&" (map encode_pair (kv :: l))) = false)
    as ->.
  { cbn [map]. destruct (map encode_pair l); unfold encode_pair;
      destruct (quote_plus kv.1); reflexivity. }
  rewrite split_join.
  - induction Hl as [|x r [Hx1 Hx2] Hr IH]; [reflexivity|].
    cbn [map omap list_omap]. rewrite (parse_field_encode _ Hx1 Hx2).
    f_equal. exact IH.
  - discriminate.
  - apply Forall_forall. intros x Hx.
    apply list_elem_of_fmap in Hx as (kv' & -> & _).
    unfold encode_pair. rewrite !mem_app, quote_plus_no_amp, quote_plus_no_amp.
    reflexivity.
Qed.

Lemma parse_field_well_formed (nv : string) (kv : string * string) :
  Str.isascii nv = true → parse_field nv = Some kv →
  well_formed kv.1 ∧ well_formed kv.2.
Proof.
  intros Ha. unfold parse_field.
  destruct (Str.is_empty nv); [discriminate|].
  assert (∀ n, Str.isascii n = true →
               well_formed (unquote (Str.replace "+" " " n))) as Hwf.
  { intros n Hn. apply unquote_ascii_well_formed, replace_ascii;
      [reflexivity|exact Hn]. }
  destruct (Str.cut "=" nv) as [[n v]|] eqn:Hc.
  - destruct (all_cut _ _ _ _ _ Ha Hc) as [Hn Hv].
    intros [= <-]. cbn [fst snd]. split; apply Hwf; assumption.
  - intros [= <-]. cbn [fst snd]. split; [apply Hwf; assumption|reflexivity].
Qed.

Lemma parse_qsl_well_formed (q : string) :
  Str.isascii q = true →
  Forall (λ kv, well_formed kv.1 ∧ well_formed kv.2) (parse_qsl q).
Proof.
  intros Hq. unfold parse_qsl.
  assert (Forall (λ x, Str.isascii x = true)
            (if Str.is_empty q then [] else Str.split "&" q)) as Hf.
  { destruct (Str.is_empty q); [constructor|]. apply all_split, Hq. }
  induction Hf as [|x r Hx Hr IH]; [constructor|].
  cbn [omap list_omap]. destruct (parse_field x) as [kv|] eqn:Hp; [|exact IH].
  constructor; [|exact IH]. eapply parse_field_well_formed; eassumption.
Qed.

Lemma urlunparse_absolute (s n p a q : string) :
  s ≠ "" → n ≠ "" → rooted (with_params p a) →
  urlunparse (mkParse s n p a q "") = address s n (with_params p a) q.
Proof.
  intros Hs Hn Hroot. unfold urlunparse, urlunsplit, address.
  cbn [scheme netloc path params query fragment
       s_scheme s_netloc s_path s_query s_fragment].
  fold (with_params p a).
  apply is_empty_false in Hs, Hn. rewrite Hs, Hn. cbn [negb orb andb].
  assert ((if negb (Str.is_empty (with_params p a)) &&
              negb (Str.startswith "/" (with_params p a))
           then "/" +:+ with_params p a else with_params p a)
          = with_params p a) as ->.
  { destruct Hroot as [-> | ->]; [reflexivity|].
    rewrite andb_false_r. reflexivity. }
  destruct (Str.is_empty q); cbn [negb Str.is_empty].
  - rewrite sapp_nil_r. destruct s; reflexivity.
  - rewrite !sapp_assoc. reflexivity.
Qed.

Lemma filter_filter_same {A} (f : A → Prop) `{!∀ x, Decision (f x)}
  (l : list A) : filter f (filter f l) = filter f l.
Proof.
  induction l as [|x l IH]; [reflexivity|]. rewrite filter_cons.
  destruct (decide (f x)) as [Hx|Hx]; [|exact IH].
  rewrite filter_cons. destruct (decide (f x)); [|contradiction].
  f_equal. exact IH.
Qed.

Lemma Forall_filter_keep {A} (P : A → Prop) (f : A → Prop)
  `{!∀ x, Decision (f x)} (l : list A) :
  Forall P l → Forall P (filter f l).
Proof.
  intros Hall. induction Hall as [|x l Hx Hl IH]; [constructor|].
  rewrite filter_cons. destruct (decide (f x)); [constructor|]; assumption.
Qed.

(** Stripping the tracking parameters of an ASCII query a second time
    changes nothing. *)
Lemma stripped_query_idem (q : string) :
  Str.isascii q = true →
  stripped_query (stripped_query q) = stripped_query q.
Proof.
  intros Hq. unfold stripped_query at 1 3.
  unfold stripped_query. rewrite parse_qsl_urlencode.
  - rewrite filter_filter_same. reflexivity.
  - apply Forall_filter_keep, parse_qsl_well_formed, Hq.
Qed.

Lemma stripped_query_chars (q : string) :
  clean (stripped_query q) ∧ Str.mem "#" (stripped_query q) = false.
Proof.
  unfold stripped_query. split.
  - eapply all_impl; [|apply urlencode_chars]. apply query_char_clean.
  - apply mem_false_all. eapply all_impl; [|apply urlencode_chars].
    apply query_char_not_hash.
Qed.

Section Idempotence.
Context {E : Externals}.

(** The parts of an address in which [urlparse] finds a scheme and a
    network location *)
Lemma urlparse_inv (url : string) (P : ParseResult) :
  urlparse url "" = Return P →
  scheme P ≠ "" → netloc P ≠ "" →
  (∃ c s', scheme P = String c s' ∧ Str.is_alpha c = true) ∧
  Str.all scheme_char (scheme P) = true ∧
  Str.lower (scheme P) = scheme P ∧
  clean (netloc P) ∧
  Str.all (λ c, negb (netloc_delim c)) (netloc P) = true ∧
  bracket_check (netloc P) = Return () ∧
  checknetloc (netloc P) = Return () ∧
  (if Str.inb (scheme P) uses_params &&
      Str.mem ";" (with_params (path P) (params P))
   then splitparams (with_params (path P) (params P))
   else (with_params (path P) (params P), "")) = (path P, params P) ∧
  rooted (with_params (path P) (params P)) ∧
  clean (with_params (path P) (params P)) ∧
  Str.mem "?" (with_params (path P) (params P)) = false ∧
  Str.mem "#" (with_params (path P) (params P)) = false.
Proof.
  unfold urlparse. destruct (urlsplit url "") as [r|e] eqn:Hr; [|discriminate].
  cbn [mbind outcome_bind].
  destruct (if Str.inb (s_scheme r) uses_params && Str.mem ";" (s_path r)
            then splitparams (s_path r) else (s_path r, "")) as [p a] eqn:Hsp.
  intros [= <-]. cbn [scheme netloc path params query fragment].
  intros Hs Hn.
  destruct (urlsplit_inv _ _ Hr Hs Hn)
    as (H1 & H2 & H3 & H4 & H5 & H6 & H7 & H8 & H9 & H10 & H11 & H12 & H13).
  destruct (params_roundtrip _ _ _ _ H11 Hsp) as (Hrt & Hroot & Hall).
  repeat split; auto.
  - apply Hall, H8.
  - apply mem_false_all, Hall, mem_false_all, H9.
  - apply mem_false_all, Hall, mem_false_all, H10.
Qed.

Lemma urlparse_query_clean (url : string) (P : ParseResult) :
  urlparse url "" = Return P → scheme P ≠ "" → netloc P ≠ "" →
  clean (query P) ∧ Str.mem "#" (query P) = false.
Proof.
  unfold urlparse. destruct (urlsplit url "") as [r|e] eqn:Hr; [|discriminate].
  cbn [mbind outcome_bind].
  destruct (if Str.inb (s_scheme r) uses_params && Str.mem ";" (s_path r)
            then splitparams (s_path r) else (s_path r, "")) as [p a] eqn:Hsp.
  intros [= <-]. cbn [scheme netloc path params query fragment].
  intros Hs Hn.
  destruct (urlsplit_inv _ _ Hr Hs Hn)
    as (H1 & H2 & H3 & H4 & H5 & H6 & H7 & H8 & H9 & H10 & H11 & H12 & H13).
  auto.
Qed.

(** [urlparse] recovers the parts from which an address was written. *)
Lemma urlparse_address (s n p a q sch : string) :
  (∃ c s', s = String c s' ∧ Str.is_alpha c = true) →
  Str.all scheme_char s = true → Str.lower s = s →
  clean n → Str.all (λ c, negb (netloc_delim c)) n = true →
  bracket_check n = Return () → checknetloc n = Return () →
  (if Str.inb s uses_params && Str.mem ";" (with_params p a)
   then splitparams (with_params p a)
   else (with_params p a, "")) = (p, a) →
  rooted (with_params p a) → clean (with_params p a) →
  Str.mem "?" (with_params p a) = false →
  Str.mem "#" (with_params p a) = false →
  clean q → Str.mem "#" q = false →
  urlparse (address s n (with_params p a) q) sch
  = Return (mkParse s n p a q "").
Proof.
  intros H1 H2 H3 H4 H5 H6 H7 Hsp Hroot Hcl Hq Hh Hcq Hqh.
  unfold urlparse, address.
  rewrite (urlsplit_build s n (with_params p a) q sch) by assumption.
  cbn [mbind outcome_bind s_scheme s_netloc s_path s_query s_fragment].
  rewrite Hsp. reflexivity.
Qed.

Lemma strip_parsed (url : string) (P : ParseResult) :
  urlparse url "" = Return P →
  strip_fragment_and_tracking url
  = Return (urlunparse (mkParse (scheme P) (netloc P) (path P) (params P)
                                (stripped_query (query P)) "")).
Proof.
  intros HP. unfold strip_fragment_and_tracking. rewrite HP. reflexivity.
Qed.

Lemma relative_uses_netloc (s : string) :
  Str.inb s uses_relative = true → Str.inb s uses_netloc = true.
Proof.
  unfold Str.inb. intros H. apply existsb_exists in H as (x & Hin & Heq).
  apply String.eqb_eq in Heq. subst x. simpl in Hin.
  repeat (destruct Hin as [<-|Hin]; [reflexivity|]). contradiction.
Qed.

Lemma address_not_empty (s n pth q : string) :
  s ≠ "" → Str.is_empty (address s n pth q) = false.
Proof. intros Hs. unfold address. destruct s; [congruence|reflexivity]. Qed.

(** Joining an address that has a scheme and a network location onto any
    base that parses gives the address back. *)
Lemma urljoin_address (b s n p a q : string) :
  b = "" ∨ (∃ pb, urlparse b "" = Return pb) →
  s ≠ "" → n ≠ "" →
  (∀ sch, urlparse (address s n (with_params p a) q) sch
          = Return (mkParse s n p a q "")) →
  urlunparse (mkParse s n p a q "") = address s n (with_params p a) q →
  urljoin b (address s n (with_params p a) q)
  = Return (address s n (with_params p a) q).
Proof.
  intros Hb Hs Hn Hparse Hun. unfold urljoin.
  destruct (Str.is_empty b) eqn:Hbe; [reflexivity|].
  rewrite (address_not_empty _ _ _ _ Hs).
  destruct Hb as [->|(pb & Hpb)]; [discriminate|].
  rewrite Hpb. cbn [mbind outcome_bind]. rewrite Hparse.
  cbn [mbind outcome_bind scheme netloc path params query fragment].
  destruct (negb (s =? scheme pb)%string || negb (Str.inb s uses_relative))
    eqn:Hc; [reflexivity|].
  apply orb_false_iff in Hc as [_ Hrel]. apply negb_false_iff in Hrel.
  rewrite (relative_uses_netloc _ Hrel).
  apply is_empty_false in Hn. rewrite Hn. cbn [negb andb].
  rewrite Hun. reflexivity.
Qed.

(** Normalizing is idempotent on addresses with a scheme and a network
    location. *)
Theorem normalize_url_idempotent_absolute (base href abs N b : string)
  (P : ParseResult) :
  urljoin base href = Return abs →
  urlparse abs "" = Return P →
  scheme P ≠ "" → netloc P ≠ "" →
  Str.isascii (query P) = true →
  normalize_url base href = Return (Some N) →
  unfetchable_scheme N = false →
  b = "" ∨ (∃ pb, urlparse b "" = Return pb) →
  normalize_url b N = Return (Some N).
Proof.
  intros Hj HP Hs Hn Hq HN Hu Hb.
  destruct (urlparse_inv _ _ HP Hs Hn)
    as (H1 & H2 & H3 & H4 & H5 & H6 & H7 & Hsp & Hroot & Hcl & Hpq & Hph).
  destruct (stripped_query_chars (query P)) as [Hcq Hqh].
  (* the first normal form *)
  assert (N = address (scheme P) (netloc P)
                (with_params (path P) (params P))
                (stripped_query (query P))) as HNeq.
  { unfold normalize_url in HN.
    destruct (Str.is_empty href); [discriminate|].
    destruct (unfetchable_scheme href); [discriminate|].
    rewrite Hj in HN. cbn [mbind outcome_bind] in HN.
    rewrite (strip_parsed _ _ HP) in HN. cbn [mbind outcome_bind] in HN.
    rewrite (urlunparse_absolute _ _ _ _ _ Hs Hn Hroot) in HN.
    congruence. }
  (* its parts *)
  assert (∀ sch, urlparse N sch
                 = Return (mkParse (scheme P) (netloc P) (path P) (params P)
                                   (stripped_query (query P)) "")) as Hparse.
  { intros sch. rewrite HNeq. apply urlparse_address; assumption. }
  assert (urlunparse (mkParse (scheme P) (netloc P) (path P) (params P)
                              (stripped_query (query P)) "") = N) as Hun.
  { rewrite HNeq. apply urlunparse_absolute; assumption. }
  unfold normalize_url.
  assert (Str.is_empty N = false) as ->
    by (rewrite HNeq; apply address_not_empty, Hs).
  rewrite Hu.
  assert (urljoin b N = Return N) as ->.
  { rewrite HNeq. apply urljoin_address; try assumption.
    - intros sch. rewrite <- HNeq. apply Hparse.
    - rewrite <- HNeq. exact Hun. }
  cbn [mbind outcome_bind].
  rewrite (strip_parsed _ _ (Hparse "")).
  cbn [scheme netloc path params query fragment mbind outcome_bind].
  rewrite (stripped_query_idem _ Hq), Hun. reflexivity.
Qed.

End Idempotence.

Lemma normalize_url_idempotent_absolute_witness :
  @normalize_url plain_externals "http://x.com/b?q=1" "http://x.com/b?q=1"
  = Return (Some "http://x.com/b?q=1").
Proof.
  apply (@normalize_url_idempotent_absolute plain_externals
           "http://x.com/a" "/b?utm_source=x&q=1#frag"
           "http://x.com/b?utm_source=x&q=1#frag" "http://x.com/b?q=1"
           "http://x.com/b?q=1"
           (mkParse "http" "x.com" "/b" "" "utm_source=x&q=1" "frag")).
  - vm_compute. reflexivity.
  - vm_compute. reflexivity.
  - simpl. discriminate.
  - simpl. discriminate.
  - vm_compute. reflexivity.
  - vm_compute. reflexivity.
  - vm_compute. reflexivity.
  - right. eexists. vm_compute. reflexivity.
Defined.

Section NormalForm.
Context {E : Externals}.

(** The normal form of an address with a scheme and a network location
    keeps the scheme, the network location, the path and the parameters;
    it has no fragment, and its query holds the pairs of the original
    query whose lower-cased key is not a tracking name, in their order. *)
Theorem normal_form_parts (base href abs N : string) (P : ParseResult) :
  urljoin base href = Return abs →
  urlparse abs "" = Return P →
  scheme P ≠ "" → netloc P ≠ "" →
  Str.isascii (query P) = true →
  normalize_url base href = Return (Some N) →
  ∃ q, urlparse N ""
       = Return (mkParse (scheme P) (netloc P) (path P) (params P) q "") ∧
       parse_qsl q
       = filter (λ kv : string * string,
                   negb (Str.inb (Str.lower kv.1) TRACKING_PARAMS))
                (parse_qsl (query P)).
Proof.
  intros Hj HP Hs Hn Hq HN.
  destruct (urlparse_inv _ _ HP Hs Hn)
    as (H1 & H2 & H3 & H4 & H5 & H6 & H7 & Hsp & Hroot & Hcl & Hpq & Hph).
  destruct (stripped_query_chars (query P)) as [Hcq Hqh].
  exists (stripped_query (query P)). split.
  - unfold normalize_url in HN.
    destruct (Str.is_empty href); [discriminate|].
    destruct (unfetchable_scheme href); [discriminate|].
    rewrite Hj in HN. cbn [mbind outcome_bind] in HN.
    rewrite (strip_parsed _ _ HP) in HN. cbn [mbind outcome_bind] in HN.
    rewrite (urlunparse_absolute _ _ _ _ _ Hs Hn Hroot) in HN.
    inversion HN; subst N. apply urlparse_address; assumption.
  - unfold stripped_query. apply parse_qsl_urlencode.
    apply Forall_filter_keep, parse_qsl_well_formed, Hq.
Qed.

End NormalForm.

Lemma normal_form_parts_witness :
  ∃ q, @urlparse plain_externals "http://x.com/b?q=1" ""
       = Return (mkParse "http" "x.com" "/b" "" q "") ∧
       parse_qsl q
       = filter (λ kv : string * string,
                   negb (Str.inb (Str.lower kv.1) TRACKING_PARAMS))
                (parse_qsl "utm_source=x&q=1").
Proof.
  apply (@normal_form_parts plain_externals
           "http://x.com/a" "/b?utm_source=x&q=1#frag"
           "http://x.com/b?utm_source=x&q=1#frag" "http://x.com/b?q=1"
           (mkParse "http" "x.com" "/b" "" "utm_source=x&q=1" "frag")).
  - vm_compute. reflexivity.
  - vm_compute. reflexivity.
  - simpl. discriminate.
  - simpl. discriminate.
  - vm_compute. reflexivity.
  - vm_compute. reflexivity.
Defined.

(** ** Rejected references *)

Lemma match_prefix_ci_lower (pat s : string) :
  Str.startswith pat (Str.lower s) = true → match_prefix_ci pat s = true.
Proof.
  revert s. induction pat as [|c pat IH]; intros s; [reflexivity|].
  destruct s as [|a r]; [discriminate|].
  cbn [Str.lower Str.startswith match_prefix_ci match_ci].
  intros [Hc Hr]%andb_true_iff.
  assert (Str.eqb_ascii (Str.lower_char a) c = true) as ->.
  { unfold Str.eqb_ascii in *. rewrite Ascii.eqb_sym. exact Hc. }
  apply IH, Hr.
Qed.

(** An empty reference, and a reference that starts with [javascript:],
    [mailto:] or [tel:] in any mix of upper and lower case, has no normal
    form, whatever the base. *)
Theorem normalize_url_rejects {E : Externals} (base href : string) :
  href = "" ∨
  Str.startswith "javascript:" (Str.lower href) = true ∨
  Str.startswith "mailto:" (Str.lower href) = true ∨
  Str.startswith "tel:" (Str.lower href) = true →
  normalize_url base href = Return None.
Proof.
  intros H. unfold normalize_url.
  destruct (Str.is_empty href) eqn:He; [reflexivity|].
  destruct H as [->|H]; [discriminate|].
  unfold unfetchable_scheme.
  destruct H as [H|[H|H]]; rewrite (match_prefix_ci_lower _ _ H);
    rewrite ?orb_true_r; reflexivity.
Qed.

Lemma normalize_url_rejects_witness :
  @normalize_url plain_externals "http://x.com/a" "JavaScript:void(0)"
  = Return None.
Proof.
  apply (@normalize_url_rejects plain_externals).
  right. left. vm_compute. reflexivity.
Defined.

(** ** Allowlists *)

Lemma domain_matches_listed {E : Externals} (nl : string)
  (allowed allowed' : list string) :
  map listed allowed = map listed allowed' →
  domain_matches nl allowed = domain_matches nl allowed'.
Proof.
  revert allowed'. induction allowed as [|d rest IH]; intros [|d' rest'];
    try discriminate; [reflexivity|].
  cbn [map]. intros [= Hd Hrest]. cbn [domain_matches].
  fold (listed d) (listed d'). rewrite Hd, (IH _ Hrest). reflexivity.
Qed.

(** Two allowlists whose entries agree up to letter case and leading dots
    accept the same URLs. *)
Theorem is_allowed_domain_listed {E : Externals} (url : string)
  (allowed allowed' : list string) :
  map listed allowed = map listed allowed' →
  is_allowed_domain url allowed = is_allowed_domain url allowed'.
Proof.
  intros Hl. unfold is_allowed_domain.
  destruct allowed as [|d rest], allowed' as [|d' rest']; try discriminate;
    [reflexivity|].
  destruct (urlparse url "") as [p|e]; [|reflexivity].
  cbn [mbind outcome_bind]. f_equal. apply domain_matches_listed, Hl.
Qed.

Lemma is_allowed_domain_listed_witness :
  @is_allowed_domain plain_externals "http://sub.example.com/p"
    [".Example.COM"]
  = @is_allowed_domain plain_externals "http://sub.example.com/p"
      ["example.com"].
Proof.
  apply (@is_allowed_domain_listed plain_externals).
  vm_compute. reflexivity.
Defined.

Lemma startswith_app_l (a b c : string) :
  Str.startswith a b = true → Str.startswith a (b +:+ c) = true.
Proof.
  revert b. induction a as [|x a IH]; intros [|y b]; simpl; auto;
    try discriminate.
  intros [-> Hab]%andb_true_iff. simpl. apply IH, Hab.
Qed.

Lemma domain_matches_subdomain {E : Externals} (n s : string)
  (allowed : list string) :
  domain_matches n allowed = true →
  domain_matches (s +:+ "." +:+ n) allowed = true.
Proof.
  induction allowed as [|d rest IH]; [discriminate|].
  cbn [domain_matches]. fold (listed d).
  destruct (String.eqb n (listed d) || Str.endswith ("." +:+ listed d) n)
    eqn:H.
  - intros _.
    assert (Str.endswith ("." +:+ listed d) (s +:+ "." +:+ n) = true) as ->;
      [|rewrite orb_true_r; reflexivity].
    unfold Str.endswith in *.
    apply orb_true_iff in H as [H|H].
    + apply String.eqb_eq in H. subst n.
      rewrite (rev_app s). apply startswith_app.
    + rewrite (rev_app s), (rev_app "." n), sapp_assoc.
      apply startswith_app_l, H.
  - intros H'. rewrite (IH H').
    match goal with |- (if ?c then _ else _) = _ => destruct c end;
      reflexivity.
Qed.

Lemma isascii_app (a b : string) :
  Str.isascii (a +:+ b) = Str.isascii a && Str.isascii b.
Proof.
  unfold Str.isascii. induction a as [|x a IH]; simpl; [reflexivity|].
  rewrite IH, andb_assoc. reflexivity.
Qed.

(** Every ASCII subdomain of an accepted network location is accepted.
    (Lower-casing a text that is not ASCII need not commute with putting
    a label in front of it.) *)
Theorem is_allowed_domain_subdomain {E : Externals} (url url' sub : string)
  (allowed : list string) (p p' : ParseResult) :
  urlparse url "" = Return p →
  urlparse url' "" = Return p' →
  netloc p' = sub +:+ "." +:+ netloc p →
  Str.isascii (netloc p') = true →
  is_allowed_domain url allowed = Return true →
  is_allowed_domain url' allowed = Return true.
Proof.
  intros Hp Hp' Hnl Hascii.
  assert (Str.isascii (netloc p) = true) as Hascii0.
  { rewrite Hnl, !isascii_app in Hascii.
    apply andb_prop in Hascii as [_ [_ H]%andb_prop]. exact H. }
  unfold is_allowed_domain.
  destruct allowed as [|d0 rest0]; [reflexivity|].
  rewrite Hp, Hp'. cbn [mbind outcome_bind].
  unfold str_lower. rewrite Hascii, Hascii0, Hnl.
  intros [= H]. f_equal. rewrite !lower_app.
  change (Str.lower ".") with ".".
  apply domain_matches_subdomain, H.
Qed.

Lemma is_allowed_domain_subdomain_witness :
  @is_allowed_domain plain_externals "http://img.shop.example.com/p"
    ["Example.com"] = Return true.
Proof.
  apply (@is_allowed_domain_subdomain plain_externals
           "http://shop.example.com/" "http://img.shop.example.com/p" "img"
           ["Example.com"]
           (mkParse "http" "shop.example.com" "/" "" "" "")
           (mkParse "http" "img.shop.example.com" "/p" "" "" "")).
  - vm_compute. reflexivity.
  - vm_compute. reflexivity.
  - reflexivity.
  - reflexivity.
  - vm_compute. reflexivity.
Defined.

(** ** No fragment is left *)

Lemma mem_take (d : ascii) (n : nat) (s : string) :
  Str.mem d s = false → Str.mem d (Str.take n s) = false.
Proof.
  revert s. induction n as [|n IH]; intros [|c s]; simpl; auto.
  intros [Hc Hs]%orb_false_iff. rewrite Hc, (IH s Hs). reflexivity.
Qed.

Lemma splitparams_mem (d : ascii) (p0 : string) :
  Str.mem d p0 = false →
  Str.mem d (splitparams p0).1 = false ∧ Str.mem d (splitparams p0).2 = false.
Proof.
  intros Hm. unfold splitparams. destruct (Str.mem "/" p0).
  - destruct (rcut "/" p0) as [[dir last]|] eqn:Hr; [|auto].
    destruct (Str.cut ";" last) as [[h t]|] eqn:Hc; [|auto].
    apply rcut_some in Hr as [-> _]. apply cut_some in Hc as [-> _].
    repeat (rewrite mem_app in Hm; cbn [Str.mem] in Hm).
    repeat (apply orb_false_iff in Hm as [? Hm] || apply orb_false_iff in Hm).
    cbn [fst snd]. rewrite !mem_app. cbn [Str.mem].
    repeat match goal with H : _ = false |- _ => rewrite H end. auto.
  - destruct (Str.cut ";" p0) as [[h t]|] eqn:Hc.
    + apply cut_some in Hc as [-> _].
      rewrite mem_app in Hm. cbn [Str.mem] in Hm.
      apply orb_false_iff in Hm as [H1 [_ H2]%orb_false_iff]. auto.
    + cbn [fst snd]. split; [apply mem_take, Hm|exact Hm].
Qed.

Section NoFragment.
Context {E : Externals}.

Lemma urlsplit_no_hash (url : string) (r : SplitResult) :
  urlsplit url "" = Return r →
  Str.mem "#" (s_scheme r) = false ∧ Str.mem "#" (s_netloc r) = false ∧
  Str.mem "#" (s_path r) = false.
Proof.
  unfold urlsplit.
  set (u0 := Str.remove unsafe_url_byte (Str.lstrip c0_control_or_space url)).
  change (Str.remove unsafe_url_byte (Str.strip c0_control_or_space ""))
    with "".
  destruct (split_scheme u0 "") as [s u1] eqn:Hs.
  destruct (split_netloc u1) as [[nl u2]|e] eqn:Hn; [|discriminate].
  cbn [mbind outcome_bind].
  destruct (split_tail "#" u2) as [u3 frag] eqn:Hf.
  destruct (split_tail "?" u3) as [pth qry] eqn:Hq.
  destruct (checknetloc nl) as [[]|e] eqn:Hck; [|discriminate].
  intros [= <-]. cbn [s_scheme s_netloc s_path s_query s_fragment].
  split; [|split].
  - destruct (decide (s = "")) as [-> |Hne]; [reflexivity|].
    destruct (split_scheme_inv _ _ _ Hs Hne) as (_ & Hall & _).
    eapply all_not_mem; [|exact Hall]. reflexivity.
  - destruct (decide (nl = "")) as [-> |Hne]; [reflexivity|].
    destruct (split_netloc_inv _ _ _ Hn Hne) as (Hall & _).
    eapply (all_not_mem (λ c, negb (netloc_delim c))); [|exact Hall].
    reflexivity.
  - destruct (split_tail_inv _ _ _ _ Hf) as (Hf1 & _).
    destruct (split_tail_inv _ _ _ _ Hq) as (_ & _ & Hq3).
    apply (Hq3 _ Hf1).
Qed.

Lemma urlparse_no_hash (url : string) (P : ParseResult) :
  urlparse url "" = Return P →
  Str.mem "#" (scheme P) = false ∧ Str.mem "#" (netloc P) = false ∧
  Str.mem "#" (path P) = false ∧ Str.mem "#" (params P) = false.
Proof.
  unfold urlparse. destruct (urlsplit url "") as [r|e] eqn:Hr; [|discriminate].
  cbn [mbind outcome_bind]. apply urlsplit_no_hash in Hr as (H1 & H2 & H3).
  destruct (Str.inb (s_scheme r) uses_params && Str.mem ";" (s_path r)).
  - destruct (splitparams_mem "#" _ H3) as [H4 H5].
    destruct (splitparams (s_path r)) as [p a]. intros [= <-]. simpl. auto.
  - intros [= <-]. simpl. auto.
Qed.

Lemma urlunparse_no_hash (s n p a q : string) :
  Str.mem "#" s = false → Str.mem "#" n = false → Str.mem "#" p = false →
  Str.mem "#" a = false → Str.mem "#" q = false →
  Str.mem "#" (urlunparse (mkParse s n p a q "")) = false.
Proof.
  intros Hs Hn Hp Ha Hq. unfold urlunparse, urlunsplit.
  cbn [scheme netloc path params query fragment
       s_scheme s_netloc s_path s_query s_fragment].
  cbn [Str.is_empty negb].
  repeat match goal with
         | |- context [if ?c then _ else _] => destruct c
         end;
    rewrite ?mem_app; cbn [Str.mem];
    rewrite ?mem_app; cbn [Str.mem];
    rewrite ?Hs, ?Hn, ?Hp, ?Ha, ?Hq; reflexivity.
Qed.

(** Whatever the base and the reference, the normal form contains no
    [#]: no fragment is left, and none can be read from it again. *)
Theorem normalize_url_no_fragment (base href N : string) :
  normalize_url base href = Return (Some N) →
  Str.mem "#" N = false.
Proof.
  unfold normalize_url.
  destruct (Str.is_empty href); [discriminate|].
  destruct (unfetchable_scheme href); [discriminate|].
  destruct (urljoin base href) as [abs|e]; [|discriminate].
  cbn [mbind outcome_bind].
  destruct (urlparse abs "") as [P|e] eqn:HP.
  - rewrite (strip_parsed _ _ HP). cbn [mbind outcome_bind].
    intros [= <-]. apply urlparse_no_hash in HP as (H1 & H2 & H3 & H4).
    apply urlunparse_no_hash; try assumption.
    apply stripped_query_chars.
  - unfold strip_fragment_and_tracking. rewrite HP. discriminate.
Qed.

End NoFragment.

Lemma normalize_url_no_fragment_witness :
  Str.mem "#" "http://x.com/b?q=1" = false.
Proof.
  apply (@normalize_url_no_fragment plain_externals
           "http://x.com/a" "/b?utm_source=x&q=1#frag").
  vm_compute. reflexivity.
Defined.

(** ** File names *)

Lemma sub_unsafe_runs_kept (in_run : bool) (s : string) :
  Str.all filename_char (sub_unsafe_runs in_run s) = true.
Proof.
  revert in_run. induction s as [|c s IH]; intros in_run; [reflexivity|].
  cbn [sub_unsafe_runs]. destruct (filename_char c) eqn:Hc.
  - cbn [Str.all]. rewrite Hc, IH. reflexivity.
  - destruct in_run; [apply IH|]. cbn [Str.all]. rewrite IH. reflexivity.
Qed.

Lemma sub_unsafe_runs_id (in_run : bool) (s : string) :
  Str.all filename_char s = true → sub_unsafe_runs in_run s = s.
Proof.
  revert in_run. induction s as [|c s IH]; intros in_run; [reflexivity|].
  cbn [Str.all sub_unsafe_runs]. intros [Hc Hs]%andb_true_iff.
  rewrite Hc, (IH false Hs). reflexivity.
Qed.

Lemma all_take (p : ascii → bool) (n : nat) (s : string) :
  Str.all p s = true → Str.all p (Str.take n s) = true.
Proof.
  revert s. induction n as [|n IH]; intros [|c s]; simpl; auto.
  intros [Hc Hs]%andb_true_iff. rewrite Hc, (IH s Hs). reflexivity.
Qed.

Lemma length_take (n : nat) (s : string) :
  String.length (Str.take n s) = Nat.min n (String.length s).
Proof.
  revert s. induction n as [|n IH]; intros [|c s]; simpl; auto.
Qed.

Lemma take_all (n : nat) (s : string) :
  (String.length s ≤ n)%nat → Str.take n s = s.
Proof.
  revert s. induction n as [|n IH]; intros [|c s]; simpl; auto; try lia.
  intros Hn. rewrite IH by lia. reflexivity.
Qed.

Lemma all_slice_to (p : ascii → bool) (n : Z) (s : string) :
  Str.all p s = true → Str.all p (slice_to n s) = true.
Proof. unfold slice_to. destruct (n <? 0)%Z; apply all_take. Qed.

Lemma length_slice_to (n : Z) (s : string) :
  (0 ≤ n)%Z → (Z.of_nat (String.length (slice_to n s)) ≤ n)%Z.
Proof.
  intros Hn. unfold slice_to. destruct (Z.ltb_spec n 0); [lia|].
  rewrite length_take. lia.
Qed.

Lemma slice_to_all (n : Z) (s : string) :
  (Z.of_nat (String.length s) ≤ n)%Z → slice_to n s = s.
Proof.
  intros Hn. unfold slice_to. destruct (Z.ltb_spec n 0); [lia|].
  apply take_all. lia.
Qed.

Lemma sanitize_filename_nonempty (name : string) (max_length : Z) :
  sanitize_filename name max_length ≠ "".
Proof.
  unfold sanitize_filename.
  destruct (Str.is_empty (slice_to max_length (sub_unsafe_runs false name)))
    eqn:He; [discriminate|]. apply is_empty_false, He.
Qed.

Lemma sanitize_filename_chars (name : string) (max_length : Z) :
  Str.all filename_char (sanitize_filename name max_length) = true.
Proof.
  unfold sanitize_filename.
  destruct (Str.is_empty (slice_to max_length (sub_unsafe_runs false name)));
    [reflexivity|]. apply all_slice_to, sub_unsafe_runs_kept.
Qed.

Lemma sanitize_filename_length (name : string) (max_length : Z) :
  (0 ≤ max_length)%Z →
  (Z.of_nat (String.length (sanitize_filename name max_length))
   ≤ Z.max max_length 4)%Z.
Proof.
  intros Hn. unfold sanitize_filename.
  destruct (Str.is_empty (slice_to max_length (sub_unsafe_runs false name)));
    [simpl; lia|].
  pose proof (length_slice_to max_length (sub_unsafe_runs false name) Hn). lia.
Qed.

Lemma sanitize_filename_unchanged (name : string) (max_length : Z) :
  name ≠ "" →
  Str.all filename_char name = true →
  (Z.of_nat (String.length name) ≤ max_length)%Z →
  sanitize_filename name max_length = name.
Proof.
  intros Hne Hall Hlen. unfold sanitize_filename.
  rewrite (sub_unsafe_runs_id _ _ Hall), (slice_to_all _ _ Hlen).
  apply is_empty_false in Hne. rewrite Hne. reflexivity.
Qed.

(** Whatever the text and the bound, [sanitize_filename] returns a
    non-empty name made of letters, digits, dots, underscores and hyphens
    only; for a bound that is not negative the name has at most
    [max(max_length, 4)] characters. *)
Theorem sanitize_filename_kept (name : string) (max_length : Z) :
  sanitize_filename name max_length ≠ "" ∧
  Str.all filename_char (sanitize_filename name max_length) = true ∧
  ((0 ≤ max_length)%Z →
   (Z.of_nat (String.length (sanitize_filename name max_length))
    ≤ Z.max max_length 4)%Z).
Proof.
  split; [apply sanitize_filename_nonempty|].
  split; [apply sanitize_filename_chars|apply sanitize_filename_length].
Qed.

(** A non-empty name of kept characters that fits the bound is returned
    unchanged, and a name with a character that is not kept is changed. *)
Theorem sanitize_filename_fixes (name : string) (max_length : Z) :
  name ≠ "" →
  (Z.of_nat (String.length name) ≤ max_length)%Z →
  (sanitize_filename name max_length = name
   ↔ Str.all filename_char name = true).
Proof.
  intros Hne Hlen. split.
  - intros <-. apply sanitize_filename_chars.
  - intros Hall. apply sanitize_filename_unchanged; assumption.
Qed.

Lemma sanitize_filename_fixes_witness :
  sanitize_filename "logo-2.png" 140 = "logo-2.png"
  ↔ Str.all filename_char "logo-2.png" = true.
Proof.
  apply (sanitize_filename_fixes "logo-2.png" 140).
  - discriminate.
  - simpl. lia.
Defined.

(** For a bound of at least 4, the length of the fallback name,
    sanitizing a sanitized name changes nothing. *)
Theorem sanitize_filename_idempotent (name : string) (max_length : Z) :
  (4 ≤ max_length)%Z →
  sanitize_filename (sanitize_filename name max_length) max_length
  = sanitize_filename name max_length.
Proof.
  intros Hn. apply sanitize_filename_unchanged.
  - apply sanitize_filename_nonempty.
  - apply sanitize_filename_chars.
  - pose proof (sanitize_filename_length name max_length). lia.
Qed.

Lemma sanitize_filename_idempotent_witness :
  sanitize_filename (sanitize_filename "a b/c?.png" 4) 4
  = sanitize_filename "a b/c?.png" 4.
Proof. apply (sanitize_filename_idempotent "a b/c?.png" 4). lia. Defined.

(** Below that bound it can: the fallback name is cut. *)
Example sanitize_filename_short_bound :
  sanitize_filename "" 3 = "file" ∧
  sanitize_filename (sanitize_filename "" 3) 3 = "fil".
Proof. split; reflexivity. Qed.

Section Guess.
Context {E : Externals}.

Lemma guess_filename_for_url_sanitized (url : string) (cd : option string)
  (f : string) :
  guess_filename_for_url url cd = Return f →
  ∃ name, f = sanitize_filename name 140.
Proof.
  unfold guess_filename_for_url. intros H.
  destruct (match cd with
            | Some cd => if Str.is_empty cd then None else search_filename cd
            | None => None
            end) as [g|].
  - destruct (negb (Str.is_empty g)); [inversion H; eauto|].
    destruct (urlparse url "") as [p|e]; [|discriminate].
    inversion H; eauto.
  - destruct (urlparse url "") as [p|e]; [|discriminate].
    inversion H; eauto.
Qed.

(** A name that [guess_filename_for_url] returns is not empty, has at most
    140 characters, all of them letters, digits, dots, underscores or
    hyphens; in particular it contains no path separator. *)
Theorem guess_filename_for_url_kept (url : string) (cd : option string)
  (f : string) :
  guess_filename_for_url url cd = Return f →
  f ≠ "" ∧ Str.all filename_char f = true ∧
  (String.length f ≤ 140)%nat ∧ Str.mem "/" f = false.
Proof.
  intros [name ->]%guess_filename_for_url_sanitized.
  pose proof (sanitize_filename_length name 140).
  split; [apply sanitize_filename_nonempty|].
  split; [apply sanitize_filename_chars|]. split; [lia|].
  eapply all_not_mem; [|apply sanitize_filename_chars]. reflexivity.
Qed.

(** The name under which [save_binary] stores an image is the name that
    [guess_filename_for_url] returned: the second sanitizing changes
    nothing and the content hash is not used. *)
Theorem guessed_name_is_stored (url sha : string) (cd : option string)
  (f : string) :
  guess_filename_for_url url cd = Return f →
  binary_filename sha (Some f) = f.
Proof.
  intros H.
  assert (∃ name, f = sanitize_filename name 140) as [name ->]
    by (apply guess_filename_for_url_sanitized in H; exact H).
  pose proof (sanitize_filename_nonempty name 140) as Hne.
  pose proof (sanitize_filename_length name 140) as Hlen.
  unfold binary_filename. apply is_empty_false in Hne as He. rewrite He.
  apply sanitize_filename_unchanged;
    [exact Hne|apply sanitize_filename_chars|lia].
Qed.

Lemma after_last_slash_end (s : string) : after_last "/" (s +:+ "/") = "".
Proof.
  unfold after_last. rewrite rev_app. reflexivity.
Qed.

Lemma endswith_inv (c : ascii) (s : string) :
  Str.endswith (String c "") s = true → ∃ s', s = s' +:+ String c "".
Proof.
  unfold Str.endswith. intros H.
  destruct (Str.rev s) as [|a r] eqn:Hr; [discriminate|].
  simpl in H. rewrite andb_true_r in H. apply eqb_ascii_eq in H as <-.
  exists (Str.rev r). rewrite <- (rev_involutive s), Hr, rev_cons. reflexivity.
Qed.

(** Without a header, a URL whose path is empty or ends with a slash is
    given the name [index.html]. *)
Theorem guess_filename_for_url_index (url : string) (p : ParseResult) :
  urlparse url "" = Return p →
  path p = "" ∨ Str.endswith "/" (path p) = true →
  guess_filename_for_url url None = Return "index.html".
Proof.
  intros Hp Hpath. unfold guess_filename_for_url. rewrite Hp.
  cbn [mbind outcome_bind].
  assert (basename (path p) = "") as ->; [|reflexivity].
  destruct Hpath as [->|[s' ->]%endswith_inv]; [reflexivity|].
  apply after_last_slash_end.
Qed.

End Guess.

Lemma guess_filename_for_url_kept_witness :
  "photo_1_.jpg" ≠ "" ∧ Str.all filename_char "photo_1_.jpg" = true ∧
  (String.length "photo_1_.jpg" ≤ 140)%nat ∧
  Str.mem "/" "photo_1_.jpg" = false.
Proof.
  apply (@guess_filename_for_url_kept plain_externals
           "http://x.com/img/photo (1).jpg" None).
  vm_compute. reflexivity.
Defined.

Lemma guessed_name_is_stored_witness :
  binary_filename "da39a3ee5e6b4b0d3255bfef95601890afd80709"
    (Some "photo_1_.jpg") = "photo_1_.jpg".
Proof.
  apply (@guessed_name_is_stored plain_externals
           "http://x.com/img/photo (1).jpg"
           "da39a3ee5e6b4b0d3255bfef95601890afd80709" None).
  vm_compute. reflexivity.
Defined.

Lemma guess_filename_for_url_index_witness :
  @guess_filename_for_url plain_externals "http://x.com/gallery/" None
  = Return "index.html".
Proof.
  apply (@guess_filename_for_url_index plain_externals
           "http://x.com/gallery/"
           (mkParse "http" "x.com" "/gallery/" "" "" "")).
  - vm_compute. reflexivity.
  - right. vm_compute. reflexivity.
Defined.

Section Header.
Context {E : Externals}.

Lemma search_filename_skip (pre s : string) :
  Str.mem "f" pre = false →
  search_filename (pre +:+ s) = search_filename s.
Proof.
  induction pre as [|c pre IH]; [reflexivity|].
  cbn [Str.mem]. intros [Hc Hpre]%orb_false_iff.
  change (String c pre +:+ s) with (String c (pre +:+ s)).
  cbn [search_filename].
  assert (match_filename (String c (pre +:+ s)) = None) as ->.
  { unfold match_filename. cbn [Str.startswith].
    unfold Str.eqb_ascii in *. rewrite Ascii.eqb_sym, Hc. reflexivity. }
  apply IH, Hpre.
Qed.

Lemma break_name (name rest : string) :
  Str.all (λ c, negb (ends_filename c)) name = true →
  rest = "" ∨ (∃ c r, rest = String c r ∧ ends_filename c = true) →
  Str.break ends_filename (name +:+ rest) = (name, rest).
Proof. intros Hn Hr. apply break_app; assumption. Qed.

(** A header in which [filename], an optional star, an equals sign and an
    optional double quote are followed by a non-empty name free of double
    quotes and semicolons, the name ending at the end of the header or at
    such a character, gives the sanitized name itself, whatever the URL.
    The text before [filename] is any text without the letter [f]. *)
Theorem guess_filename_for_url_header (url pre star quote name rest : string) :
  Str.mem "f" pre = false →
  star = "" ∨ star = "*" →
  quote = "" ∨ quote = String "034" "" →
  name ≠ "" →
  Str.all (λ c, negb (ends_filename c)) name = true →
  rest = "" ∨ (∃ c r, rest = String c r ∧ ends_filename c = true) →
  guess_filename_for_url url
    (Some (pre +:+ "filename" +:+ star +:+ "=" +:+ quote +:+ name +:+ rest))
  = Return (sanitize_filename name 140).
Proof.
  intros Hpre Hstar Hquote Hne Hname Hrest.
  unfold guess_filename_for_url.
  assert (Str.is_empty
            (pre +:+ "filename" +:+ star +:+ "=" +:+ quote +:+ name +:+ rest)
          = false) as -> by (destruct pre; reflexivity).
  rewrite (search_filename_skip _ _ Hpre).
  assert (search_filename
            ("filename" +:+ star +:+ "=" +:+ quote +:+ name +:+ rest)
          = Some name) as ->.
  { assert (match_filename
              ("filename" +:+ star +:+ "=" +:+ quote +:+ name +:+ rest)
            = Some name) as Hm.
    { destruct name as [|n0 name']; [done|].
      cbn [Str.all] in Hname. apply andb_true_iff in Hname as [Hn0 Hname'].
      assert (Str.startswith (String "034" "") (String n0 name' +:+ rest)
              = false) as Hq.
      { unfold ends_filename in Hn0. apply negb_true_iff in Hn0.
        apply orb_false_iff in Hn0 as [Hn0 _]. cbn [String.append Str.startswith].
        unfold Str.eqb_ascii in *. rewrite Ascii.eqb_sym, Hn0. reflexivity. }
      assert (Str.break ends_filename (String n0 name' +:+ rest)
              = (String n0 name', rest)) as Hb.
      { apply break_name; [|exact Hrest]. cbn [Str.all].
        rewrite Hn0, Hname'. reflexivity. }
      unfold match_filename. cbv zeta.
      set (X := String n0 name' +:+ rest) in *.
      set (Q := quote +:+ X). set (T := star +:+ "=" +:+ Q).
      change (Str.startswith "filename" ("filename" +:+ T)) with true.
      cbv iota. change (Str.drop 8 ("filename" +:+ T)) with T.
      assert ((if Str.startswith "*" T then Str.drop 1 T else T) = "=" +:+ Q)
        as -> by (subst T; destruct Hstar as [-> | ->]; reflexivity).
      change (Str.startswith "=" ("=" +:+ Q)) with true.
      cbv iota. change (Str.drop 1 ("=" +:+ Q)) with Q.
      assert ((if Str.startswith (String "034" "") Q then Str.drop 1 Q else Q)
              = X) as ->.
      { subst Q. destruct Hquote as [-> | ->]; [|reflexivity].
        change ("" +:+ X) with X. rewrite Hq. reflexivity. }
      rewrite Hb. reflexivity. }
    destruct ("filename" +:+ star +:+ "=" +:+ quote +:+ name +:+ rest);
      cbn [search_filename]; rewrite Hm; reflexivity. }
  assert (Str.is_empty name = false) as -> by (apply is_empty_false, Hne).
  reflexivity.
Qed.

End Header.

Lemma guess_filename_for_url_header_witness :
  @guess_filename_for_url plain_externals "http://x.com/download?id=7"
    (Some ("attachment; " +:+ "filename" +:+ "" +:+ "=" +:+ String "034" ""
           +:+ "annual report.pdf" +:+ String "034" ""))
  = Return (sanitize_filename "annual report.pdf" 140).
Proof.
  apply (@guess_filename_for_url_header plain_externals).
  - vm_compute. reflexivity.
  - left. reflexivity.
  - right. reflexivity.
  - discriminate.
  - vm_compute. reflexivity.
  - right. eexists _, _. split; [reflexivity|]. vm_compute. reflexivity.
Defined.

(** ** Exceptions of the address functions *)

Section Raises.
Context {E : Externals}.

Lemma check_bracketed_host_raises (h : string) (e : exn) :
  check_bracketed_host h = Raise e → e = ValueError.
Proof.
  unfold check_bracketed_host.
  destruct (Str.startswith "v" h); [destruct (ipvfuture h)|
                                    destruct (ip_address_is_v6 h)];
    intros [=]; auto.
Qed.

Lemma bracket_check_raises (nl : string) (e : exn) :
  bracket_check nl = Raise e → e = ValueError.
Proof.
  unfold bracket_check, check_bracketed_netloc.
  destruct (_ || _); [intros [=]; auto|].
  destruct (_ && _); [|discriminate].
  destruct (Str.cut "[" (after_last "@" nl)) as [[before bracketed]|].
  - destruct (negb (Str.is_empty before)); [intros [=]; auto|].
    destruct (match Str.cut "]" bracketed with
              | Some (h, p) => (h, p)
              | None => (bracketed, "")
              end) as [hostname port].
    destruct (_ && _); [intros [=]; auto|apply check_bracketed_host_raises].
  - apply check_bracketed_host_raises.
Qed.

Lemma urlsplit_raises (url sch : string) (e : exn) :
  urlsplit url sch = Raise e → e = ValueError.
Proof.
  unfold urlsplit, split_netloc.
  destruct (split_scheme _ _) as [s u1].
  destruct (Str.startswith "//" u1).
  - destruct (splitnetloc (Str.drop 2 u1)) as [nl rest].
    destruct (bracket_check nl) as [[]|e0] eqn:Hb;
      cbn [mbind outcome_bind].
    + destruct (split_tail "#" rest) as [u3 frag].
      destruct (split_tail "?" u3) as [pth qry].
      unfold checknetloc. destruct (_ || _); [discriminate|].
      destruct (nfkc_unsafe nl); [intros [=]; auto|discriminate].
    + intros [= <-]. apply (bracket_check_raises _ _ Hb).
  - cbn [mbind outcome_bind].
    destruct (split_tail "#" u1) as [u3 frag].
    destruct (split_tail "?" u3) as [pth qry].
    unfold checknetloc. cbn [Str.is_empty orb]. discriminate.
Qed.

Lemma urlparse_raises (url sch : string) (e : exn) :
  urlparse url sch = Raise e → e = ValueError.
Proof.
  unfold urlparse. destruct (urlsplit url sch) as [r|e0] eqn:Hs.
  - cbn [mbind outcome_bind].
    destruct (if Str.inb (s_scheme r) uses_params && Str.mem ";" (s_path r)
              then splitparams (s_path r) else (s_path r, ""))
      as [p prm]. discriminate.
  - intros [= <-]. apply (urlsplit_raises _ _ _ Hs).
Qed.

Lemma guess_filename_for_url_raises (url : string) (cd : option string)
  (e : exn) :
  guess_filename_for_url url cd = Raise e → e = ValueError.
Proof.
  unfold guess_filename_for_url.
  destruct (match cd with
            | Some cd => if Str.is_empty cd then None else search_filename cd
            | None => None
            end) as [g|].
  - destruct (negb (Str.is_empty g)); [discriminate|].
    destruct (urlparse url "") as [p|e0] eqn:Hp; [discriminate|].
    intros [= <-]. apply (urlparse_raises _ _ _ Hp).
  - destruct (urlparse url "") as [p|e0] eqn:Hp; [discriminate|].
    intros [= <-]. apply (urlparse_raises _ _ _ Hp).
Qed.

(** ** Image downloads *)

(** [_download_image] returns a stored path exactly when the request is
    answered with status 200 and a non-empty body, a file name can be
    guessed for the address from the image's header, or else from the
    page's, and the body is saved.  For every other outcome of the request
    and of the storing that is an answer or an [Exception] it returns
    [None] without raising. *)
Theorem download_image_only_stores_200 (url : string)
  (content_disposition : option string) (got : outcome ImageResponse)
  (saved : outcome string) :
  (∀ e, got = Raise e → is_Exception e = true) →
  (∀ e, saved = Raise e → is_Exception e = true) →
  (∃ res, download_image url content_disposition got saved = Return res) ∧
  (∀ saved_path,
     download_image url content_disposition got saved
     = Return (Some saved_path) ↔
     ∃ r filename,
       got = Return r ∧ img_status_code r = 200%Z ∧ img_content r ≠ "" ∧
       guess_filename_for_url url
         (or_else (img_content_disposition r) content_disposition)
       = Return filename ∧
       saved = Return saved_path).
Proof.
  intros Hgot Hsaved. unfold download_image.
  destruct got as [r|e].
  2:{ rewrite (Hgot e eq_refl). split; [eauto|].
      intros p. split; [discriminate|]. intros (r & f & [=] & _). }
  destruct (Z.eqb_spec (img_status_code r) 200) as [Hs|Hs]; cbn [andb].
  2:{ split; [eauto|]. intros p. split; [discriminate|].
      intros (r' & f & [= <-] & Hs' & _). contradiction. }
  destruct (Str.is_empty (img_content r)) eqn:Hc; cbn [negb].
  { split; [eauto|]. intros p. split; [discriminate|].
    intros (r' & f & [= <-] & _ & Hne & _).
    apply is_empty_true in Hc. contradiction. }
  apply is_empty_false in Hc.
  destruct (guess_filename_for_url url _) as [f|e] eqn:Hg.
  2:{ rewrite (guess_filename_for_url_raises _ _ _ Hg). simpl.
      split; [eauto|]. intros p. split; [discriminate|].
      intros (r' & f & [= <-] & _ & _ & Hg' & _). congruence. }
  destruct saved as [path|e].
  - split; [eauto|]. intros p. split.
    + intros [= <-]. exists r, f. auto.
    + intros (r' & f' & [= <-] & _ & _ & _ & [= <-]). reflexivity.
  - rewrite (Hsaved e eq_refl). split; [eauto|].
    intros p. split; [discriminate|]. intros (r' & f' & _ & _ & _ & _ & [=]).
Qed.

End Raises.

Lemma download_image_only_stores_200_witness :
  (∃ res, @download_image plain_externals "http://x.com/i.png" None
            (Return (mkImage 200 "PNG" None))
            (Return "out/assets/images/i.png")
          = Return res) ∧
  (∀ saved_path,
     @download_image plain_externals "http://x.com/i.png" None
       (Return (mkImage 200 "PNG" None)) (Return "out/assets/images/i.png")
     = Return (Some saved_path) ↔
     ∃ r filename,
       Return (mkImage 200 "PNG" None) = Return r ∧
       img_status_code r = 200%Z ∧ img_content r ≠ "" ∧
       @guess_filename_for_url plain_externals "http://x.com/i.png"
         (or_else (img_content_disposition r) None)
       = Return filename ∧
       Return "out/assets/images/i.png" = Return saved_path).
Proof.
  apply (@download_image_only_stores_200 plain_externals).
  - intros e [=].
  - intros e [=].
Defined.

(** ** The end of a request *)

Section Finally.
Context {E : Externals} (C : Collaborators) (cfg : Config).


(** *** A link that cannot be normalised *)

Lemma enqueue_links_app (page_url : string) (a b : list string) (s : State) :
  enqueue_links cfg page_url (a ++ b) s
  = match enqueue_links cfg page_url a s with
    | (s1, Return _) => enqueue_links cfg page_url b s1
    | (s1, Raise e) => (s1, Raise e)
    end.
Proof.
  revert s. induction a as [|href rest IH]; intros s; simpl; [reflexivity|].
  destruct (normalize_url page_url href) as [[norm|]|e];
    [|apply IH|reflexivity].
  destruct (Str.is_empty norm); [apply IH|].
  destruct (bool_decide (norm ∈ enqueued s) || bool_decide (norm ∈ visited s));
    [apply IH|].
  destruct (is_allowed_domain norm (allowed_domains cfg)) as [[]|e];
    [apply IH|apply IH|reflexivity].
Qed.

(** When the links before it are handled without an exception, a link
    that [normalize_url] raises on ends [_process_page] with that
    exception: the record of the page has been stored, the links before
    it have been handled, the links after it are not looked at, and the
    page is not counted. *)
Theorem unparsable_link_ends_the_page (page_url html : string) (inp : Input)
  (s s1 : State) (links next before after : list string) (href path : string)
  (e : exn) :
  extract_links C html page_url = Return links →
  extract_pagination_next_links C html page_url = Return next →
  in_saved inp = Return path → in_appended inp = Return () →
  links ++ next = before ++ href :: after →
  enqueue_links cfg page_url before
    (set_records (records s ++ [mkRecord page_url path links next]) s)
  = (s1, Return ()) →
  normalize_url page_url href = Raise e →
  process_page C cfg page_url html inp s = (s1, Raise e) ∧
  records s1 = records s ++ [mkRecord page_url path links next] ∧
  pages_processed s1 = pages_processed s.
Proof.
  intros Hl Hn Hs Ha Heq Hbefore Hraise.
  assert (process_page C cfg page_url html inp s = (s1, Raise e)) as Hp.
  { unfold process_page. rewrite Hl, Hn, Hs, Ha, Heq, enqueue_links_app, Hbefore.
    simpl. rewrite Hraise. reflexivity. }
  split; [exact Hp|].
  apply enqueue_links_effect in Hbefore as (_ & Hrec & Hpg). simpl in *. auto.
Qed.

End Finally.


Lemma unparsable_link_ends_the_page_witness :
  ∃ s1,
    @process_page plain_externals broken_collaborators single_config
      "http://x.com/a" "<html>page</html>" all_fine
      (initial single_config).1
    = (s1, Raise ValueError) ∧
    records s1
    = records (initial single_config).1
      ++ [mkRecord "http://x.com/a" "pages/x.html"
            ["/first"; "http://[broken"; "/third"] []] ∧
    pages_processed s1
    = pages_processed (initial single_config).1.
Proof.
  eexists.
  apply (@unparsable_link_ends_the_page plain_externals broken_collaborators
           single_config "http://x.com/a" "<html>page</html>" all_fine
           (initial single_config).1 _
           ["/first"; "http://[broken"; "/third"] [] ["/first"] ["/third"]
           "http://[broken" "pages/x.html" ValueError).
  - reflexivity.
  - reflexivity.
  - reflexivity.
  - reflexivity.
  - reflexivity.
  - vm_compute. reflexivity.
  - vm_compute. reflexivity.
Defined.

(** ** Where the tasks come from *)

Section Origin.
Context {E : Externals} (C : Collaborators) (cfg : Config).

Lemma enqueue_links_origin (page_url : string) (hrefs : list string)
  (s s' : State) (r : outcome unit) :
  enqueue_links cfg page_url hrefs s = (s', r) →
  ∃ evs, trace s' = trace s ++ evs ∧
    ∀ t, t ∈ puts evs →
      depth t = 1%Z ∧
      is_allowed_domain (url t) (allowed_domains cfg) = Return true ∧
      ∃ href, href ∈ hrefs ∧
              normalize_url page_url href = Return (Some (url t)).
Proof.
  revert s. induction hrefs as [|href rest IH]; intros s; simpl.
  - intros [= <- _]. exists []. rewrite app_nil_r. split; [reflexivity|].
    intros t Ht. inversion Ht.
  - assert (∀ s0, trace s0 = trace s →
              enqueue_links cfg page_url rest s0 = (s', r) →
              ∃ evs, trace s' = trace s ++ evs ∧
                ∀ t, t ∈ puts evs →
                  depth t = 1%Z ∧
                  is_allowed_domain (url t) (allowed_domains cfg)
                  = Return true ∧
                  ∃ href0, href0 ∈ href :: rest ∧
                     normalize_url page_url href0 = Return (Some (url t)))
      as Hskip.
    { intros s0 Hs0 H. apply IH in H as (evs & Ht & Hall).
      exists evs. rewrite Ht, Hs0. split; [reflexivity|].
      intros t Hin. destruct (Hall t Hin) as (Hd & Ha & h & Hh & Hn).
      split; [exact Hd|]. split; [exact Ha|]. exists h. split; [right|]; auto. }
    destruct (normalize_url page_url href) as [[norm|]|e] eqn:Hnorm;
      [|apply Hskip; reflexivity|].
    2:{ intros [= <- _]. exists []. rewrite app_nil_r. split; [reflexivity|].
        intros t Ht. inversion Ht. }
    destruct (Str.is_empty norm); [apply Hskip; reflexivity|].
    destruct (bool_decide (norm ∈ enqueued s) || bool_decide (norm ∈ visited s));
      [apply Hskip; reflexivity|].
    destruct (is_allowed_domain norm (allowed_domains cfg)) as [[]|e]
      eqn:Hallow; [|apply Hskip; reflexivity|].
    2:{ intros [= <- _]. exists []. rewrite app_nil_r. split; [reflexivity|].
        intros t Ht. inversion Ht. }
    intros H. apply IH in H as (evs & Ht & Hall). simpl in Ht.
    exists (Put (mkTask norm 1) :: evs).
    rewrite Ht, <- app_assoc. split; [reflexivity|].
    intros t. simpl. intros [-> |Hin]%elem_of_cons.
    + simpl. split; [reflexivity|]. split; [exact Hallow|].
      exists href. split; [left|exact Hnorm].
    + destruct (Hall t Hin) as (Hd & Ha & h & Hh & Hn).
      split; [exact Hd|]. split; [exact Ha|]. exists h. split; [right|]; auto.
Qed.

Lemma process_page_origin (page_url html : string) (inp : Input)
  (s s' : State) (r : outcome unit) :
  process_page C cfg page_url html inp s = (s', r) →
  ∃ evs, trace s' = trace s ++ evs ∧
    ∀ t, t ∈ puts evs →
      depth t = 1%Z ∧
      is_allowed_domain (url t) (allowed_domains cfg) = Return true ∧
      ∃ rec href, rec ∈ records s' ∧
        href ∈ rec_links rec ++ rec_pagination_next_links rec ∧
        normalize_url (rec_url rec) href = Return (Some (url t)).
Proof.
  assert (∃ evs, trace s = trace s ++ evs ∧
            ∀ t, t ∈ puts evs →
              depth t = 1%Z ∧
              is_allowed_domain (url t) (allowed_domains cfg) = Return true ∧
              ∃ rec href, rec ∈ records s ∧
                href ∈ rec_links rec ++ rec_pagination_next_links rec ∧
                normalize_url (rec_url rec) href = Return (Some (url t)))
    as Hnone.
  { exists []. rewrite app_nil_r. split; [reflexivity|].
    intros t Ht. inversion Ht. }
  unfold process_page.
  destruct (extract_links C html page_url) as [links|e];
    [|intros [= <- _]; exact Hnone].
  destruct (extract_pagination_next_links C html page_url) as [next|e];
    [|intros [= <- _]; exact Hnone].
  destruct (in_saved inp) as [html_path|e]; [|intros [= <- _]; exact Hnone].
  destruct (in_appended inp) as [[]|e]; [|intros [= <- _]; exact Hnone].
  intros H. pose proof (enqueue_links_records _ _ _ _ _ _ H) as Hrec.
  apply enqueue_links_origin in H as (evs & Ht & Hall). simpl in *.
  exists evs. split; [exact Ht|].
  intros t Hin. destruct (Hall t Hin) as (Hd & Ha & h & Hh & Hn).
  split; [exact Hd|]. split; [exact Ha|].
  exists (mkRecord page_url html_path links next), h.
  split; [rewrite Hrec; apply elem_of_app; right; left|]. auto.
Qed.

Lemma worker_step_origin (p p' : phase) (inp : Input) (s s' : State) :
  worker_step C cfg p inp s = (s', p') →
  (∀ rec, rec ∈ records s → rec ∈ records s') ∧
  ∃ evs, trace s' = trace s ++ evs ∧
    ∀ t, t ∈ puts evs →
      depth t = 1%Z ∧
      is_allowed_domain (url t) (allowed_domains cfg) = Return true ∧
      ∃ rec href, rec ∈ records s' ∧
        href ∈ rec_links rec ++ rec_pagination_next_links rec ∧
        normalize_url (rec_url rec) href = Return (Some (url t)).
Proof.
  intros H. split.
  { apply worker_step_records in H as (evs & recs & _ & Hr & _).
    intros rec Hin. rewrite Hr. apply elem_of_app. auto. }
  assert (quiet s s' →
          ∃ evs, trace s' = trace s ++ evs ∧
            ∀ t, t ∈ puts evs →
              depth t = 1%Z ∧
              is_allowed_domain (url t) (allowed_domains cfg) = Return true ∧
              ∃ rec href, rec ∈ records s' ∧
                href ∈ rec_links rec ++ rec_pagination_next_links rec ∧
                normalize_url (rec_url rec) href = Return (Some (url t)))
    as Hquiet.
  { intros [_ (evs & Ht & Hp)]. exists evs. split; [exact Ht|].
    rewrite Hp. intros t Hin. inversion Hin. }
  destruct p as [|t base|t|t host|t host| |e]; simpl in H.
  - apply Hquiet.
    destruct (pages_processed s <? max_pages cfg)%Z;
      [|inversion H; subst; apply quiet_refl].
    destruct (queue s) as [|t rest]; [inversion H; subst; apply quiet_refl|].
    apply handle_task_quiet in H.
    eapply quiet_trans; [|exact H]. quiet_now.
  - apply Hquiet. eapply robots_reply_quiet, H.
  - apply Hquiet. eapply acquire_global_quiet, H.
  - apply Hquiet. eapply acquire_host_quiet, H.
  - unfold finish_io, fetch_and_process in H.
    destruct (fetch_http (in_http inp)) as [http_result|e].
    2:{ apply Hquiet. inversion H; subst. apply release_quiet. }
    destruct (render_pass C cfg t inp (fst <$> http_result) s)
      as [s1 [html|e]] eqn:Hr; apply render_pass_quiet in Hr.
    2:{ apply Hquiet. inversion H; subst.
        eapply quiet_trans; [exact Hr|apply release_quiet]. }
    destruct (no_html html).
    { apply Hquiet. inversion H; subst.
      eapply quiet_trans; [exact Hr|apply release_quiet]. }
    destruct (process_page C cfg (url t) (default "" html) inp s1)
      as [s2 r2] eqn:Hp.
    apply process_page_origin in Hp as (evs & Ht & Hall).
    destruct Hr as [_ (ev1 & Ht1 & Hp1)].
    exists (ev1 ++ evs).
    assert (trace s' = trace s2 ∧ records s' = records s2) as [Hts Hrs].
    { destruct r2 as [[]|e]; inversion H; subst; auto. }
    rewrite Hts, Hrs, Ht, Ht1, <- app_assoc. split; [reflexivity|].
    intros t0. rewrite puts_app, Hp1. simpl. apply Hall.
  - apply Hquiet. inversion H; subst. apply quiet_refl.
  - apply Hquiet. inversion H; subst. apply quiet_refl.
Qed.

(** Every task ever put on the queue is a seed at depth 0, or a task at
    depth 1 whose address passes the domain list and is the normal form
    of a link, or of a pagination link, of a stored record, taken against
    the address of that record's page. *)
Theorem tasks_come_from_seeds_and_links (sys : System) (t : CrawlTask) :
  reachable C cfg sys →
  t ∈ puts (trace sys.1) →
  (depth t = 0%Z ∧ url t ∈ start_urls cfg) ∨
  (depth t = 1%Z ∧
   is_allowed_domain (url t) (allowed_domains cfg) = Return true ∧
   ∃ rec href, rec ∈ records sys.1 ∧
     href ∈ rec_links rec ++ rec_pagination_next_links rec ∧
     normalize_url (rec_url rec) href = Return (Some (url t))).
Proof.
  intros Hr. revert t. revert sys Hr.
  apply (reachable_ind C cfg
           (λ sys, ∀ t, t ∈ puts (trace sys.1) →
              (depth t = 0%Z ∧ url t ∈ start_urls cfg) ∨
              (depth t = 1%Z ∧
               is_allowed_domain (url t) (allowed_domains cfg)
               = Return true ∧
               ∃ rec href, rec ∈ records sys.1 ∧
                 href ∈ rec_links rec ++ rec_pagination_next_links rec ∧
                 normalize_url (rec_url rec) href = Return (Some (url t))))).
  - simpl. rewrite run_seeds_trace. simpl. rewrite puts_seeds.
    intros t (u & -> & Hu)%list_elem_of_fmap. left. auto.
  - intros sys sys' _ IH Hs.
    destruct Hs as [i inp s s' ws p p' Hi Hw]. simpl in *.
    apply worker_step_origin in Hw as (Hrec & evs & Ht & Hall).
    intros t. rewrite Ht, puts_app. intros [Hin|Hin]%elem_of_app.
    + destruct (IH t Hin) as [H0|(Hd & Ha & rec & h & H1 & H2 & H3)];
        [left; exact H0|].
      right. split; [exact Hd|]. split; [exact Ha|]. exists rec, h. auto.
    + right. apply Hall, Hin.
Qed.

End Origin.

Lemma tasks_come_from_seeds_and_links_witness :
  (depth (mkTask "http://x.com/first" 1) = 0%Z ∧
   url (mkTask "http://x.com/first" 1) ∈ start_urls single_config) ∨
  (depth (mkTask "http://x.com/first" 1) = 1%Z ∧
   @is_allowed_domain plain_externals (url (mkTask "http://x.com/first" 1))
     (allowed_domains single_config) = Return true ∧
   ∃ rec href,
     rec ∈ records
             (@exec plain_externals broken_collaborators single_config
                [(0%nat, all_fine); (0%nat, all_fine)]).1 ∧
     href ∈ rec_links rec ++ rec_pagination_next_links rec ∧
     @normalize_url plain_externals (rec_url rec) href
     = Return (Some (url (mkTask "http://x.com/first" 1)))).
Proof.
  apply (@tasks_come_from_seeds_and_links plain_externals broken_collaborators
           single_config).
  - apply exec_reachable.
  - vm_compute. right. left.
Defined.

(** ** Collapsing whitespace *)

Lemma sub_spaces_cons (b : bool) (a : ascii) (r : string) :
  sub_spaces 0 b (String a r) =
  match space_width (String a r) with
  | O => String a (sub_spaces 0 false r)
  | S k => if b then sub_spaces k true r else String " " (sub_spaces k true r)
  end.
Proof. reflexivity. Qed.

Lemma lstrip_spaces_cons (a : ascii) (r : string) :
  lstrip_spaces 0 (String a r) =
  match space_width (String a r) with
  | O => String a r
  | S k => lstrip_spaces k r
  end.
Proof. reflexivity. Qed.

Lemma only_spaces_cons (a : ascii) (r : string) :
  only_spaces 0 (String a r) =
  match space_width (String a r) with
  | O => false
  | S k => only_spaces k r
  end.
Proof. reflexivity. Qed.

Lemma single_spaced_cons (a : ascii) (r : string) :
  single_spaced (String a r) =
  match space_width (String a r) with
  | O => single_spaced r
  | S _ => Ascii.eqb a " " && (space_width r =? 0)%nat && single_spaced r
  end.
Proof. reflexivity. Qed.

Lemma space_width_space (r : string) : space_width (String " " r) = 1.
Proof. reflexivity. Qed.

Ltac split_codes :=
  repeat match goal with
    | |- context [(Str.code ?x =? ?n)%N] =>
        is_var x; destruct (Str.code x =? n)%N
    | |- context [Str.between ?l ?h ?x] =>
        is_var x; destruct (Str.between l h x)
    end.

(** A space in the place of the second or of the third byte makes no
    whitespace character of what was none. *)
Lemma space_width_space_2 (a : ascii) (r x : string) :
  space_width (String a r) = 0 → space_width (String a (String " " x)) = 0.
Proof.
  unfold space_width.
  destruct (Str.between 9 13 a || Str.between 28 32 a); [discriminate|].
  intros _. destruct x as [|c x]; split_codes; reflexivity.
Qed.

Lemma space_width_space_3 (a b : ascii) (r x : string) :
  space_width (String a (String b r)) = 0 →
  space_width (String a (String b (String " " x))) = 0.
Proof.
  unfold space_width.
  destruct (Str.between 9 13 a || Str.between 28 32 a); [discriminate|].
  destruct ((Str.code a =? 194)%N && ((Str.code b =? 133)%N || (Str.code b =? 160)%N));
    [discriminate|].
  intros _. split_codes; reflexivity.
Qed.

Lemma space_width_end_3 (a b : ascii) (r : string) :
  space_width (String a (String b r)) = 0 →
  space_width (String a (String b "")) = 0.
Proof.
  unfold space_width.
  destruct (Str.between 9 13 a || Str.between 28 32 a); [discriminate|].
  destruct ((Str.code a =? 194)%N && ((Str.code b =? 133)%N || (Str.code b =? 160)%N));
    [discriminate|reflexivity].
Qed.

(** What follows a character that is no whitespace is replaced without
    making it one. *)
Lemma space_width_sub_spaces (a : ascii) (r : string) :
  space_width (String a r) = 0 →
  space_width (String a (sub_spaces 0 false r)) = 0.
Proof.
  intros H. destruct r as [|b r]; [exact H|].
  rewrite sub_spaces_cons.
  destruct (space_width (String b r)); [|exact (space_width_space_2 _ _ _ H)].
  destruct r as [|c r]; [exact H|].
  rewrite sub_spaces_cons.
  destruct (space_width (String c r)); [exact H|].
  exact (space_width_space_3 _ _ _ _ H).
Qed.

Lemma sub_spaces_single_spaced (text : string) (skip : nat) (b : bool) :
  single_spaced (sub_spaces skip b text) = true ∧
  (b = true → space_width (sub_spaces skip b text) = 0).
Proof.
  revert skip b. induction text as [|a r IH]; intros skip b; [done|].
  destruct skip as [|k]; [|exact (IH k b)].
  rewrite sub_spaces_cons.
  destruct (space_width (String a r)) as [|k] eqn:E.
  - pose proof (space_width_sub_spaces a r E) as E'.
    rewrite single_spaced_cons, E'. split; [apply IH|done].
  - destruct b; [exact (IH k true)|].
    destruct (IH k true) as [H1 H2]. split; [|done].
    rewrite single_spaced_cons, space_width_space, H1, (H2 eq_refl).
    reflexivity.
Qed.

(** The parts of [single_spaced] at a whitespace character *)
Lemma single_spaced_inv (a : ascii) (r : string) (k : nat) :
  single_spaced (String a r) = true →
  space_width (String a r) = S k →
  a = " "%char ∧ k = 0 ∧ space_width r = 0 ∧ single_spaced r = true.
Proof.
  rewrite single_spaced_cons. intros H E. rewrite E in H.
  apply andb_prop in H as [[Ha Hr]%andb_prop Hs].
  apply Ascii.eqb_eq in Ha as ->. apply Nat.eqb_eq in Hr.
  rewrite space_width_space in E. repeat split; [congruence|done..].
Qed.

Lemma single_spaced_tail (a : ascii) (r : string) :
  single_spaced (String a r) = true → single_spaced r = true.
Proof.
  intros H. destruct (space_width (String a r)) as [|k] eqn:E.
  - rewrite single_spaced_cons, E in H. exact H.
  - apply (single_spaced_inv _ _ _ H E).
Qed.

Lemma sub_spaces_fixes (s : string) (b : bool) :
  single_spaced s = true → (b = true → space_width s = 0) →
  sub_spaces 0 b s = s.
Proof.
  revert b. induction s as [|a r IH]; intros b Hs Hb; [done|].
  rewrite sub_spaces_cons.
  destruct (space_width (String a r)) as [|k] eqn:E.
  - f_equal. apply IH; [exact (single_spaced_tail _ _ Hs)|done].
  - destruct b; [specialize (Hb eq_refl); discriminate|].
    destruct (single_spaced_inv _ _ _ Hs E) as (-> & -> & Hr & Hs').
    f_equal. apply IH; done.
Qed.

Lemma lstrip_spaces_fixes (s : string) :
  space_width s = 0 → lstrip_spaces 0 s = s.
Proof.
  destruct s as [|a r]; [done|]. rewrite lstrip_spaces_cons. intros ->. done.
Qed.

Lemma lstrip_spaces_single_spaced (s : string) :
  single_spaced s = true →
  single_spaced (lstrip_spaces 0 s) = true ∧
  space_width (lstrip_spaces 0 s) = 0.
Proof.
  intros Hs. destruct s as [|a r]; [done|].
  rewrite lstrip_spaces_cons.
  destruct (space_width (String a r)) as [|k] eqn:E; [done|].
  destruct (single_spaced_inv _ _ _ Hs E) as (-> & -> & Hr & Hs').
  rewrite (lstrip_spaces_fixes _ Hr). done.
Qed.

Lemma only_spaces_single_spaced (s : string) :
  single_spaced s = true → only_spaces 0 s = true → s = "" ∨ s = " ".
Proof.
  intros Hs Ho. destruct s as [|a r]; [by left|right].
  rewrite only_spaces_cons in Ho.
  destruct (space_width (String a r)) as [|k] eqn:E; [discriminate|].
  destruct (single_spaced_inv _ _ _ Hs E) as (-> & -> & Hr & Hs').
  destruct r as [|c r]; [done|].
  rewrite only_spaces_cons, Hr in Ho. discriminate.
Qed.

(** A space after the text makes no whitespace character of its first
    character. *)
Lemma space_width_snoc (a : ascii) (x : string) :
  space_width (String a (x +:+ " ")) = space_width (String a x).
Proof.
  destruct x as [|b [|c x]]; [..|reflexivity]; unfold space_width; simpl;
    destruct (Str.between 9 13 a || Str.between 28 32 a); try reflexivity;
    split_codes; reflexivity.
Qed.

Lemma rstrip_spaces_snoc (x : string) : rstrip_spaces (x +:+ " ") ≠ x +:+ " ".
Proof.
  induction x as [|a x IH]; [discriminate|].
  change (String a x +:+ " ") with (String a (x +:+ " ")).
  cbn [rstrip_spaces].
  destruct (only_spaces 0 (String a (x +:+ " "))); [discriminate|].
  intros [= H]. exact (IH H).
Qed.

Lemma rstrip_spaces_single_spaced (s : string) :
  single_spaced s = true →
  single_spaced (rstrip_spaces s) = true ∧
  (space_width s = 0 → space_width (rstrip_spaces s) = 0) ∧
  rstrip_spaces (rstrip_spaces s) = rstrip_spaces s ∧
  (s = rstrip_spaces s ∨ s = rstrip_spaces s +:+ " ").
Proof.
  induction s as [|a r IH]; intros Hs; [by repeat split; try left|].
  pose proof (single_spaced_tail _ _ Hs) as Hr.
  destruct (IH Hr) as (H1 & H2 & H3 & H4).
  cbn [rstrip_spaces].
  destruct (only_spaces 0 (String a r)) eqn:Ho.
  { destruct (only_spaces_single_spaced _ Hs Ho) as [|[= -> ->]]; [done|].
    repeat split; try done. by right. }
  assert (space_width (String a (rstrip_spaces r)) = space_width (String a r))
    as Hw.
  { destruct H4 as [<-|H4]; [done|].
    rewrite H4 at 2. symmetry. apply space_width_snoc. }
  assert (single_spaced (String a (rstrip_spaces r)) = true) as Hs1.
  { rewrite single_spaced_cons, Hw.
    destruct (space_width (String a r)) as [|k] eqn:E; [done|].
    destruct (single_spaced_inv _ _ _ Hs E) as (-> & -> & Hr0 & _).
    rewrite (H2 Hr0), H1. reflexivity. }
  assert (String a r = String a (rstrip_spaces r) ∨
          String a r = String a (rstrip_spaces r) +:+ " ") as Hcut.
  { destruct H4 as [<-|H4]; [by left|right]. simpl. by rewrite <- H4. }
  repeat split; [done|congruence| |done].
  cbn [rstrip_spaces]. rewrite H3.
  destruct (only_spaces 0 (String a (rstrip_spaces r))) eqn:Ho'; [|done].
  exfalso.
  destruct (only_spaces_single_spaced _ Hs1 Ho') as [|[= -> Hnil]]; [done|].
  rewrite Hnil in Hcut. destruct Hcut as [[= ->]|[= ->]]; discriminate.
Qed.

Lemma startswith_space (s : string) :
  single_spaced s = true →
  Str.startswith " " s = false ↔ space_width s = 0.
Proof.
  intros Hs. destruct s as [|a r]; [done|].
  destruct (space_width (String a r)) as [|k] eqn:E.
  - split; [done|intros _].
    cbn [Str.startswith]. rewrite andb_true_r. apply not_true_is_false.
    intros <-%eqb_ascii_eq. rewrite space_width_space in E. discriminate.
  - destruct (single_spaced_inv _ _ _ Hs E) as (-> & _). done.
Qed.

Lemma endswith_snoc (x : string) : Str.endswith " " (x +:+ " ") = true.
Proof. unfold Str.endswith. rewrite rev_app. reflexivity. Qed.

Lemma collapse_whitespace_collapsed (text : string) :
  collapsed (collapse_whitespace text) = true.
Proof.
  unfold collapse_whitespace, collapsed.
  destruct (sub_spaces_single_spaced text 0 false) as [H0 _].
  destruct (lstrip_spaces_single_spaced _ H0) as [H1 H2].
  destruct (rstrip_spaces_single_spaced _ H1) as (H3 & H4 & H5 & _).
  set (s := rstrip_spaces _) in *.
  rewrite H3, (proj2 (startswith_space s H3) (H4 H2)). simpl.
  apply negb_true_iff, not_true_is_false.
  intros [x Hx]%endswith_inv. rewrite Hx in H5.
  exact (rstrip_spaces_snoc _ H5).
Qed.

Lemma collapse_whitespace_unchanged (s : string) :
  collapsed s = true → collapse_whitespace s = s.
Proof.
  unfold collapsed.
  intros [[Hs Hb%negb_true_iff]%andb_prop He%negb_true_iff]%andb_prop.
  apply (startswith_space s Hs) in Hb.
  unfold collapse_whitespace.
  rewrite (sub_spaces_fixes s false Hs), (lstrip_spaces_fixes s Hb); [|done].
  destruct (rstrip_spaces_single_spaced _ Hs) as (_ & _ & _ & [<-|H]); [done|].
  rewrite H, endswith_snoc in He. discriminate.
Qed.

(** [collapse_whitespace] leaves a text as it is exactly when every
    whitespace character of the text is one space that is neither the
    first nor the last character and that no whitespace follows. *)
Theorem collapse_whitespace_fixes (s : string) :
  collapse_whitespace s = s ↔ collapsed s = true.
Proof.
  split; [intros <-; apply collapse_whitespace_collapsed|].
  apply collapse_whitespace_unchanged.
Qed.

(** Collapsing the whitespace of a text a second time changes
    nothing. *)
Theorem collapse_whitespace_idempotent (text : string) :
  collapse_whitespace (collapse_whitespace text) = collapse_whitespace text.
Proof.
  apply collapse_whitespace_unchanged, collapse_whitespace_collapsed.
Qed.

Lemma collapse_whitespace_fixes_witness :
  collapse_whitespace "next page" = "next page".
Proof. apply (collapse_whitespace_fixes "next page"). reflexivity. Defined.

(** ** The content type test of the fetch step *)

Lemma lstrip_suffix (p : ascii → bool) (s : string) :
  ∃ pre, s = pre +:+ Str.lstrip p s.
Proof.
  induction s as [|a s [pre IH]]; [by exists ""|]. simpl.
  destruct (p a); [|by exists ""].
  exists (String a pre). simpl. by rewrite <- IH.
Qed.

Lemma rstrip_prefix (p : ascii → bool) (s : string) :
  ∃ post, s = Str.rstrip p s +:+ post.
Proof.
  unfold Str.rstrip. destruct (lstrip_suffix p (Str.rev s)) as [pre Hpre].
  exists (Str.rev pre).
  rewrite <- rev_app, <- Hpre, rev_involutive. reflexivity.
Qed.

Lemma contains_startswith (sub s : string) :
  Str.startswith sub s = true → Str.contains sub s = true.
Proof. intros H. destruct s; simpl; rewrite H; reflexivity. Qed.

(** A value whose media type is [m] starts, lower-cased, with [m]. *)
Lemma media_type_prefix (ct : string) :
  ∃ rest, Str.lower ct = media_type ct +:+ rest.
Proof.
  unfold media_type.
  destruct (Str.cut ";" ct) as [[h t]|] eqn:Hcut.
  - apply cut_some in Hcut as [-> _].
    destruct (rstrip_prefix is_blank h) as [post Hpost].
    exists (Str.lower (post +:+ String ";" t)).
    rewrite Hpost at 1. rewrite sapp_assoc, lower_app. reflexivity.
  - destruct (rstrip_prefix is_blank ct) as [post Hpost].
    exists (Str.lower post). rewrite Hpost at 1. apply lower_app.
Qed.

(** The test of [_fetch_http] accepts every HTML content type. *)
Lemma html_media_type_accepted (ct : string) :
  html_media_type ct = true → html_content_type (Str.lower ct) = true.
Proof.
  unfold html_media_type, html_content_type.
  destruct (media_type_prefix ct) as [rest ->].
  intros [->%String.eqb_eq | ->%String.eqb_eq]%orb_prop.
  - rewrite contains_startswith; [reflexivity|]. apply startswith_app.
  - apply orb_true_iff. right.
    apply (startswith_app "application/xhtml" ("+xml" +:+ rest)).
Qed.

(** C9, as the code has it.  An answer or an [Exception] (transport
    error, timeout) of the request never makes [_fetch_http] raise.  It
    returns document content exactly for an answer with status 200 whose
    lower-cased content type contains [text/html] or starts with
    [application/xhtml].  Every answer with status 200 and an HTML content
    type is among these. *)
Theorem fetch_http_by_content_type (got : outcome Response) :
  (∀ e, got = Raise e → is_Exception e = true) →
  (∃ res, fetch_http got = Return res) ∧
  (∀ doc cd,
     fetch_http got = Return (Some (doc, cd)) ↔
     ∃ r, got = Return r ∧ status_code r = 200%Z ∧
          (Str.contains "text/html"
             (Str.lower (default EmptyString (content_type r))) = true ∨
           Str.startswith "application/xhtml"
             (Str.lower (default EmptyString (content_type r))) = true) ∧
          doc = text r ∧ cd = content_disposition r) ∧
  (∀ r ct,
     got = Return r → status_code r = 200%Z → content_type r = Some ct →
     html_media_type ct = true →
     fetch_http got = Return (Some (text r, content_disposition r))).
Proof.
  intros Hexc. destruct got as [r|e]; cbn [fetch_http].
  - set (ct := Str.lower (default EmptyString (content_type r))).
    split; [destruct (_ && _); eauto|]. split.
    + intros doc cd. unfold html_content_type.
      destruct (Z.eqb_spec (status_code r) 200) as [Hs|Hs];
        destruct (Str.contains "text/html" ct) eqn:Hc;
        destruct (Str.startswith "application/xhtml" ct) eqn:Hx;
        cbn [andb orb]; split;
        try discriminate;
        try (intros [= <- <-]; exists r; by auto);
        try (intros (r' & [= <-] & Hs' & Hor & -> & ->); subst ct;
             first [reflexivity | contradiction
                   | destruct Hor; congruence]).
    + intros r' c [= <-] Hs Hct Hm. subst ct.
      apply Z.eqb_eq in Hs. rewrite Hs, Hct.
      change (default EmptyString (Some c)) with c.
      rewrite (html_media_type_accepted c Hm). reflexivity.
  - rewrite (Hexc e eq_refl). split; [eauto|]. split.
    + intros doc cd; split; [discriminate|]. intros (r & [=] & _).
    + intros r ct [=].
Qed.

Lemma fetch_http_by_content_type_witness :
  fetch_http (Return (html_page "<html>page</html>"))
  = Return (Some ("<html>page</html>", None)).
Proof.
  destruct (fetch_http_by_content_type
              (Return (html_page "<html>page</html>"))) as (_ & _ & H).
  - intros e [=].
  - apply (H (html_page "<html>page</html>") "text/html; charset=utf-8");
      reflexivity.
Defined.

(** An answer whose content type is [application/json] with a parameter
    that mentions [text/html] has no HTML content type, and its body is
    returned as a document. *)
Lemma non_html_answer_is_returned :
  status_code json_profile = 200%Z ∧
  (∃ ct, content_type json_profile = Some ct ∧ html_media_type ct = false) ∧
  fetch_http (Return json_profile) = Return (Some (text json_profile, None)).
Proof.
  split; [reflexivity|]. split; [|reflexivity].
  eexists. split; reflexivity.
Qed.

(** So is the body of an answer of the type [text/html-sandboxed]. *)
Example sandboxed_answer_is_returned :
  html_media_type "text/html-sandboxed" = false ∧
  fetch_http (Return (mkResponse 200 (Some "text/html-sandboxed") "x" None))
  = Return (Some ("x", None)).
Proof. split; reflexivity. Qed.
